(** * mustex: generators of LaTeX/TikZ music-theory diagrams

    A shallow embedding of the four Python modules of the repository
    ([utils.py], [cycles.py], [linear_table.py], [schema.py]) and the
    properties of their output.

    Conventions of the embedding.
    - A Python [int] is a [Z].
    - A Python [float] is a binary64 number, kept as the rational it
      denotes ([Q]).  An operation on floats rounds its exact result to
      the nearest binary64 number, ties to even ([round64]); [a / b] on
      ints is the correctly rounded quotient and raises [OverflowError]
      when that is too large for a float.  The one sum [i + 1.5] of
      [schema.py] is written without rounding: it is exact for an index
      [i] of any list that can exist.
    - The two zeros of binary64 are not told apart, and no infinity or
      NaN is represented: the generators compute none.
    - [math.log2] is the C library's; its value is not computed here, and
      the int derived from it is kept as the piece [Scale n].
    - Text is kept as the sequence of pieces an f-string is assembled from
      (type [text]), so that the numbers formatted into a line stay visible.
    - [f.write(s)] appends [s] to the sequence of writes of the open file.
    - A raised exception ends the call; the file opened by [with open(...)]
      keeps what was written before.
    - Every generator writes one artifact, [./output/<file_name>.tex]; the
      [file_name] parameter is left out and opening the file is taken to
      succeed.
    - The example entry points of the modules, which call the generators
      on fixed arguments, are not embedded. *)

From Stdlib Require Import String Ascii DecimalString.
From Stdlib Require Import ZArith QArith Qround Qabs Qpower Lqa Bool Lia.
From Stdlib Require Import List Sorting.Sorted FinFun.
Import ListNotations.

Set Implicit Arguments.

(** ** Python values and builtins used by the sources *)

Module Py.

(** The line feed written by ["\n"]. *)
Definition nl : string := String "010"%char EmptyString.

(** One piece of a formatted string: literal characters, a formatted
    [int], a formatted [float], or the formatted int
    [int(math.log2(n) - 1)] for an [n >= 1]. *)
Inductive piece : Type :=
| Lit (s : string)
| Int (z : Z)
| Float (q : Q)
| Scale (n : Z).

Definition text : Type := list piece.

(** Exceptions the modelled code can raise. *)
Inductive exn : Type :=
| ValueError (msg : text)
| IndexError
| UnboundLocalError (var : string)
| ZeroDivisionError
| OverflowError.

Inductive res (A : Type) : Type :=
| Ok (a : A)
| Raise (e : exn).
Arguments Ok {A} a.
Arguments Raise {A} e.

Definition bind {A B} (m : res A) (k : A -> res B) : res B :=
  match m with
  | Ok a => k a
  | Raise e => Raise e
  end.

(** [range(n)] and [range(a, b)]. *)
Definition range2 (a b : Z) : list Z :=
  map (fun k => a + Z.of_nat k)%Z (seq 0 (Z.to_nat (b - a))).

Definition range (n : Z) : list Z := range2 0 n.

(** [k in range(n)] for an [int] [k]. *)
Definition in_range (k n : Z) : bool := ((0 <=? k) && (k <? n))%Z.

(** [x in l] for a list of ints. *)
Definition contains (x : Z) (l : list Z) : bool := existsb (Z.eqb x) l.

(** [len(l)]. *)
Definition len {A} (l : list A) : Z := Z.of_nat (List.length l).

(** [l[i]]: negative indices count from the end; out of range raises. *)
Definition getitem {A} (l : list A) (i : Z) : res A :=
  let j := (if i <? 0 then i + len l else i)%Z in
  if (j <? 0)%Z then Raise IndexError
  else match nth_error l (Z.to_nat j) with
       | Some a => Ok a
       | None => Raise IndexError
       end.

(** [l * k] for a list [l] and an int [k]. *)
Definition list_mul {A} (l : list A) (k : Z) : list A :=
  concat (repeat l (Z.to_nat k)).

(** [s * k] for a string [s]. *)
Fixpoint string_rep (s : string) (k : nat) : string :=
  match k with
  | O => EmptyString
  | S k' => (s ++ string_rep s k')%string
  end.

Definition str_mul (s : string) (k : Z) : string := string_rep s (Z.to_nat k).

(** [sep.join(cells)]. *)
Fixpoint join (sep : text) (cells : list text) : text :=
  match cells with
  | [] => []
  | [c] => c
  | c :: rest => c ++ sep ++ join sep rest
  end.

(** [sorted(l)] on ints, as a stable insertion sort (any stable sort gives
    the same list). *)
Fixpoint insert_sorted (x : Z) (l : list Z) : list Z :=
  match l with
  | [] => [x]
  | y :: r => if (x <=? y)%Z then x :: l else y :: insert_sorted x r
  end.

Fixpoint sorted (l : list Z) : list Z :=
  match l with
  | [] => []
  | x :: r => insert_sorted x (sorted r)
  end.

Fixpoint list_eqb (l1 l2 : list Z) : bool :=
  match l1, l2 with
  | [], [] => true
  | x :: r1, y :: r2 => (x =? y)%Z && list_eqb r1 r2
  | _, _ => false
  end.

(** [itertools.combinations(l, 2)]: pairs of positions [i < j], in
    lexicographic order of positions. *)
Fixpoint combinations2 {A} (l : list A) : list (A * A) :=
  match l with
  | [] => []
  | x :: r => map (pair x) r ++ combinations2 r
  end.

(** *** Floats: binary64, rounded to nearest, ties to even *)

(** [2^e] for any integer [e]. *)
Definition pow2 (e : Z) : Q :=
  if (0 <=? e)%Z then inject_Z (2 ^ e) else 1 # Z.to_pos (2 ^ (- e)).

(** The exponent of the binade of [a / b]: the [k] with
    [2^k <= a / b < 2^(k + 1)]. *)
Definition floor_log2 (a b : positive) : Z :=
  let k := (Z.log2 (Z.pos a) - Z.log2 (Z.pos b))%Z in
  if (if 0 <=? k then Z.pos b * 2 ^ k <=? Z.pos a
      else Z.pos b <=? Z.pos a * 2 ^ (- k))%Z
  then k else (k - 1)%Z.

(** [num / den] rounded to the nearest integer, halves to the even one. *)
Definition round_half_even (num den : Z) : Z :=
  let q := (num / den)%Z in
  match (2 * (num mod den) ?= den)%Z with
  | Lt => q
  | Gt => (q + 1)%Z
  | Eq => if Z.even q then q else (q + 1)%Z
  end.

(** The exponent of the last place of a binary64 number in the binade of
    [a / b]: 53 significant bits, and no exponent below that of the
    subnormal numbers. *)
Definition ulp_exp (a b : positive) : Z :=
  Z.max (floor_log2 a b - 52) (-1074).

(** The positive rational [a / b] rounded to a multiple of [2^ulp_exp]. *)
Definition round_pos (a b : positive) : Q :=
  let e := ulp_exp a b in
  let m := if (0 <=? e)%Z then round_half_even (Z.pos a) (Z.pos b * 2 ^ e)
           else round_half_even (Z.pos a * 2 ^ (- e)) (Z.pos b) in
  Qred (inject_Z m * pow2 e).

(** The binary64 number nearest to [x], ties to even; a result of
    magnitude [2^1024] or more stands for an infinity ([overflows]). *)
Definition round64 (x : Q) : Q :=
  match Qnum (Qred x) with
  | 0%Z => 0
  | Z.pos a => round_pos a (Qden (Qred x))
  | Z.neg a => - round_pos a (Qden (Qred x))
  end.

Definition overflows (x : Q) : bool := Qle_bool (pow2 1024) (Qabs x).

(** The float [a / b] of two ints, when there is one. *)
Definition quotient (a b : Z) : Q := round64 (inject_Z a / inject_Z b).

(** [a / b] on ints (true division): the correctly rounded quotient. *)
Definition fdiv (a b : Z) : res Q :=
  if (b =? 0)%Z then Raise ZeroDivisionError
  else if overflows (quotient a b) then Raise OverflowError
  else Ok (quotient a b).

(** [x * y] and [x - y] on finite floats (an int operand is converted
    first, exactly for the constants used). *)
Definition fmul (x y : Q) : Q := round64 (x * y).

Definition fsub (x y : Q) : Q := round64 (x - y).

(** [x % m] on floats, for a non-zero [m]: the remainder of C's [fmod],
    which is exact and has the sign of [x], moved by [m] (a rounded
    addition) when its sign differs from that of [m]. *)
Definition fmod (x m : Q) : Q :=
  let t := x / m in
  let r := x - m * inject_Z (if Qle_bool 0 t then Qfloor t else Qceiling t) in
  if Qeq_bool r 0 then 0
  else if Bool.eqb (Qle_bool 0 r) (Qle_bool 0 m) then r
  else round64 (r + m).

(** [int(math.log2(n) - 1)]: a non-positive [n] is a math domain error;
    otherwise the int is kept as the piece that is written for it. *)
Definition int_log2_minus_1 (n : Z) : res piece :=
  if (0 <? n)%Z then Ok (Scale n)
  else Raise (ValueError [Lit "math domain error"]).

(** [int(x)] for a finite float: truncation towards zero. *)
Definition int_of_float (x : Q) : Z :=
  if Qle_bool 0 x then Qfloor x else Qceiling x.

(** [str(z)] for an [int]: the decimal numeral. *)
Definition str_int (z : Z) : string := NilZero.string_of_int (Z.to_int z).

(** The characters a [text] stands for, given the rendering of floats
    and the float [math.log2] returns. *)
Section Render.
Variable repr_float : Q -> string.
Variable math_log2 : Z -> Q.

Definition render_piece (p : piece) : string :=
  match p with
  | Lit s => s
  | Int z => str_int z
  | Float q => repr_float q
  | Scale n => str_int (int_of_float (fsub (math_log2 n) 1))
  end.

Definition render (t : text) : string :=
  fold_right (fun p acc => (render_piece p ++ acc)%string) EmptyString t.
End Render.

(** *** Writing to the open file *)

Definition file : Type := list text.

Definition io (A : Type) : Type := file -> res A * file.

Definition ret {A} (a : A) : io A := fun f => (Ok a, f).

Definition seq_io {A B} (m : io A) (k : A -> io B) : io B :=
  fun f =>
    match m f with
    | (Ok a, f') => k a f'
    | (Raise e, f') => (Raise e, f')
    end.

Definition write (t : text) : io unit := fun f => (Ok tt, f ++ [t]).

Definition lift {A} (r : res A) : io A := fun f => (r, f).

Definition when (b : bool) (m : io unit) : io unit :=
  if b then m else ret tt.

Fixpoint for_each {A} (l : list A) (body : A -> io unit) : io unit :=
  match l with
  | [] => ret tt
  | x :: r => seq_io (body x) (fun _ => for_each r body)
  end.

(** A loop that appends one result per iteration to a list. *)
Fixpoint collect {A B} (l : list A) (body : A -> res B) : res (list B) :=
  match l with
  | [] => Ok []
  | x :: r =>
      bind (body x) (fun y => bind (collect r body) (fun ys => Ok (y :: ys)))
  end.

(** The outcome of a generator call: how the call ended, and the
    artifact [./output/<file_name>.tex] ([None] when it was never
    opened). *)
Definition outcome : Type := (res unit * option file)%type.

(** [with open(path, "w") as f: body]. *)
Definition with_open (body : io unit) : outcome :=
  let '(r, f) := body [] in (r, Some f).

End Py.

Import Py.

Declare Scope io_scope.
Delimit Scope io_scope with io.
Notation "x <- m ;; k" := (seq_io m (fun x => k))
  (at level 61, m at next level, right associativity) : io_scope.
Notation "m ;; k" := (seq_io m (fun _ => k))
  (at level 61, right associativity) : io_scope.

Declare Scope res_scope.
Delimit Scope res_scope with res.
Notation "x <- m ;; k" := (bind m (fun x => k))
  (at level 61, m at next level, right associativity) : res_scope.

(** ** utils.py *)

Module Utils.

Definition pitch_name_list : list string :=
  ["C"; "C$\sharp$"; "D"; "E$\flat$"; "E"; "F"; "F$\sharp$"; "G";
   "A$\flat$"; "A"; "B$\flat$"; "B"]%string.

End Utils.

(** ** cycles.py *)

Module Cycles.
Import Utils.
Local Open Scope string_scope.
Local Open Scope list_scope.

(** [(360 + 90 - (q * 360)) % 360] for the float [q] of [i / n]. *)
Definition angle_of (q : Q) : Q :=
  fmod (fsub (inject_Z (360 + 90)) (fmul q 360)) 360.

(** The angle of element [i] of [n]. *)
Definition angle (i n : Z) : Q := angle_of (quotient i n).

Definition colour (i : Z) (ks : list Z) : string :=
  if contains i ks then "black" else "white".

(** The coarse label position used when [label_angles] is false, for
    the float [q] of [i / n]. *)
Definition compass_of (q : Q) : string :=
  if Qeq_bool q 0 then "above"
  else match (q ?= 1 # 2)%Q with
       | Lt => "right"
       | Eq => "below"
       | Gt => "left"
       end.

Definition compass (i n : Z) : string := compass_of (quotient i n).

Definition label_position_of (label_angles : bool) (q : Q) : piece :=
  if label_angles then Float (angle_of q) else Lit (compass_of q).

Definition label_position (label_angles : bool) (i n : Z) : piece :=
  label_position_of label_angles (quotient i n).

Definition label (denominator_in_label tonality_not_count : bool) (i n : Z)
  : res text :=
  if tonality_not_count then
    (name <- getitem pitch_name_list i ;; Ok [Lit name])%res
  else if denominator_in_label then Ok [Int i; Lit "/"; Int n]
  else Ok [Int i].

(** The line appended for one element:
    [\node (n{i}) at +({angle}:{radius_string}) [circle, draw,
     fill={colour}, label = {label_position}:{label}]] followed by
    [{};] and a line feed. *)
Definition node_string (i : Z) (a : Q) (radius_string col : string)
    (pos : piece) (lab : text) : text :=
  [Lit "\node (n"; Int i; Lit ") at +("; Float a; Lit ":";
   Lit radius_string; Lit ") [circle, draw, fill="; Lit col;
   Lit ", label = "; pos; Lit ":"] ++ lab ++ [Lit "]"; Lit ("{};" ++ nl)].

Definition label_mode_message (n : Z) : text :=
  [Lit "To use the pitch class labels, the cycle length (currently ";
   Int n; Lit ") must be 12."].

Definition node_strings (ks : list Z) (n : Z)
    (label_angles denominator_in_label tonality_not_count : bool)
    (radius_string : string) : res (list text) :=
  if tonality_not_count && negb (n =? 12)%Z then
    Raise (ValueError (label_mode_message n))
  else
    collect (range n) (fun i =>
      (q <- fdiv i n ;;
       lab <- label denominator_in_label tonality_not_count i n ;;
       Ok (node_string i (angle_of q) radius_string (colour i ks)
             (label_position_of label_angles q) lab))%res).

Definition highlight_message (k n : Z) : text :=
  [Lit "Highlighted index "; Int k; Lit " is greater than the total n (";
   Int n; Lit ")."].

(** The checking loop over an explicitly given [ks]. *)
Fixpoint check_highlighted (ks : list Z) (n : Z) : res unit :=
  match ks with
  | [] => Ok tt
  | k :: rest =>
      if in_range k n then check_highlighted rest n
      else Raise (ValueError (highlight_message k n))
  end.

(** [ks] after the first statement: [range(n)] when [None] was passed. *)
Definition resolve_highlighted (ks : option (list Z)) (n : Z)
  : res (list Z) :=
  match ks with
  | None => Ok (range n)
  | Some l => (_ <- check_highlighted l n ;; Ok l)%res
  end.

Definition preamble : list text :=
  [[Lit ("\documentclass[tikz,border=10pt]{standalone}" ++ nl)];
   [Lit ("\usepackage{tikz}" ++ nl)];
   [Lit ("\usetikzlibrary{shapes.misc, arrows.meta, bending}" ++ nl)];
   [Lit ("\begin{document}" ++ nl)]].

Definition segment_string (a b : Z) : text :=
  [Lit "\draw[solid] (n"; Int a; Lit ") -- (n"; Int b; Lit (");" ++ nl)].

(** The line written after the loop of the adjacent mode. *)
Definition last_segment_string (a : Z) : text :=
  [Lit "\draw[solid] (n"; Int a; Lit (") -- (n0);" ++ nl)].

Definition draw_adjacent (ks : list Z) : io unit :=
  (for_each (range (len ks - 1)) (fun i =>
     a <- lift (getitem ks i) ;;
     b <- lift (getitem ks (i + 1)) ;;
     write (segment_string a b)) ;;
   a <- lift (getitem ks (-1)) ;;
   write (last_segment_string a))%io.

Definition draw_all_pairs (ks : list Z) : io unit :=
  for_each (combinations2 ks) (fun pair =>
    write (segment_string (fst pair) (snd pair))).

Definition single_cycle_body (ks : list Z) (n : Z) (radius : Q)
    (lines adjacent_not_all tonality_not_count include_preamble : bool)
  : io unit :=
  (when include_preamble (for_each preamble write) ;;
   scale <- lift (int_log2_minus_1 n) ;;
   write [Lit "\begin{tikzpicture}[scale={"; scale; Lit ("}]" ++ nl)] ;;
   write [Lit "\def \radius{"; Float radius; Lit ("}" ++ nl)] ;;
   write [Lit ("\node (origin) at (0,0) {};" ++ nl)] ;;
   write [Lit ("\draw (origin) circle (\radius);" ++ nl)] ;;
   nodes <- lift (node_strings ks n true false tonality_not_count "\radius") ;;
   for_each nodes write ;;
   when lines
     (if adjacent_not_all then draw_adjacent ks else draw_all_pairs ks) ;;
   write [Lit ("\end{tikzpicture}" ++ nl)] ;;
   when include_preamble (write [Lit ("\end{document}" ++ nl)]))%io.

Definition single_cycle_example (ks : option (list Z)) (n : Z) (radius : Q)
    (lines adjacent_not_all tonality_not_count include_preamble : bool)
  : outcome :=
  match resolve_highlighted ks n with
  | Raise e => (Raise e, None)
  | Ok ks' =>
      with_open (single_cycle_body ks' n radius lines adjacent_not_all
                   tonality_not_count include_preamble)
  end.

(** [two_circles]: two circles around one origin, the inner one first. *)
Definition two_circles_body (inner_k : list Z) (inner_n : Z) (inner_radius : Q)
    (outer_k : list Z) (outer_n : Z) (outer_radius : Q)
    (include_preamble : bool) : io unit :=
  (when include_preamble (for_each preamble write) ;;
   write [Lit ("\begin{tikzpicture}[scale=2]" ++ nl)] ;;
   write [Lit "\def \innerradius{"; Float inner_radius; Lit ("}" ++ nl)] ;;
   write [Lit ("\node (origin) at (0,0) {};" ++ nl)] ;;
   write [Lit ("\draw (origin) circle (\innerradius);" ++ nl)] ;;
   nodes <- lift (node_strings inner_k inner_n true false false "\innerradius") ;;
   for_each nodes write ;;
   write [Lit "\def \outerradius{"; Float outer_radius; Lit ("}" ++ nl)] ;;
   write [Lit ("\node (origin) at (0,0) {};" ++ nl)] ;;
   write [Lit ("\draw (origin) circle (\outerradius);" ++ nl)] ;;
   nodes <- lift (node_strings outer_k outer_n true false false "\outerradius") ;;
   for_each nodes write ;;
   write [Lit ("\end{tikzpicture}" ++ nl)] ;;
   when include_preamble (write [Lit ("\end{document}" ++ nl)]))%io.

Definition two_circles (inner_k : option (list Z)) (inner_n : Z)
    (inner_radius : Q) (outer_k : option (list Z)) (outer_n : Z)
    (outer_radius : Q) (include_preamble : bool) : outcome :=
  match resolve_highlighted inner_k inner_n with
  | Raise e => (Raise e, None)
  | Ok inner_k' =>
      match resolve_highlighted outer_k outer_n with
      | Raise e => (Raise e, None)
      | Ok outer_k' =>
          with_open (two_circles_body inner_k' inner_n inner_radius
                       outer_k' outer_n outer_radius include_preamble)
      end
  end.

End Cycles.

(** ** linear_table.py *)

Module LinearTable.
Import Utils.
Local Open Scope string_scope.
Local Open Scope list_scope.
Local Open Scope Z_scope.

(** The cell [str(x)] of an int. *)
Definition cell_int (x : Z) : text := [Int x].

(** The cell of a pitch name. *)
Definition cell_name (s : string) : text := [Lit s].

(** [d]: the cell put at both ends of every row. *)
Definition end_cell (open_ended : bool) : list text :=
  if open_ended then [[Lit "\dots"]] else [[Lit EmptyString]].

Definition separator : text := [Lit " & "].

Definition ints (start_octave end_octave : Z) : list Z :=
  range2 (start_octave * 12) (end_octave * 12).

Definition midis (d : list text) (start_octave end_octave : Z) : text :=
  join separator (d ++ map cell_int (ints start_octave end_octave) ++ d).

Definition pcs (d : list text) (octaves : Z) : text :=
  join separator (d ++ map cell_int (list_mul (range 12) octaves) ++ d).

Definition names (d : list text) (octaves : Z) : text :=
  join separator (d ++ map cell_name (list_mul pitch_name_list octaves) ++ d).

Definition ccs (octaves : Z) : string :=
  ("c" ++ str_mul "|cccccccccccc" octaves ++ "|c")%string.

Definition preamble : list text :=
  [[Lit ("\documentclass{standalone}" ++ nl)];
   [Lit ("\begin{document}" ++ nl)];
   [Lit ("\begin{table}[h!]" ++ nl)];
   [Lit ("\centering" ++ nl)];
   [Lit ("\caption{MIDI Pitch to Pitch Class Mapping}" ++ nl)]].

Definition midi_pitch_pc_table (start_octave end_octave : Z)
    (include_preamble open_ended : bool) : outcome :=
  let d := end_cell open_ended in
  let octaves := end_octave - start_octave in
  with_open
    (when include_preamble (for_each preamble write) ;;
     write [Lit "\begin{tabular}{"; Lit (ccs octaves); Lit ("}" ++ nl)] ;;
     when (negb open_ended) (write [Lit "\textbf{MIDI} "]) ;;
     write (midis d start_octave end_octave ++ [Lit nl]) ;;
     write [Lit ("\\" ++ nl)] ;;
     when (negb open_ended) (write [Lit "\textbf{Name} "]) ;;
     write (names d octaves ++ [Lit nl]) ;;
     write [Lit ("\\" ++ nl)] ;;
     when (negb open_ended) (write [Lit "\textbf{Class} "]) ;;
     write (pcs d octaves ++ [Lit nl]) ;;
     write [Lit ("\end{tabular}" ++ nl)])%io.

Definition grid_preamble : list text :=
  [[Lit ("\documentclass{standalone}" ++ nl)];
   [Lit ("\begin{document}" ++ nl)];
   [Lit ("\begin{table}[h!]" ++ nl)];
   [Lit ("\centering" ++ nl)]].

(** The six writes of one rectangle of row [n]; each corner is
    formatted, and its division done, right before it is written. *)
Definition write_rectangle (length_unit n i : Z) : io unit :=
  (write [Lit "\filldraw[fill=blue!20, draw=black]"] ;;
   x0 <- lift (fdiv (length_unit * i) n) ;;
   write [Lit "("; Float x0; Lit ", "; Int n; Lit ")"] ;;
   x1 <- lift (fdiv ((i + 1) * length_unit) n) ;;
   write [Lit "rectangle ("; Float x1; Lit ", "; Int (n + 1); Lit ")"] ;;
   write [Lit "node[midway] {1/"] ;;
   write [Int n] ;;
   write [Lit ("};" ++ nl)])%io.

Definition grid_tatum (n_divs length_unit : Z) (include_preamble : bool)
  : outcome :=
  with_open
    (when include_preamble (for_each grid_preamble write) ;;
     write [Lit ("\begin{tikzpicture}[scale=1, transform shape]" ++ nl)] ;;
     for_each (range n_divs) (fun n =>
       for_each (range n) (fun i => write_rectangle length_unit n i) ;;
       write [Lit ("\\" ++ nl)]) ;;
     write [Lit ("\end{tikzpicture}" ++ nl)])%io.

End LinearTable.

(** ** schema.py *)

Module Schema.
Local Open Scope string_scope.
Local Open Scope list_scope.
Local Open Scope Z_scope.

(** One entry of [circles]: a dict with the keys ["name"] and ["tag"]. *)
Record circle : Type := { name : string; tag : Z }.

(** [enumerate(l)]. *)
Definition enumerate {A} (l : list A) : list (Z * A) :=
  combine (range (len l)) l.

(** A loop that updates local variables (the state [s]). *)
Fixpoint for_each_with {A S} (l : list A) (s : S) (body : A -> S -> io S)
  : io S :=
  match l with
  | [] => ret s
  | x :: r => (s' <- body x s ;; for_each_with r s' body)%io
  end.

(** Reading a local variable that a loop may never have bound. *)
Definition read_local (var : string) (v : option Z) : res Z :=
  match v with
  | Some z => Ok z
  | None => Raise (UnboundLocalError var)
  end.

Definition preamble : list text :=
  [[Lit ("\documentclass[tikz,border=10pt]{standalone}" ++ nl)];
   [Lit ("\usepackage{tikz}" ++ nl)];
   [Lit ("\usetikzlibrary{shapes.misc, arrows.meta, bending}" ++ nl)];
   [Lit ("\begin{document}" ++ nl)]].

Definition root_line (root_name : string) : text :=
  [Lit "    \node (bottom) at (0,0) [circle, fill=black, text=white, minimum width=1.5em] ";
   Lit "{"; Lit root_name; Lit "}"; Lit (";" ++ nl)].

Definition upper_line (i : Z) (c : circle) : text :=
  [Lit "    \node (top"; Int (i + 1); Lit ") at (0, "; Int (i + 1);
   Lit ") [circle, draw=black, thick, minimum width=1.5em] {";
   Lit (name c); Lit ("};" ++ nl)].

(** The dashed box reaches up to [i + 1.5], a float that is exact for
    every index below [2^52]. *)
Definition box_line (i : Z) : text :=
  [Lit "    \draw[rounded corners=5pt, dashed] (-0.5, -0.5) rectangle (0.5, ";
   Float (inject_Z i + (15 # 10))%Q; Lit (");" ++ nl)].

Definition direction (i : Z) : string :=
  if i mod 2 =? 0 then "left" else "right".

Definition arrow_line (i bend_angle : Z) (c : circle) : text :=
  [Lit "    \draw[->, bend "; Lit (direction i); Lit "="; Int bend_angle;
   Lit "] (bottom) to node[midway, "; Lit (direction i); Lit "] {";
   Int (tag c); Lit "} (top"; Int (i + 1); Lit (");" ++ nl)].

Definition unsorted_message : text := [Lit "Tags must be in increasing order"].

Definition schema_example (root_name : string) (circles : list circle)
    (include_preamble : bool) : outcome :=
  let tags := map tag circles in
  if negb (list_eqb tags (sorted tags)) then
    (Raise (ValueError unsorted_message), None)
  else
    with_open
      (when include_preamble (for_each preamble write) ;;
       write [Lit ("\begin{tikzpicture}" ++ nl)] ;;
       write (root_line root_name) ;;
       i <- for_each_with (enumerate circles) None (fun ic _ =>
              write (upper_line (fst ic) (snd ic)) ;; ret (Some (fst ic))) ;;
       last_i <- lift (read_local "i" i) ;;
       write (box_line last_i) ;;
       write [Lit ("    % Draw curved arrows with annotations" ++ nl)] ;;
       _ <- for_each_with (enumerate circles) 0 (fun ic bend_angle =>
              write (arrow_line (fst ic) bend_angle (snd ic)) ;;
              ret (bend_angle + 20)) ;;
       write [Lit ("\end{tikzpicture}" ++ nl)] ;;
       when include_preamble (write [Lit ("\end{document}" ++ nl)]))%io.

End Schema.

(** * Reading the output back

    What a written line says: the functions below recover, from the pieces
    of a line, the drawing instruction it stands for.  With them come the
    lines each generator is expected to write, in closed form. *)

Module Reading.
Import Utils Cycles LinearTable Schema.
Local Open Scope string_scope.
Local Open Scope list_scope.
Local Open Scope Z_scope.

(** The results of [f] on the lines it recognises, in order. *)
Fixpoint pick {X Y} (f : X -> option Y) (l : list X) : list Y :=
  match l with
  | [] => []
  | x :: r => match f x with
              | Some y => y :: pick f r
              | None => pick f r
              end
  end.

(** The exception a call ended with, if any. *)
Definition raised (o : outcome) : option exn :=
  match fst o with
  | Ok _ => None
  | Raise e => Some e
  end.

(** The artifact of an outcome, empty when none was opened. *)
Definition written (o : outcome) : file :=
  match snd o with
  | Some f => f
  | None => []
  end.

(** The label a node of the circle carries under each labelling. *)
Definition label_text (denominator_in_label tonality_not_count : bool)
    (i n : Z) : text :=
  if tonality_not_count then [Lit (nth (Z.to_nat i) pitch_name_list EmptyString)]
  else if denominator_in_label then [Int i; Lit "/"; Int n]
  else [Int i].

(** The line of element [i], with every field spelled out. *)
Definition node_line (ks : list Z) (n : Z) (la den ton : bool)
    (rs : string) (i : Z) : text :=
  node_string i (angle i n) rs (colour i ks) (label_position la i n)
    (label_text den ton i n).

(** A node line of a circle: its index and its angle. *)
Definition node_of (t : text) : option (Z * Q) :=
  match t with
  | Lit p :: Int i :: Lit q :: Float a :: _ =>
      if (p =? "\node (n")%string && (q =? ") at +(")%string
      then Some (i, a) else None
  | _ => None
  end.

(** A straight segment [\draw[solid] (nA) -- (nB);] between two nodes. *)
Definition segment_of (t : text) : option (Z * Z) :=
  match t with
  | [Lit p; Int a; Lit m; Int b; Lit s] =>
      if (p =? "\draw[solid] (n")%string && (m =? ") -- (n")%string
         && (s =? ");" ++ nl)%string
      then Some (a, b) else None
  | [Lit p; Int a; Lit s] =>
      if (p =? "\draw[solid] (n")%string && (s =? ") -- (n0);" ++ nl)%string
      then Some (a, 0) else None
  | _ => None
  end.

Definition segments (f : file) : list (Z * Z) := pick segment_of f.

Definition nodes (f : file) : list (Z * Q) := pick node_of f.

(** Each element of a list paired with the one after it. *)
Definition adjacent_pairs {X} (l : list X) : list (X * X) :=
  combine l (tl l).

Definition segment_line (p : Z * Z) : text :=
  segment_string (fst p) (snd p).

(** The four lines that open the picture and draw the circle. *)
Definition circle_lines (n : Z) (radius : Q) : list text :=
  [[Lit "\begin{tikzpicture}[scale={"; Scale n; Lit ("}]" ++ nl)];
   [Lit "\def \radius{"; Float radius; Lit ("}" ++ nl)];
   [Lit ("\node (origin) at (0,0) {};" ++ nl)];
   [Lit ("\draw (origin) circle (\radius);" ++ nl)]].

(** Everything written up to and including the nodes. *)
Definition up_to_nodes (ks : list Z) (n : Z) (radius : Q)
    (ton include_preamble : bool) : list text :=
  (if include_preamble then Cycles.preamble else [])
  ++ circle_lines n radius
  ++ map (node_line ks n true false ton "\radius") (range n).

Definition closing_lines (include_preamble : bool) : list text :=
  [Lit ("\end{tikzpicture}" ++ nl)]
  :: (if include_preamble then [[Lit ("\end{document}" ++ nl)]] else []).

Definition pair_eq_dec (p q : Z * Z) : {p = q} + {p <> q}.
Proof. decide equality; apply Z.eq_dec. Defined.

(** How many of the segments join [a] and [b], in either direction. *)
Definition joining (a b : Z) (segs : list (Z * Z)) : nat :=
  count_occ pair_eq_dec segs (a, b) + count_occ pair_eq_dec segs (b, a).

(** A curved arrow of the schema: direction of the bend, bend angle,
    annotation and the number of the upper node it points to. *)
Record arrow : Type :=
  { bend_direction : string; bend : Z; annotation : Z; target : Z }.

Definition arrow_of (t : text) : option arrow :=
  match t with
  | [Lit p; Lit d; Lit e; Int b; Lit q; Lit d'; Lit r; Int a; Lit u; Int j;
     Lit v] =>
      if (p =? "    \draw[->, bend ")%string && (e =? "=")%string
         && (q =? "] (bottom) to node[midway, ")%string && (d' =? d)%string
         && (r =? "] {")%string && (u =? "} (top")%string
         && (v =? ");" ++ nl)%string
      then Some {| bend_direction := d; bend := b; annotation := a;
                   target := j |}
      else None
  | _ => None
  end.

Definition arrows (f : file) : list arrow := pick arrow_of f.

(** An upper node of the schema: its number and its name. *)
Definition upper_of (t : text) : option (Z * string) :=
  match t with
  | [Lit p; Int j; Lit q; Int y; Lit r; Lit name; Lit v] =>
      if (p =? "    \node (top")%string && (q =? ") at (0, ")%string
         && (r =? ") [circle, draw=black, thick, minimum width=1.5em] {")%string
         && (v =? "};" ++ nl)%string && (y =? j)%Z
      then Some (j, name) else None
  | _ => None
  end.

Definition uppers (f : file) : list (Z * string) := pick upper_of f.

(** The arrow expected for the upper node at position [i]. *)
Definition arrow_at (ic : Z * circle) : arrow :=
  {| bend_direction := if Z.even (fst ic) then "left" else "right";
     bend := 20 * fst ic;
     annotation := tag (snd ic);
     target := fst ic + 1 |}.

(** The ints formatted into a line, in order. *)
Definition ints_of (t : text) : list Z :=
  pick (fun p => match p with Int z => Some z | _ => None end) t.

(** The pitch names written in a line, in order. *)
Definition names_of (t : text) : list string :=
  pick (fun p => match p with
                 | Lit s => if existsb (String.eqb s) pitch_name_list
                            then Some s else None
                 | _ => None
                 end) t.

(** The label that starts a row of the table unless it is open-ended. *)
Definition row_label (open_ended : bool) (s : string) : list text :=
  if open_ended then [] else [[Lit s]].

(** The lines of the table around its three rows. *)
Definition table_lines (include_preamble open_ended : bool) (octaves : Z)
    (value_row name_row class_row : text) : list text :=
  (if include_preamble then LinearTable.preamble else [])
  ++ [[Lit "\begin{tabular}{"; Lit (ccs octaves); Lit ("}" ++ nl)]]
  ++ row_label open_ended "\textbf{MIDI} "
  ++ [value_row ++ [Lit nl]; [Lit ("\\" ++ nl)]]
  ++ row_label open_ended "\textbf{Name} "
  ++ [name_row ++ [Lit nl]; [Lit ("\\" ++ nl)]]
  ++ row_label open_ended "\textbf{Class} "
  ++ [class_row ++ [Lit nl]; [Lit ("\end{tabular}" ++ nl)]].

(** A rectangle of the grid: its corners and the [k] of its label [1/k]. *)
Record rectangle : Type :=
  { x_left : Q; bottom : Z; x_right : Q; top : Z; denominator : Z }.

Definition is_line (s : string) (t : text) : bool :=
  match t with
  | [Lit s'] => (s' =? s)%string
  | _ => false
  end.

(** The rectangle six consecutive writes stand for. *)
Definition rectangle_of (corner1 corner2 node k close : text)
  : option rectangle :=
  match corner1, corner2, k with
  | [Lit p1; Float x0; Lit p2; Int y0; Lit p3],
    [Lit q1; Float x1; Lit q2; Int y1; Lit q3],
    [Int d] =>
      if (p1 =? "(")%string && (p2 =? ", ")%string && (p3 =? ")")%string
         && (q1 =? "rectangle (")%string && (q2 =? ", ")%string
         && (q3 =? ")")%string
         && is_line "node[midway] {1/" node && is_line ("};" ++ nl) close
      then Some {| x_left := x0; bottom := y0; x_right := x1; top := y1;
                   denominator := d |}
      else None
  | _, _, _ => None
  end.

(** The rows of rectangles of a grid, each closed by a [\\] line. *)
Fixpoint read_rows (f : file) (row : list rectangle)
  : list (list rectangle) :=
  match f with
  | [] => []
  | t :: rest =>
      if is_line ("\\" ++ nl) t then row :: read_rows rest []
      else if is_line "\filldraw[fill=blue!20, draw=black]" t then
        match rest with
        | c1 :: c2 :: nd :: k :: cl :: rest' =>
            match rectangle_of c1 c2 nd k cl with
            | Some r => read_rows rest' (row ++ [r])
            | None => read_rows rest row
            end
        | _ => read_rows rest row
        end
      else read_rows rest row
  end.

Definition rows (f : file) : list (list rectangle) := read_rows f [].

(** The six lines written for rectangle [i] of row [n]. *)
Definition rectangle_lines (length_unit n i : Z) : list text :=
  [[Lit "\filldraw[fill=blue!20, draw=black]"];
   [Lit "("; Float (quotient (length_unit * i) n); Lit ", "; Int n; Lit ")"];
   [Lit "rectangle ("; Float (quotient ((i + 1) * length_unit) n); Lit ", ";
    Int (n + 1); Lit ")"];
   [Lit "node[midway] {1/"];
   [Int n];
   [Lit ("};" ++ nl)]].

(** The lines of row [n]: its rectangles, then the line that ends it. *)
Definition row_lines (length_unit n : Z) : list text :=
  flat_map (rectangle_lines length_unit n) (range n)
  ++ [[Lit ("\\" ++ nl)]].


(** Rectangle [i] of row [n] as the generator places it. *)
Definition rectangle_at (length_unit n i : Z) : rectangle :=
  {| x_left := quotient (length_unit * i) n; bottom := n;
     x_right := quotient ((i + 1) * length_unit) n; top := n + 1;
     denominator := n |}.

(** ** Further readings *)

(** The highlighted indices passed to a cycle generator are acceptable:
    no list, or a list of indices of [range(n)]. *)
Definition highlights_valid (ks : option (list Z)) (n : Z) : Prop :=
  match ks with
  | None => True
  | Some l => forall k, In k l -> 0 <= k < n
  end.

(** The highlighted indices in effect: all of [range(n)] without a list. *)
Definition highlights (ks : option (list Z)) (n : Z) : list Z :=
  match ks with
  | None => range n
  | Some l => l
  end.

(** A node line in full: index, angle, the radius it is placed at and its
    fill colour. *)
Record node_view : Type :=
  { index : Z; at_angle : Q; radius_name : string; fill : string }.

Definition node_view_of (t : text) : option node_view :=
  match t with
  | Lit p :: Int i :: Lit q :: Float a :: Lit c :: Lit rs :: Lit f :: Lit col
    :: Lit l :: _ =>
      if (p =? "\node (n")%string && (q =? ") at +(")%string
         && (c =? ":")%string && (f =? ") [circle, draw, fill=")%string
         && (l =? ", label = ")%string
      then Some {| index := i; at_angle := a; radius_name := rs; fill := col |}
      else None
  | _ => None
  end.

Definition node_views (f : file) : list node_view := pick node_view_of f.

(** What a node line says of its label: the index of the node, the
    position of the label and the pieces of the label itself, which stand
    between [label = <position>:] and the closing bracket. *)
Record node_label : Type :=
  { labelled : Z; position : piece; shown : text }.

Definition node_label_of (t : text) : option node_label :=
  match t with
  | Lit p :: Int i :: Lit q :: Float a :: Lit c :: Lit rs :: Lit f :: Lit col
    :: Lit l :: pos :: Lit c' :: rest =>
      match rev rest with
      | Lit e2 :: Lit e1 :: lab =>
          if (p =? "\node (n")%string && (q =? ") at +(")%string
             && (c =? ":")%string && (f =? ") [circle, draw, fill=")%string
             && (l =? ", label = ")%string && (c' =? ":")%string
             && (e1 =? "]")%string && (e2 =? "{};" ++ nl)%string
          then Some {| labelled := i; position := pos; shown := rev lab |}
          else None
      | _ => None
      end
  | _ => None
  end.

Definition node_labels (f : file) : list node_label := pick node_label_of f.

(** The angle the description gives for element [i] of [n]:
    [(450 - 360 i / n) mod 360], in exact arithmetic. *)
Definition described_angle (i n : Z) : Q :=
  let x := (450 - 360 * (inject_Z i / inject_Z n))%Q in
  (x - 360 * inject_Z (Qfloor (x / 360)))%Q.

(** The piece [ & ] that stands between two cells of a row. *)
Definition is_separator (p : piece) : bool :=
  match p with
  | Lit s => (s =? " & ")%string
  | _ => false
  end.

(** The cells of a row of a table: the pieces between the separators. *)
Fixpoint cells (t : text) : list text :=
  match t with
  | [] => [[]]
  | p :: r =>
      if is_separator p then [] :: cells r
      else match cells r with
           | c :: cs => (p :: c) :: cs
           | [] => [[p]]
           end
  end.

(** The height of the top edge of the dashed box of a schema. *)
Definition box_top_of (t : text) : option Q :=
  match t with
  | [Lit p; Float y; Lit q] =>
      if (p =? "    \draw[rounded corners=5pt, dashed] (-0.5, -0.5) rectangle (0.5, ")%string
         && (q =? ");" ++ nl)%string
      then Some y else None
  | _ => None
  end.

(** The occurrences of a character in a string. *)
Fixpoint count_char (c : ascii) (s : string) : nat :=
  match s with
  | EmptyString => O
  | String c' s' => ((if Ascii.eqb c' c then 1 else 0) + count_char c s')%nat
  end.

(** The cells a row is joined from: one less than its separators. *)
Definition separators (t : text) : nat :=
  length (filter (fun p => match p with
                           | Lit s => (s =? " & ")%string
                           | _ => false
                           end) t).

(** The view of element [i] of a circle of [n] placed at radius [rs]. *)
Definition node_view_at (ks : list Z) (n : Z) (rs : string) (i : Z)
  : node_view :=
  {| index := i; at_angle := angle i n; radius_name := rs;
     fill := colour i ks |}.

(** The three lines that set a radius and draw its circle. *)
Definition ring_lines (def_radius draw_circle : string) (radius : Q)
  : list text :=
  [[Lit def_radius; Float radius; Lit ("}" ++ nl)];
   [Lit ("\node (origin) at (0,0) {};" ++ nl)];
   [Lit draw_circle]].

(** The lines [two_circles] writes. *)
Definition two_circles_lines (inner_k : list Z) (inner_n : Z)
    (inner_radius : Q) (outer_k : list Z) (outer_n : Z) (outer_radius : Q)
    (include_preamble : bool) : list text :=
  (if include_preamble then Cycles.preamble else [])
  ++ [[Lit ("\begin{tikzpicture}[scale=2]" ++ nl)]]
  ++ ring_lines "\def \innerradius{"
       ("\draw (origin) circle (\innerradius);" ++ nl) inner_radius
  ++ map (node_line inner_k inner_n true false false "\innerradius")
       (range inner_n)
  ++ ring_lines "\def \outerradius{"
       ("\draw (origin) circle (\outerradius);" ++ nl) outer_radius
  ++ map (node_line outer_k outer_n true false false "\outerradius")
       (range outer_n)
  ++ closing_lines include_preamble.

(** The lines of a grid whose divisions all give floats. *)
Definition grid_lines (n_divs length_unit : Z) (pre : bool) : list text :=
  (if pre then grid_preamble else [])
  ++ [[Lit ("\begin{tikzpicture}[scale=1, transform shape]" ++ nl)]]
  ++ flat_map (row_lines length_unit) (range n_divs)
  ++ [[Lit ("\end{tikzpicture}" ++ nl)]].

(** The characters of a whole artifact: those of its writes, one after
    the other. *)
Definition rendered (repr_float : Q -> string) (math_log2 : Z -> Q)
    (f : file) : string :=
  render repr_float math_log2 (concat f).

(** The string [s] holds [pat] somewhere. *)
Definition occurs (pat s : string) : Prop :=
  exists a b, s = (a ++ pat ++ b)%string.

(** The character [c] does not occur in [s]. *)
Fixpoint free (c : ascii) (s : string) : bool :=
  match s with
  | EmptyString => true
  | String d s' => negb (Ascii.eqb d c) && free c s'
  end.

(** [p] and [s] differ at a position that both have. *)
Fixpoint clash (p s : string) : bool :=
  match p, s with
  | String a p', String b s' => if Ascii.eqb a b then clash p' s' else true
  | _, _ => false
  end.

(** No occurrence of [pat] starts inside [s]: whatever follows [s], each
    of its non-empty suffixes differs from [pat] before [s] ends. *)
Fixpoint safe (pat s : string) : bool :=
  match s with
  | EmptyString => true
  | String c s' => clash pat s && safe pat s'
  end.

(** The writes of [m] only add lines, each made of pieces that satisfy
    [P], whether or not [m] ends with an exception. *)
Definition appends (P : piece -> Prop) {A} (m : io A) : Prop :=
  forall f, exists g, snd (m f) = f ++ g /\ Forall (Forall P) g.

(** The label position by element counts: element 0 above, the elements of
    the first half to the right, the element half way round below, the
    rest to the left. *)
Definition quadrant (i n : Z) : string :=
  if i =? 0 then "above"
  else if 2 * i <? n then "right"
  else if 2 * i =? n then "below"
  else "left".

End Reading.

Import Cycles LinearTable Schema Reading.

(** * Properties *)

(** ** Loops, ranges and indexing *)

Section Loops.
Context {A B : Type}.

Lemma for_each_write (l : list text) (f : file) :
  for_each l write f = (Ok tt, f ++ l).
Proof.
  revert f; induction l as [|t l IH]; intro f; simpl.
  - unfold ret. now rewrite app_nil_r.
  - unfold seq_io, write. rewrite IH. now rewrite <- app_assoc.
Qed.

(** A loop whose every iteration only appends writes. *)
Lemma for_each_appends (l : list A) (body : A -> io unit)
    (g : A -> list text) :
  (forall x f, In x l -> body x f = (Ok tt, f ++ g x)) ->
  forall f, for_each l body f = (Ok tt, f ++ flat_map g l).
Proof.
  induction l as [|x l IH]; intros Hb f; simpl.
  - unfold ret. now rewrite app_nil_r.
  - unfold seq_io. rewrite Hb by now left.
    rewrite IH by (intros; apply Hb; now right).
    now rewrite <- app_assoc.
Qed.

Lemma collect_ok (l : list A) (body : A -> res B) (g : A -> B) :
  (forall x, In x l -> body x = Ok (g x)) ->
  collect l body = Ok (map g l).
Proof.
  induction l as [|x l IH]; intro Hb; simpl; [reflexivity|].
  rewrite Hb by now left. simpl.
  rewrite IH by (intros; apply Hb; now right). reflexivity.
Qed.
End Loops.

Lemma flat_map_singleton {X Y} (h : X -> Y) (l : list X) :
  flat_map (fun x => [h x]) l = map h l.
Proof. induction l as [|x l IH]; simpl; [reflexivity | now rewrite IH]. Qed.

Lemma range2_length (a b : Z) : length (range2 a b) = Z.to_nat (b - a).
Proof. unfold range2. now rewrite length_map, length_seq. Qed.

Lemma range_length (n : Z) : length (range n) = Z.to_nat n.
Proof. unfold range. rewrite range2_length. f_equal. lia. Qed.

Lemma range2_nth_error (a b : Z) (k : nat) :
  (k < Z.to_nat (b - a))%nat ->
  nth_error (range2 a b) k = Some (a + Z.of_nat k)%Z.
Proof.
  intro Hk. unfold range2.
  rewrite nth_error_map, nth_error_seq.
  destruct (Nat.ltb_spec k (Z.to_nat (b - a))); [reflexivity | lia].
Qed.

Lemma range_nth_error (n i : Z) :
  (0 <= i < n)%Z -> nth_error (range n) (Z.to_nat i) = Some i.
Proof.
  intro Hi. unfold range. rewrite range2_nth_error by lia. f_equal. lia.
Qed.

Lemma in_range2 (a b x : Z) : In x (range2 a b) <-> (a <= x < b)%Z.
Proof.
  unfold range2. rewrite in_map_iff. split.
  - intros [k [<- Hk]]. apply in_seq in Hk. lia.
  - intro Hx. exists (Z.to_nat (x - a)). split; [lia|].
    apply in_seq. lia.
Qed.

Lemma in_range_iff (n x : Z) : In x (range n) <-> (0 <= x < n)%Z.
Proof. unfold range. apply in_range2. Qed.

Lemma in_range_true (k n : Z) : in_range k n = true <-> (0 <= k < n)%Z.
Proof. unfold in_range. rewrite andb_true_iff, Z.leb_le, Z.ltb_lt. tauto. Qed.

Lemma getitem_nth {X} (l : list X) (i : Z) (x : X) :
  (0 <= i)%Z -> nth_error l (Z.to_nat i) = Some x -> getitem l i = Ok x.
Proof.
  intros Hi Hx. unfold getitem.
  destruct (Z.ltb_spec i 0); [lia|].
  destruct (Z.ltb_spec i 0); [lia|]. now rewrite Hx.
Qed.

(** ** Floats: rounding to binary64 *)

Lemma pow2_Qpower (e : Z) : pow2 e == 2 ^ e.
Proof.
  unfold pow2. destruct (Z.leb_spec 0 e) as [H|H].
  - change (inject_Z (2 ^ e) == inject_Z 2 ^ e). apply Zpower_Qpower; lia.
  - replace e with (- (- e))%Z at 2 by lia.
    rewrite Qpower_opp. change 2 with (inject_Z 2). rewrite <- Zpower_Qpower by lia.
    assert (0 < 2 ^ (- e))%Z by (apply Z.pow_pos_nonneg; lia).
    destruct (2 ^ (- e))%Z eqn:E; try lia. simpl. reflexivity.
Qed.

Lemma pow2_pos (e : Z) : 0 < pow2 e.
Proof. rewrite pow2_Qpower. apply Qpower_0_lt. reflexivity. Qed.

Lemma pow2_add (a b : Z) : pow2 (a + b) == pow2 a * pow2 b.
Proof. rewrite !pow2_Qpower. apply Qpower_plus. discriminate. Qed.

Lemma pow2_le (a b : Z) : (a <= b)%Z -> pow2 a <= pow2 b.
Proof.
  intros. rewrite !pow2_Qpower. apply Qpower_le_compat_l; [lia | discriminate].
Qed.

Lemma pow2_lt (a b : Z) : (a < b)%Z -> pow2 a < pow2 b.
Proof.
  intros. rewrite !pow2_Qpower. apply Qpower_lt_compat_l; [lia | reflexivity].
Qed.

Lemma pow2_le_inv (a b : Z) : pow2 a <= pow2 b -> (a <= b)%Z.
Proof.
  rewrite !pow2_Qpower. intros. eapply Qpower_le_compat_l_inv; eauto. reflexivity.
Qed.

Lemma pow2_lt_inv (a b : Z) : pow2 a < pow2 b -> (a < b)%Z.
Proof.
  rewrite !pow2_Qpower. intros. eapply Qpower_lt_compat_l_inv; eauto. reflexivity.
Qed.

Lemma pow2_half (e : Z) : pow2 (e - 1) == pow2 e * (1 # 2).
Proof.
  replace e with ((e - 1) + 1)%Z at 2 by lia. rewrite pow2_add.
  change (pow2 1) with 2. ring.
Qed.

Lemma pow2_nonneg_inject (e : Z) : (0 <= e)%Z -> pow2 e = inject_Z (2 ^ e).
Proof. intro H. unfold pow2. destruct (Z.leb_spec 0 e); [reflexivity | lia]. Qed.

Lemma round_half_even_bounds (num den : Z) :
  (0 < den)%Z ->
  (- den <= 2 * (round_half_even num den * den - num) <= den)%Z.
Proof.
  intros Hd. unfold round_half_even.
  pose proof (Z.div_mod num den ltac:(lia)) as E.
  pose proof (Z.mod_pos_bound num den Hd) as B.
  destruct (Z.compare_spec (2 * (num mod den)) den) as [C|C|C].
  - destruct (Z.even (num / den)); nia.
  - nia.
  - nia.
Qed.

Lemma round_half_even_floor (num den : Z) :
  (num / den <= round_half_even num den <= num / den + 1)%Z.
Proof.
  unfold round_half_even.
  destruct (2 * (num mod den) ?= den)%Z; [destruct (Z.even _)| |]; lia.
Qed.

Lemma Qmake_as_div (a b : positive) :
  Z.pos a # b == inject_Z (Z.pos a) / inject_Z (Z.pos b).
Proof. rewrite Qmake_Qdiv. reflexivity. Qed.

Lemma inject_pos_gt_0 (b : positive) : 0 < inject_Z (Z.pos b).
Proof. unfold Qlt; simpl; lia. Qed.

(** [floor_log2 a b] is the exponent of the binade of [a / b]. *)
Lemma floor_log2_spec (a b : positive) :
  pow2 (floor_log2 a b) <= Z.pos a # b
  /\ Z.pos a # b < pow2 (floor_log2 a b + 1).
Proof.
  unfold floor_log2.
  pose proof (Z.log2_spec (Z.pos a) ltac:(lia)) as [A1 A2].
  pose proof (Z.log2_spec (Z.pos b) ltac:(lia)) as [B1 B2].
  pose proof (Z.log2_nonneg (Z.pos a)) as LA.
  pose proof (Z.log2_nonneg (Z.pos b)) as LB.
  set (la := Z.log2 (Z.pos a)) in *. set (lb := Z.log2 (Z.pos b)) in *.
  rewrite Z.pow_succ_r in A2, B2 by lia.
  assert (HA : inject_Z (2 ^ la) == pow2 la) by (now rewrite pow2_nonneg_inject).
  assert (HB : inject_Z (2 ^ lb) == pow2 lb) by (now rewrite pow2_nonneg_inject).
  pose proof (Qmake_as_div a b) as Ea.
  pose proof (inject_pos_gt_0 b) as Pb.
  pose proof (inject_pos_gt_0 a) as Pa.
  assert (A1' : pow2 la <= inject_Z (Z.pos a)) by (rewrite <- HA, <- Zle_Qle; lia).
  assert (A2' : inject_Z (Z.pos a) < 2 * pow2 la).
  { rewrite <- HA; change 2 with (inject_Z 2).
    rewrite <- inject_Z_mult, <- Zlt_Qlt; lia. }
  assert (B1' : pow2 lb <= inject_Z (Z.pos b)) by (rewrite <- HB, <- Zle_Qle; lia).
  assert (B2' : inject_Z (Z.pos b) < 2 * pow2 lb).
  { rewrite <- HB; change 2 with (inject_Z 2).
    rewrite <- inject_Z_mult, <- Zlt_Qlt; lia. }
  set (k := (la - lb)%Z).
  assert (Ek : pow2 la == pow2 k * pow2 lb).
  { rewrite <- pow2_add. now replace (k + lb)%Z with la by (unfold k; lia). }
  assert (Ek1 : pow2 (k + 1) == 2 * pow2 k).
  { rewrite pow2_add; change (pow2 1) with 2; ring. }
  assert (Ekm : pow2 k == 2 * pow2 (k - 1)) by (rewrite pow2_half; ring).
  pose proof (pow2_pos k) as Pk. pose proof (pow2_pos lb) as Plb.
  pose proof (pow2_pos (k - 1)) as Pk1.
  set (A := inject_Z (Z.pos a)) in *. set (B := inject_Z (Z.pos b)) in *.
  assert (T : (if 0 <=? k then Z.pos b * 2 ^ k <=? Z.pos a
               else Z.pos b <=? Z.pos a * 2 ^ (- k))%Z = true
              <-> pow2 k * B <= A).
  { unfold pow2 at 1. destruct (Z.leb_spec 0 k) as [H|H].
    - rewrite Z.leb_le. unfold A, B. rewrite <- inject_Z_mult, <- Zle_Qle. lia.
    - rewrite Z.leb_le.
      assert (0 < 2 ^ (- k))%Z by (apply Z.pow_pos_nonneg; lia).
      unfold A, B, Qle, Qmult; simpl.
      destruct (2 ^ (- k))%Z eqn:E; try lia. simpl. lia. }
  rewrite Ea.
  destruct (if (0 <=? k)%Z then _ else _) eqn:Tst.
  - assert (H : pow2 k * B <= A) by (apply T; reflexivity).
    split.
    + apply Qle_shift_div_l; assumption.
    + apply Qlt_shift_div_r; [assumption|]. rewrite Ek1. nra.
  - assert (H : ~ pow2 k * B <= A) by (intro X; apply T in X; congruence).
    apply Qnot_le_lt in H.
    replace (k - 1 + 1)%Z with k by lia.
    split.
    + apply Qle_shift_div_l; [assumption|]. nra.
    + apply Qlt_shift_div_r; assumption.
Qed.

Ltac push_inject H :=
  unfold Z.sub in H;
  repeat (rewrite inject_Z_mult in H || rewrite inject_Z_plus in H
          || rewrite inject_Z_opp in H).

Lemma Qabs_scaled (v h c : Q) :
  0 < c -> - (h * c) <= v * c <= h * c -> Qabs v <= h.
Proof.
  intros Hc [H1 H2]. apply Qabs_Qle_condition. split.
  - apply (Qmult_le_r _ _ c Hc).
    setoid_replace (- h * c) with (- (h * c)) by ring. exact H1.
  - apply (Qmult_le_r _ _ c Hc). exact H2.
Qed.

(** Rounding moves a value by at most half a unit of its last place. *)
Lemma round_pos_error (a b : positive) :
  Qabs (round_pos a b - (Z.pos a # b)) <= pow2 (ulp_exp a b - 1).
Proof.
  unfold round_pos. set (e := ulp_exp a b).
  rewrite Qred_correct, pow2_half.
  pose proof (Qmake_as_div a b) as Ea.
  pose proof (inject_pos_gt_0 b) as Pb.
  rewrite Ea.
  set (A := inject_Z (Z.pos a)) in *. set (B := inject_Z (Z.pos b)) in *.
  assert (EX : A / B * B == A) by (field; intro X; rewrite X in Pb; discriminate).
  set (X := A / B) in *. clearbody X.
  unfold pow2. destruct (Z.leb_spec 0 e) as [H|H].
  - assert (P : (0 < 2 ^ e)%Z) by (apply Z.pow_pos_nonneg; lia).
    pose proof (@round_half_even_bounds (Z.pos a) (Z.pos b * 2 ^ e) ltac:(lia))
      as [R1 R2].
    set (m := round_half_even _ _) in *. clearbody m.
    rewrite Zle_Qle in R1, R2. push_inject R1. push_inject R2.
    fold A B in R1, R2. change (inject_Z 2) with 2 in *.
    set (E := inject_Z (2 ^ e)) in *. set (M := inject_Z m) in *. clearbody E M.
    apply (@Qabs_scaled _ _ B Pb).
    setoid_replace ((M * E - X) * B) with (M * (B * E) - X * B) by ring.
    setoid_replace (E * (1 # 2) * B) with ((B * E) * (1 # 2)) by ring.
    rewrite EX. clear - R1 R2. set (BE := B * E) in *. set (T := M * BE) in *.
    clearbody BE T. clearbody A. split; lra.
  - assert (P : (0 < 2 ^ (- e))%Z) by (apply Z.pow_pos_nonneg; lia).
    pose proof (@round_half_even_bounds (Z.pos a * 2 ^ (- e)) (Z.pos b) ltac:(lia))
      as [R1 R2].
    set (m := round_half_even _ _) in *. clearbody m.
    rewrite Zle_Qle in R1, R2. push_inject R1. push_inject R2.
    fold A B in R1, R2. change (inject_Z 2) with 2 in *.
    assert (PP : 0 < inject_Z (2 ^ (- e))) by (rewrite Zlt_Qlt in P; exact P).
    assert (EI : 1 # Z.to_pos (2 ^ (- e)) == / inject_Z (2 ^ (- e))).
    { destruct (2 ^ (- e))%Z eqn:E; try lia. reflexivity. }
    rewrite EI.
    set (E := inject_Z (2 ^ (- e))) in *. set (M := inject_Z m) in *. clearbody E M.
    assert (NE : ~ E == 0) by (intro Z; rewrite Z in PP; discriminate).
    assert (PBE : 0 < B * E) by nra.
    apply (@Qabs_scaled _ _ (B * E) PBE).
    setoid_replace ((M * / E - X) * (B * E)) with (M * B - X * B * E)
      by (field; exact NE).
    setoid_replace (/ E * (1 # 2) * (B * E)) with (B * (1 # 2))
      by (field; exact NE).
    rewrite EX. clear - R1 R2. set (T := M * B) in *. set (U := A * E) in *.
    clearbody T U. clearbody B. split; lra.
Qed.

Lemma round64_comp (x y : Q) : x == y -> round64 x = round64 y.
Proof. intro E. unfold round64. now rewrite (Qred_complete _ _ E). Qed.

Lemma Qnum_pos_eq (x : Q) (a : positive) :
  Qnum (Qred x) = Z.pos a -> x == Z.pos a # Qden (Qred x).
Proof.
  intro E. rewrite <- (Qred_correct x) at 1.
  destruct (Qred x) as [p q]. simpl in *. now subst.
Qed.

Lemma Qnum_neg_eq (x : Q) (a : positive) :
  Qnum (Qred x) = Z.neg a -> x == - (Z.pos a # Qden (Qred x)).
Proof.
  intro E. rewrite <- (Qred_correct x) at 1.
  destruct (Qred x) as [p q]. simpl in *. now subst.
Qed.

Lemma Qnum_zero_eq (x : Q) : Qnum (Qred x) = 0%Z -> x == 0.
Proof.
  intro E. rewrite <- (Qred_correct x).
  destruct (Qred x) as [p q]. simpl in *. subst. reflexivity.
Qed.

Lemma ulp_exp_le (a b : positive) (k : Z) :
  (-1022 <= k)%Z -> Z.pos a # b <= pow2 k -> (ulp_exp a b <= k - 52)%Z.
Proof.
  intros Hk Hx. destruct (floor_log2_spec a b) as [L _].
  assert (floor_log2 a b <= k)%Z by (apply pow2_le_inv; eapply Qle_trans; eauto).
  unfold ulp_exp. lia.
Qed.

(** Rounding moves a value of magnitude at most [2^k] by at most
    [2^(k - 53)]. *)
Lemma round64_error (x : Q) (k : Z) :
  (-1022 <= k)%Z -> Qabs x <= pow2 k -> Qabs (round64 x - x) <= pow2 (k - 53).
Proof.
  intros Hk Hx. unfold round64.
  destruct (Qnum (Qred x)) as [|a|a] eqn:E.
  - rewrite (@Qnum_zero_eq x E). apply Qlt_le_weak, pow2_pos.
  - assert (Ex := @Qnum_pos_eq x a E). set (b := Qden (Qred x)) in *.
    rewrite Ex in Hx |- *. rewrite Qabs_pos in Hx by (unfold Qle; simpl; lia).
    eapply Qle_trans; [apply round_pos_error|].
    apply pow2_le. pose proof (@ulp_exp_le a b k Hk Hx). lia.
  - assert (Ex := @Qnum_neg_eq x a E). set (b := Qden (Qred x)) in *.
    rewrite Ex in Hx |- *.
    rewrite Qabs_opp, Qabs_pos in Hx by (unfold Qle; simpl; lia).
    setoid_replace (- round_pos a b - - (Z.pos a # b))
      with (- (round_pos a b - (Z.pos a # b))) by ring.
    rewrite Qabs_opp.
    eapply Qle_trans; [apply round_pos_error|].
    apply pow2_le. pose proof (@ulp_exp_le a b k Hk Hx). lia.
Qed.

Lemma round_pos_nonneg (a b : positive) : 0 <= round_pos a b.
Proof.
  unfold round_pos. rewrite Qred_correct.
  set (e := ulp_exp a b).
  apply Qmult_le_0_compat; [|apply Qlt_le_weak, pow2_pos].
  change 0 with (inject_Z 0). rewrite <- Zle_Qle.
  destruct (Z.leb_spec 0 e).
  - assert (0 < 2 ^ e)%Z by (apply Z.pow_pos_nonneg; lia).
    pose proof (round_half_even_floor (Z.pos a) (Z.pos b * 2 ^ e)) as F.
    pose proof (Z.div_pos (Z.pos a) (Z.pos b * 2 ^ e) ltac:(lia) ltac:(lia)). lia.
  - assert (0 < 2 ^ (- e))%Z by (apply Z.pow_pos_nonneg; lia).
    pose proof (round_half_even_floor (Z.pos a * 2 ^ (- e)) (Z.pos b)) as F.
    pose proof (Z.div_pos (Z.pos a * 2 ^ (- e)) (Z.pos b) ltac:(lia) ltac:(lia)).
    lia.
Qed.

Lemma round64_nonneg (x : Q) : 0 <= x -> 0 <= round64 x.
Proof.
  intro Hx. unfold round64.
  destruct (Qnum (Qred x)) as [|a|a] eqn:E.
  - apply Qle_refl.
  - apply round_pos_nonneg.
  - exfalso. rewrite (@Qnum_neg_eq x a E) in Hx. unfold Qle in Hx. simpl in Hx. lia.
Qed.

(** A value of at least [2^k] is rounded to at least [2^k], above the
    subnormal numbers. *)
Lemma round_pos_ge_pow2 (a b : positive) (k : Z) :
  (-1022 <= k)%Z -> pow2 k <= Z.pos a # b -> pow2 k <= round_pos a b.
Proof.
  intros Hk Hx. destruct (floor_log2_spec a b) as [L U].
  assert (Hfl : (k <= floor_log2 a b)%Z).
  { assert (k < floor_log2 a b + 1)%Z; [|lia].
    apply pow2_lt_inv. eapply Qle_lt_trans; eauto. }
  unfold round_pos, ulp_exp. rewrite Qred_correct.
  set (fl := floor_log2 a b) in *.
  replace (Z.max (fl - 52) (-1074)) with (fl - 52)%Z by lia.
  set (e := (fl - 52)%Z).
  apply Qle_trans with (pow2 fl); [apply pow2_le; exact Hfl|].
  replace fl with (52 + e)%Z at 1 by (unfold e; lia).
  rewrite pow2_add.
  apply Qmult_le_compat_r; [|apply Qlt_le_weak, pow2_pos].
  rewrite pow2_nonneg_inject by lia. rewrite <- Zle_Qle.
  pose proof (Qmake_as_div a b) as Ea.
  pose proof (inject_pos_gt_0 b) as Pb.
  assert (LB : pow2 fl * inject_Z (Z.pos b) <= inject_Z (Z.pos a)).
  { rewrite Ea in L.
    apply (Qmult_le_compat_r _ _ (inject_Z (Z.pos b))) in L;
      [|apply Qlt_le_weak, Pb].
    setoid_replace (inject_Z (Z.pos a) / inject_Z (Z.pos b) * inject_Z (Z.pos b))
      with (inject_Z (Z.pos a)) in L
      by (field; intro X; rewrite X in Pb; discriminate).
    exact L. }
  destruct (Z.leb_spec 0 e) as [He|He].
  - assert (P : (0 < 2 ^ e)%Z) by (apply Z.pow_pos_nonneg; lia).
    pose proof (round_half_even_floor (Z.pos a) (Z.pos b * 2 ^ e)) as F.
    assert (2 ^ 52 <= Z.pos a / (Z.pos b * 2 ^ e))%Z; [|lia].
    apply Z.div_le_lower_bound; [lia|].
    rewrite (@pow2_nonneg_inject fl) in LB by (unfold e in He; lia).
    rewrite <- inject_Z_mult, <- Zle_Qle in LB.
    replace fl with (52 + e)%Z in LB by (unfold e; lia).
    rewrite Z.pow_add_r in LB by lia. lia.
  - assert (P : (0 < 2 ^ (- e))%Z) by (apply Z.pow_pos_nonneg; lia).
    pose proof (round_half_even_floor (Z.pos a * 2 ^ (- e)) (Z.pos b)) as F.
    assert (2 ^ 52 <= Z.pos a * 2 ^ (- e) / Z.pos b)%Z; [|lia].
    apply Z.div_le_lower_bound; [lia|].
    assert (LB' : pow2 52 * inject_Z (Z.pos b) <= inject_Z (Z.pos a) * pow2 (- e)).
    { setoid_replace (pow2 52) with (pow2 fl * pow2 (- e))
        by (rewrite <- pow2_add;
            now replace (fl + - e)%Z with 52%Z by (unfold e; lia)).
      setoid_replace (pow2 fl * pow2 (- e) * inject_Z (Z.pos b))
        with (pow2 fl * inject_Z (Z.pos b) * pow2 (- e)) by ring.
      apply Qmult_le_compat_r; [exact LB | apply Qlt_le_weak, pow2_pos]. }
    rewrite !pow2_nonneg_inject in LB' by lia.
    rewrite <- !inject_Z_mult, <- Zle_Qle in LB'. lia.
Qed.

Lemma round64_ge_pow2 (x : Q) (k : Z) :
  (-1022 <= k)%Z -> pow2 k <= x -> pow2 k <= round64 x.
Proof.
  intros Hk Hx. unfold round64.
  pose proof (pow2_pos k) as P.
  destruct (Qnum (Qred x)) as [|a|a] eqn:E.
  - rewrite (@Qnum_zero_eq x E) in Hx. exfalso. lra.
  - apply round_pos_ge_pow2; [exact Hk|]. now rewrite <- (@Qnum_pos_eq x a E).
  - exfalso. rewrite (@Qnum_neg_eq x a E) in Hx.
    assert (0 < Z.pos a # Qden (Qred x)) by (unfold Qlt; simpl; lia). lra.
Qed.

(** Rounding a value of magnitude at most [2^k] stays below [2^(k+1)]. *)
Lemma round64_bound (x : Q) (k : Z) :
  (-1022 <= k)%Z -> Qabs x <= pow2 k -> Qabs (round64 x) < pow2 (k + 1).
Proof.
  intros Hk Hx. pose proof (@round64_error x k Hk Hx) as He.
  assert (Hs : pow2 (k - 53) < pow2 k) by (apply pow2_lt; lia).
  assert (E1 : pow2 (k + 1) == 2 * pow2 k).
  { rewrite pow2_add; change (pow2 1) with 2; ring. }
  rewrite E1.
  setoid_replace (round64 x) with ((round64 x - x) + x) at 1 by ring.
  eapply Qle_lt_trans; [apply Qabs_triangle|]. lra.
Qed.

(** ** Angles of the nodes *)

(** On a non-negative float and a positive modulus, [%] is exact. *)
Lemma fmod_nonneg (x m : Q) :
  0 <= x -> 0 < m ->
  fmod x m == x - m * inject_Z (Qfloor (x / m))
  /\ 0 <= fmod x m /\ fmod x m < m.
Proof.
  intros Hx Hm. unfold fmod. cbv zeta.
  assert (Hne : ~ m == 0) by (intro E; rewrite E in Hm; discriminate).
  assert (Ht : 0 <= x / m) by (apply Qle_shift_div_l; [exact Hm | lra]).
  assert (Hb : Qle_bool 0 (x / m) = true) by (now apply Qle_bool_iff).
  rewrite Hb.
  pose proof (Qfloor_le (x / m)) as Hlo.
  pose proof (Qlt_floor (x / m)) as Hhi.
  rewrite inject_Z_plus in Hhi. change (inject_Z 1) with 1 in Hhi.
  set (k := inject_Z (Qfloor (x / m))) in *.
  assert (Exm : x == (x / m) * m) by (field; exact Hne).
  assert (H1 : k * m <= (x / m) * m).
  { apply Qmult_le_compat_r; [exact Hlo | now apply Qlt_le_weak]. }
  assert (H2 : (x / m) * m < (k + 1) * m) by (apply Qmult_lt_compat_r; assumption).
  rewrite <- Exm in H1, H2. clearbody k.
  assert (H3 : (k + 1) * m == m * k + m) by ring.
  rewrite H3 in H2. rewrite (Qmult_comm k m) in H1.
  set (km := m * k) in *. clearbody km.
  clear - Hm H1 H2.
  destruct (Qeq_bool (x - km) 0) eqn:E0.
  - apply Qeq_bool_eq in E0. repeat split; lra.
  - assert (Hr : Qle_bool 0 (x - km) = true) by (apply Qle_bool_iff; lra).
    assert (Hmb : Qle_bool 0 m = true) by (apply Qle_bool_iff; lra).
    rewrite Hr, Hmb. cbn [Bool.eqb]. repeat split; lra.
Qed.

Lemma fraction_bounds (i n : Z) :
  (0 <= i < n)%Z -> 0 <= inject_Z i / inject_Z n /\ inject_Z i / inject_Z n < 1.
Proof.
  intro H.
  assert (Hn : 0 < inject_Z n) by (change 0 with (inject_Z 0); rewrite <- Zlt_Qlt; lia).
  assert (Hi : 0 <= inject_Z i) by (change 0 with (inject_Z 0); rewrite <- Zle_Qle; lia).
  assert (Hin : inject_Z i < inject_Z n) by (rewrite <- Zlt_Qlt; lia).
  split.
  - apply Qle_shift_div_l; [exact Hn | lra].
  - apply Qlt_shift_div_r; [exact Hn | lra].
Qed.

(** The float [i / n] of an element of the circle: within [2^-53] of the
    fraction. *)
Lemma quotient_error (i n : Z) :
  (0 <= i < n)%Z ->
  0 <= quotient i n
  /\ Qabs (quotient i n - inject_Z i / inject_Z n) <= pow2 (-53).
Proof.
  intro H. destruct (fraction_bounds H) as [Hlo Hhi]. unfold quotient. split.
  - now apply round64_nonneg.
  - apply (@round64_error _ 0); [lia|].
    rewrite Qabs_pos by exact Hlo. change (pow2 0) with 1. lra.
Qed.

Lemma not_overflows (x : Q) : Qabs x < pow2 1024 -> overflows x = false.
Proof.
  intro H. unfold overflows. destruct (Qle_bool (pow2 1024) (Qabs x)) eqn:E.
  - apply Qle_bool_iff in E. exfalso. lra.
  - reflexivity.
Qed.

(** A quotient of magnitude at most [2^1023] is a float. *)
Lemma fdiv_ok (a b : Z) :
  b <> 0%Z -> Qabs (inject_Z a / inject_Z b) <= pow2 1023 ->
  fdiv a b = Ok (quotient a b).
Proof.
  intros Hb Hq. unfold fdiv.
  destruct (Z.eqb_spec b 0); [contradiction|].
  rewrite not_overflows; [reflexivity|].
  unfold quotient. apply (@round64_bound _ 1023); [lia | exact Hq].
Qed.

(** Inside the loop over [range(n)], [i / n] never raises. *)
Lemma fdiv_in_range (i n : Z) :
  (0 <= i < n)%Z -> fdiv i n = Ok (quotient i n).
Proof.
  intro H. destruct (fraction_bounds H) as [Hlo Hhi].
  apply fdiv_ok; [lia|].
  rewrite Qabs_pos by exact Hlo.
  apply Qle_trans with (pow2 0); [change (pow2 0) with 1; lra | apply pow2_le; lia].
Qed.

Lemma angle_top (n : Z) : angle 0 n = 90.
Proof.
  unfold angle, quotient.
  assert (E : inject_Z 0 / inject_Z n == 0) by (unfold Qdiv; apply Qmult_0_l).
  rewrite (round64_comp E). reflexivity.
Qed.

(** The angle of an element: a float in [[0, 360)], within [2^-42] of
    [450 - 360 * i / n] less a whole number of turns. *)
Lemma angle_in_range (i n : Z) :
  (0 <= i < n)%Z ->
  0 <= angle i n /\ angle i n < 360
  /\ exists k : Z,
       (k = 0 \/ k = 1)%Z
       /\ Qabs (angle i n
                - (450 - 360 * (inject_Z i / inject_Z n) - 360 * inject_Z k))
          <= pow2 (-42).
Proof.
  intro H. destruct (fraction_bounds H) as [Hlo Hhi].
  destruct (quotient_error H) as [Hq0 Hqe].
  unfold angle, angle_of, fmul, fsub.
  set (x := inject_Z i / inject_Z n) in *.
  set (q := quotient i n) in *. clearbody q x.
  apply Qabs_Qle_condition in Hqe.
  change (pow2 (-53)) with (1 # 9007199254740992) in Hqe.
  assert (Hy : Qabs (q * 360) <= pow2 9).
  { rewrite Qabs_pos by lra. change (pow2 9) with 512. lra. }
  pose proof (@round64_error _ 9 ltac:(lia) Hy) as Hpe.
  assert (Hp0 : 0 <= round64 (q * 360)) by (apply round64_nonneg; lra).
  set (p := round64 (q * 360)) in *. clearbody p.
  apply Qabs_Qle_condition in Hpe.
  change (pow2 (9 - 53)) with (1 # 17592186044416) in Hpe.
  change (inject_Z (360 + 90)) with 450.
  assert (Hz : Qabs (450 - p) <= pow2 9).
  { rewrite Qabs_pos by lra. change (pow2 9) with 512. lra. }
  pose proof (@round64_error _ 9 ltac:(lia) Hz) as Hde.
  assert (Hd0 : 0 <= round64 (450 - p)) by (apply round64_nonneg; lra).
  set (d := round64 (450 - p)) in *. clearbody d.
  apply Qabs_Qle_condition in Hde.
  change (pow2 (9 - 53)) with (1 # 17592186044416) in Hde.
  destruct (@fmod_nonneg d 360 Hd0 ltac:(reflexivity)) as (Ef & Hf0 & Hf1).
  split; [exact Hf0|]. split; [exact Hf1|].
  exists (Qfloor (d / 360)). split.
  - assert (Hk0 : (0 <= Qfloor (d / 360))%Z).
    { rewrite <- (Qfloor_Z 0). apply Qfloor_resp_le.
      apply Qle_shift_div_l; [reflexivity | change (inject_Z 0) with 0; lra]. }
    assert (Hk1 : (Qfloor (d / 360) <= 1)%Z).
    { assert (Hlt : (Qfloor (d / 360) < 2)%Z); [|lia].
      rewrite Zlt_Qlt. eapply Qle_lt_trans; [apply Qfloor_le|].
      apply Qlt_shift_div_r; [reflexivity | change (inject_Z 2) with 2; lra]. }
    lia.
  - rewrite Ef. apply Qabs_Qle_condition.
    change (pow2 (-42)) with (1 # 4398046511104).
    set (k := inject_Z (Qfloor (d / 360))). clearbody k.
    split; lra.
Qed.


(** ** The node lines *)

Lemma label_ok (den ton : bool) (i n : Z) :
  (ton = true -> (0 <= i < 12)%Z) ->
  label den ton i n = Ok (label_text den ton i n).
Proof.
  intro Hi. unfold label, label_text. destruct ton; [|now destruct den].
  specialize (Hi eq_refl).
  assert (Hget : getitem Utils.pitch_name_list i
                 = Ok (nth (Z.to_nat i) Utils.pitch_name_list EmptyString)).
  { apply getitem_nth; [lia|]. apply nth_error_nth'. simpl. lia. }
  now rewrite Hget.
Qed.

Lemma node_strings_ok (ks : list Z) (n : Z) (la den ton : bool) (rs : string) :
  (ton = true -> n = 12%Z) ->
  node_strings ks n la den ton rs = Ok (map (node_line ks n la den ton rs) (range n)).
Proof.
  intro Hn. unfold node_strings.
  assert (Hg : ton && negb (n =? 12)%Z = false).
  { destruct ton; [|reflexivity]. rewrite (Hn eq_refl). reflexivity. }
  rewrite Hg. apply collect_ok. intros i Hi.
  apply in_range_iff in Hi.
  rewrite (fdiv_in_range Hi). cbn [bind].
  rewrite label_ok; [reflexivity|].
  intro Ht. specialize (Hn Ht). lia.
Qed.

Lemma node_strings_invalid (ks : list Z) (n : Z) (la den : bool) (rs : string) :
  n <> 12%Z ->
  node_strings ks n la den true rs = Raise (ValueError (label_mode_message n)).
Proof.
  intro Hn. unfold node_strings.
  destruct (Z.eqb_spec n 12); [contradiction | reflexivity].
Qed.

Lemma node_of_node_line (ks : list Z) (n : Z) (la den ton : bool)
    (rs : string) (i : Z) :
  node_of (node_line ks n la den ton rs i) = Some (i, angle i n).
Proof. reflexivity. Qed.

Lemma pick_map_some {X Y W} (f : X -> option Y) (g : W -> X) (h : W -> Y)
    (l : list W) :
  (forall w, f (g w) = Some (h w)) -> pick f (map g l) = map h l.
Proof.
  intro H. induction l as [|w l IH]; simpl; [reflexivity|].
  now rewrite H, IH.
Qed.

Lemma pick_app {X Y} (f : X -> option Y) (l1 l2 : list X) :
  pick f (l1 ++ l2) = pick f l1 ++ pick f l2.
Proof.
  induction l1 as [|x l1 IH]; simpl; [reflexivity|].
  destruct (f x); simpl; now rewrite IH.
Qed.

Lemma pick_none {X Y} (f : X -> option Y) (l : list X) :
  (forall x, In x l -> f x = None) -> pick f l = [].
Proof.
  induction l as [|x l IH]; intro H; simpl; [reflexivity|].
  rewrite H by now left. apply IH. intros; apply H; now right.
Qed.

(** ** The segments between highlighted nodes *)

Lemma nth_error_last {X} (l : list X) (d : X) :
  l <> [] -> nth_error l (length l - 1) = Some (last l d).
Proof.
  induction l as [|x l IH]; intro H; [contradiction|].
  destruct l as [|y l]; [reflexivity|].
  replace (length (x :: y :: l) - 1)%nat with (S (length (y :: l) - 1))
    by (simpl; lia).
  change (nth_error (y :: l) (length (y :: l) - 1) = Some (last (y :: l) d)).
  apply IH. discriminate.
Qed.

Lemma getitem_last (l : list Z) :
  l <> [] -> getitem l (-1) = Ok (last l 0%Z).
Proof.
  intro H. unfold getitem, len.
  assert (Hlen : (0 < length l)%nat) by (destruct l; [contradiction | simpl; lia]).
  change (-1 <? 0)%Z with true. cbv iota.
  destruct (Z.ltb_spec (-1 + Z.of_nat (length l)) 0); [lia|].
  replace (Z.to_nat (-1 + Z.of_nat (length l))) with (length l - 1)%nat by lia.
  now rewrite (nth_error_last 0%Z H).
Qed.

Lemma adjacent_by_index (l : list Z) :
  map (fun k => (nth k l 0%Z, nth (S k) l 0%Z)) (seq 0 (length l - 1))
  = adjacent_pairs l.
Proof.
  unfold adjacent_pairs.
  induction l as [|x l IH]; [reflexivity|].
  destruct l as [|y l]; [reflexivity|].
  replace (length (x :: y :: l) - 1)%nat with (S (length (y :: l) - 1))
    by (simpl; lia).
  rewrite <- cons_seq, <- seq_shift, map_cons, map_map.
  change (combine (x :: y :: l) (tl (x :: y :: l)))
    with ((x, y) :: combine (y :: l) (tl (y :: l))).
  rewrite <- IH. reflexivity.
Qed.

Lemma range_as_seq (n : Z) : range n = map Z.of_nat (seq 0 (Z.to_nat n)).
Proof.
  unfold range, range2. rewrite Z.sub_0_r. apply map_ext. intro; lia.
Qed.

Lemma draw_adjacent_run (ks : list Z) (f : file) :
  ks <> [] ->
  draw_adjacent ks f
  = (Ok tt, f ++ map segment_line (adjacent_pairs ks)
              ++ [last_segment_string (last ks 0%Z)]).
Proof.
  intro Hne. unfold draw_adjacent. unfold seq_io at 1.
  rewrite (for_each_appends (range (len ks - 1)) _
             (fun i => [segment_string (nth (Z.to_nat i) ks 0%Z)
                                       (nth (S (Z.to_nat i)) ks 0%Z)])).
  - unfold seq_io, lift, write. rewrite (getitem_last Hne).
    rewrite <- app_assoc, flat_map_singleton.
    rewrite <- adjacent_by_index, range_as_seq.
    unfold len. replace (Z.to_nat (Z.of_nat (length ks) - 1)) with (length ks - 1)%nat by lia.
    rewrite !map_map. do 3 f_equal.
    apply map_ext. intro k. unfold segment_line. simpl. now rewrite Nat2Z.id.
  - intros i g Hi. apply in_range_iff in Hi. unfold len in Hi.
    unfold seq_io, lift, write.
    rewrite (getitem_nth ks (x := nth (Z.to_nat i) ks 0%Z)); [|lia|apply nth_error_nth'; lia].
    rewrite (getitem_nth ks (x := nth (S (Z.to_nat i)) ks 0%Z));
      [reflexivity|lia|].
    replace (Z.to_nat (i + 1)) with (S (Z.to_nat i)) by lia.
    apply nth_error_nth'. lia.
Qed.

Lemma draw_all_pairs_run (ks : list Z) (f : file) :
  draw_all_pairs ks f = (Ok tt, f ++ map segment_line (combinations2 ks)).
Proof.
  unfold draw_all_pairs.
  rewrite (for_each_appends (combinations2 ks) _ (fun p => [segment_line p])).
  - now rewrite flat_map_singleton.
  - intros p g _. reflexivity.
Qed.

(** ** Running the single-cycle generator *)

Lemma write_run (t : text) (f : file) : write t f = (Ok tt, f ++ [t]).
Proof. reflexivity. Qed.

Lemma when_writes (b : bool) (l : list text) (f : file) :
  when b (for_each l write) f = (Ok tt, f ++ (if b then l else [])).
Proof.
  destruct b; simpl; [apply for_each_write | unfold ret; now rewrite app_nil_r].
Qed.

Ltac io_step := unfold seq_io at 1; cbv beta.
Ltac io_write := io_step; rewrite write_run; cbv beta iota.

(** The writes after the nodes, as far as the call gets. *)
Lemma lines_run (ks : list Z) (lines adj : bool) (f : file) :
  when lines (if adj then draw_adjacent ks else draw_all_pairs ks) f
  = if lines then
      if adj then
        match ks with
        | [] => (Raise IndexError, f)
        | _ => (Ok tt, f ++ map segment_line (adjacent_pairs ks)
                         ++ [last_segment_string (last ks 0%Z)])
        end
      else (Ok tt, f ++ map segment_line (combinations2 ks))
    else (Ok tt, f).
Proof.
  destruct lines; [|reflexivity]. destruct adj; simpl.
  - destruct ks as [|k ks]; [reflexivity|].
    apply draw_adjacent_run. discriminate.
  - apply draw_all_pairs_run.
Qed.

Lemma closing_run (pre : bool) (f : file) :
  seq_io (write [Lit ("\end{tikzpicture}" ++ nl)])
    (fun _ => when pre (write [Lit ("\end{document}" ++ nl)])) f
  = (Ok tt, f ++ closing_lines pre).
Proof.
  io_write. unfold closing_lines. destruct pre; simpl.
  - rewrite write_run. now rewrite <- app_assoc.
  - reflexivity.
Qed.

Lemma single_cycle_body_run (ks : list Z) (n : Z) (radius : Q)
    (lines adj ton pre : bool) :
  (0 < n)%Z -> (ton = true -> n = 12%Z) ->
  single_cycle_body ks n radius lines adj ton pre []
  = let head := up_to_nodes ks n radius ton pre in
    if lines then
      if adj then
        match ks with
        | [] => (Raise IndexError, head)
        | _ => (Ok tt, head ++ map segment_line (adjacent_pairs ks)
                            ++ [last_segment_string (last ks 0%Z)]
                            ++ closing_lines pre)
        end
      else (Ok tt, head ++ map segment_line (combinations2 ks)
                        ++ closing_lines pre)
    else (Ok tt, head ++ closing_lines pre).
Proof.
  intros Hn Hton. unfold single_cycle_body.
  io_step. rewrite when_writes. cbv beta iota.
  io_step. unfold int_log2_minus_1.
  destruct (Z.ltb_spec 0 n) as [_|]; [|lia]. unfold lift at 1. cbv beta iota.
  do 4 io_write.
  io_step. rewrite (node_strings_ok ks true false "\radius" Hton).
  unfold lift at 1. cbv beta iota.
  io_step. rewrite for_each_write. cbv beta iota.
  io_step. rewrite lines_run.
  unfold up_to_nodes, circle_lines. cbv zeta.
  destruct lines; [destruct adj; [destruct ks as [|k ks]|]|]; cbv beta iota;
    rewrite ?closing_run; rewrite <- ?app_assoc; reflexivity.
Qed.

Lemma check_highlighted_ok (ks : list Z) (n : Z) :
  check_highlighted ks n = Ok tt <-> (forall k, In k ks -> (0 <= k < n)%Z).
Proof.
  induction ks as [|k ks IH]; simpl.
  - split; [intros _ k [] | reflexivity].
  - destruct (in_range k n) eqn:E.
    + apply in_range_true in E. rewrite IH. split.
      * intros H y [<-|Hy]; [exact E | now apply H].
      * intros H y Hy. apply H. now right.
    + split; [discriminate|]. intro H.
      assert (Hk : in_range k n = true) by (apply in_range_true, H; now left).
      congruence.
Qed.

(** The check stops at the first index outside [range(n)] and names it. *)
Lemma check_highlighted_raise (ks : list Z) (n : Z) (e : exn) :
  check_highlighted ks n = Raise e ->
  exists good k rest,
    ks = good ++ k :: rest
    /\ (forall x, In x good -> (0 <= x < n)%Z)
    /\ ~ (0 <= k < n)%Z
    /\ e = ValueError (highlight_message k n).
Proof.
  induction ks as [|k ks IH]; simpl; [discriminate|].
  destruct (in_range k n) eqn:E.
  - intro H. destruct (IH H) as (good & k' & rest & -> & Hg & Hk & ->).
    exists (k :: good), k', rest.
    split; [reflexivity | split; [|split; [exact Hk | reflexivity]]].
    intros x [<-|Hx]; [now apply in_range_true | now apply Hg].
  - intro H. injection H as <-.
    exists [], k, ks.
    split; [reflexivity | split; [intros x [] | split; [|reflexivity]]].
    intro Hk. apply in_range_true in Hk. congruence.
Qed.

Lemma check_highlighted_total (ks : list Z) (n : Z) :
  check_highlighted ks n = Ok tt
  \/ exists k, In k ks /\ ~ (0 <= k < n)%Z
               /\ check_highlighted ks n = Raise (ValueError (highlight_message k n)).
Proof.
  destruct (check_highlighted ks n) as [[]|e] eqn:E; [now left | right].
  destruct (check_highlighted_raise _ _ E) as (good & k & rest & -> & _ & Hk & ->).
  exists k. split; [|split; [exact Hk | reflexivity]].
  apply in_or_app. right. now left.
Qed.

Lemma single_cycle_example_checked (ks : list Z) (n : Z) (radius : Q)
    (lines adj ton pre : bool) :
  (forall k, In k ks -> (0 <= k < n)%Z) ->
  single_cycle_example (Some ks) n radius lines adj ton pre
  = with_open (single_cycle_body ks n radius lines adj ton pre).
Proof.
  intro H. unfold single_cycle_example, resolve_highlighted.
  apply check_highlighted_ok in H. now rewrite H.
Qed.

Lemma single_cycle_example_rejected (ks : list Z) (n k : Z) (radius : Q)
    (lines adj ton pre : bool) :
  check_highlighted ks n = Raise (ValueError (highlight_message k n)) ->
  single_cycle_example (Some ks) n radius lines adj ton pre
  = (Raise (ValueError (highlight_message k n)), None).
Proof.
  intro H. unfold single_cycle_example, resolve_highlighted. now rewrite H.
Qed.

(** A non-positive [n] stops the call at [math.log2]. *)
Lemma single_cycle_body_domain (ks : list Z) (n : Z) (radius : Q)
    (lines adj ton pre : bool) :
  (n <= 0)%Z ->
  single_cycle_body ks n radius lines adj ton pre []
  = (Raise (ValueError [Lit "math domain error"%string]),
     if pre then Cycles.preamble else []).
Proof.
  intro Hn. unfold single_cycle_body.
  io_step. rewrite when_writes. cbv beta iota.
  io_step. unfold int_log2_minus_1.
  destruct (Z.ltb_spec 0 n); [lia | reflexivity].
Qed.

(** Pitch-class labels on a circle of another length: the error comes
    after the circle has been written. *)
Lemma single_cycle_body_label_error (ks : list Z) (n : Z) (radius : Q)
    (lines adj pre : bool) :
  (0 < n)%Z -> n <> 12%Z ->
  single_cycle_body ks n radius lines adj true pre []
  = (Raise (ValueError (label_mode_message n)),
     (if pre then Cycles.preamble else []) ++ circle_lines n radius).
Proof.
  intros Hn H12. unfold single_cycle_body.
  io_step. rewrite when_writes. cbv beta iota.
  io_step. unfold int_log2_minus_1.
  destruct (Z.ltb_spec 0 n) as [_|]; [|lia]. unfold lift at 1. cbv beta iota.
  do 4 io_write.
  io_step. rewrite (node_strings_invalid ks true false "\radius" H12).
  unfold lift at 1. cbv beta iota. unfold circle_lines.
  rewrite <- !app_assoc. reflexivity.
Qed.

(** How a call that passed the check of the highlighted indices can end. *)
Lemma single_cycle_body_ends (ks : list Z) (n : Z) (radius : Q)
    (lines adj ton pre : bool) :
  let r := fst (single_cycle_body ks n radius lines adj ton pre []) in
  r = Ok tt \/ r = Raise IndexError
  \/ r = Raise (ValueError [Lit "math domain error"%string])
  \/ r = Raise (ValueError (label_mode_message n)).
Proof.
  destruct (Z.ltb_spec 0 n) as [Hn|Hn].
  - destruct ton eqn:Et.
    + destruct (Z.eq_dec n 12) as [E|E].
      * rewrite single_cycle_body_run by (intros; assumption).
        destruct lines; [destruct adj; [destruct ks|]|]; simpl; auto.
      * rewrite single_cycle_body_label_error by assumption. simpl; auto.
    + rewrite single_cycle_body_run by (assumption || discriminate).
      destruct lines; [destruct adj; [destruct ks|]|]; simpl; auto.
  - rewrite single_cycle_body_domain by assumption. simpl; auto.
Qed.

Lemma with_open_fst (body : io unit) : fst (with_open body) = fst (body []).
Proof. unfold with_open. now destruct (body []). Qed.

Lemma with_open_snd (body : io unit) :
  snd (with_open body) = Some (snd (body [])).
Proof. unfold with_open. now destruct (body []). Qed.

(** C9: with an explicitly given list, the single-cycle generator raises
    the out-of-range error exactly when some highlighted index lies outside
    [0, n); the index the message cites is such an index of the list, the
    message carries both that index and n, and nothing has been written.
    With n = 8 and the list 0, 3, 9 the error cites 9. *)
Theorem out_of_range_index (ks : list Z) (n : Z) (radius : Q)
    (lines adj ton pre : bool) :
  let call := single_cycle_example (Some ks) n radius lines adj ton pre in
  ((exists k, raised call = Some (ValueError (highlight_message k n)))
   <-> (exists k, In k ks /\ ~ (0 <= k < n)%Z))
  /\ (forall k, raised call = Some (ValueError (highlight_message k n)) ->
        In k ks /\ ~ (0 <= k < n)%Z
        /\ In (Int k) (highlight_message k n)
        /\ In (Int n) (highlight_message k n)
        /\ snd call = None)
  /\ raised (single_cycle_example (Some [0; 3; 9]%Z) 8 radius lines adj ton pre)
     = Some (ValueError (highlight_message 9 8)).
Proof.
  intro call.
  assert (Hcited : forall k,
             raised call = Some (ValueError (highlight_message k n)) ->
             In k ks /\ ~ (0 <= k < n)%Z /\ snd call = None).
  { intros k Hr. subst call.
    destruct (check_highlighted_total ks n) as [Hok|(k0 & Hin & Hout & Hraise)].
    - exfalso. rewrite check_highlighted_ok in Hok.
      rewrite single_cycle_example_checked in Hr by exact Hok.
      unfold raised in Hr. rewrite with_open_fst in Hr.
      pose proof (single_cycle_body_ends ks n radius lines adj ton pre) as Hends.
      cbv zeta in Hends.
      destruct Hends as [E|[E|[E|E]]]; rewrite E in Hr; discriminate.
    - rewrite (single_cycle_example_rejected _ _ _ _ _ _ Hraise) in Hr |- *.
      unfold raised in Hr. simpl in Hr. injection Hr as <-.
      now repeat split. }
  split; [split|split].
  - intros [k Hk]. exists k. destruct (Hcited k Hk) as (H1 & H2 & _). now split.
  - intros [k [Hin Hout]]. subst call.
    destruct (check_highlighted_total ks n) as [Hok|(k0 & _ & _ & Hraise)].
    + rewrite check_highlighted_ok in Hok. elim Hout. now apply Hok.
    + exists k0. now rewrite (single_cycle_example_rejected _ _ _ _ _ _ Hraise).
  - intros k Hk. destruct (Hcited k Hk) as (H1 & H2 & H3).
    split; [exact H1 | split; [exact H2 | split; [|split; [|exact H3]]]];
      simpl; tauto.
  - reflexivity.
Qed.

(** ** What the artifact of the single-cycle generator contains *)

Lemma segments_app (f g : file) : segments (f ++ g) = segments f ++ segments g.
Proof. apply pick_app. Qed.

Lemma nodes_app (f g : file) : nodes (f ++ g) = nodes f ++ nodes g.
Proof. apply pick_app. Qed.

Lemma segments_segment_lines (l : list (Z * Z)) :
  segments (map segment_line l) = l.
Proof.
  unfold segments. rewrite (pick_map_some segment_of segment_line (fun p => p)).
  - apply map_id.
  - now intros [a b].
Qed.

Lemma nodes_segment_lines (l : list (Z * Z)) : nodes (map segment_line l) = [].
Proof.
  apply pick_none. intros t Ht. apply in_map_iff in Ht.
  now destruct Ht as [[a b] [<- _]].
Qed.

Lemma segments_up_to_nodes (ks : list Z) (n : Z) (radius : Q) (ton pre : bool) :
  segments (up_to_nodes ks n radius ton pre) = [].
Proof.
  unfold up_to_nodes. rewrite !segments_app.
  assert (H : segments (map (node_line ks n true false ton "\radius") (range n)) = []).
  { apply pick_none. intros t Ht. apply in_map_iff in Ht.
    now destruct Ht as [i [<- _]]. }
  rewrite H. now destruct pre.
Qed.

Lemma nodes_up_to_nodes (ks : list Z) (n : Z) (radius : Q) (ton pre : bool) :
  nodes (up_to_nodes ks n radius ton pre) = map (fun i => (i, angle i n)) (range n).
Proof.
  unfold up_to_nodes. rewrite !nodes_app.
  assert (H : nodes (map (node_line ks n true false ton "\radius") (range n))
              = map (fun i => (i, angle i n)) (range n)).
  { apply pick_map_some. intro i. apply node_of_node_line. }
  rewrite H. now destruct pre.
Qed.

(** The line that closes the adjacent mode reads as the segment to node 0:
    it stands for the same characters as [segment_string a 0]. *)
Lemma last_segment_renders (repr_float : Q -> string) (math_log2 : Z -> Q)
    (a : Z) :
  render repr_float math_log2 (last_segment_string a)
  = render repr_float math_log2 (segment_string a 0).
Proof. reflexivity. Qed.

Lemma segments_closing (pre : bool) : segments (closing_lines pre) = [].
Proof. now destruct pre. Qed.

Lemma nodes_closing (pre : bool) : nodes (closing_lines pre) = [].
Proof. now destruct pre. Qed.

(** The adjacent mode on a non-empty list: the pairs of neighbours, then
    a segment from the last highlighted node to node 0. *)
Lemma adjacent_segments (ks : list Z) (n : Z) (radius : Q) (ton pre : bool) :
  ks <> [] -> (forall k, In k ks -> (0 <= k < n)%Z) -> (ton = true -> n = 12%Z) ->
  let call := single_cycle_example (Some ks) n radius true true ton pre in
  fst call = Ok tt
  /\ segments (written call) = adjacent_pairs ks ++ [(last ks 0%Z, 0%Z)]
  /\ length (segments (written call)) = length ks.
Proof.
  intros Hne Hks Hton call.
  assert (Hn : (0 < n)%Z).
  { destruct ks as [|k ks]; [contradiction|].
    specialize (Hks k (or_introl eq_refl)). lia. }
  assert (Hcall : call = (Ok tt, Some (up_to_nodes ks n radius ton pre
                    ++ map segment_line (adjacent_pairs ks)
                    ++ [last_segment_string (last ks 0%Z)]
                    ++ closing_lines pre))).
  { subst call. rewrite single_cycle_example_checked by exact Hks.
    unfold with_open. rewrite single_cycle_body_run by assumption.
    cbv zeta beta iota. destruct ks; [contradiction | reflexivity]. }
  assert (Hseg : segments (written call)
                 = adjacent_pairs ks ++ [(last ks 0%Z, 0%Z)]).
  { rewrite Hcall. unfold written. cbn [fst snd].
    rewrite !segments_app, segments_up_to_nodes, segments_segment_lines,
      segments_closing, app_nil_r. reflexivity. }
  split; [now rewrite Hcall | split; [exact Hseg|]].
  rewrite Hseg, length_app. unfold adjacent_pairs.
  rewrite length_combine. destruct ks as [|k ks]; [contradiction|].
  cbn [tl length]. lia.
Qed.

(** C1: adjacent-line mode on the highlighted list 1, 3 of a circle of 8:
    the call draws the segment 1-3 and then a segment from 3 to node 0,
    not back to the first highlighted node 1. *)
Theorem adjacent_closing_segment_ends_at_node_0 :
  single_cycle_example (Some [1; 3]%Z) 8 1 true true false false
  = (Ok tt,
     Some (up_to_nodes [1; 3]%Z 8 1 false false
           ++ [segment_string 1 3; last_segment_string 3;
               [Lit ("\end{tikzpicture}" ++ nl)]]))
  /\ segments (written (single_cycle_example (Some [1; 3]%Z) 8 1
                          true true false false))
     = [(1, 3); (3, 0)]%Z.
Proof. split; reflexivity. Qed.

(** The tresillo: on 0, 3, 6 of 8 the three segments are 0-3, 3-6, 6-0. *)
Lemma tresillo_segments :
  segments (written (single_cycle_example (Some [0; 3; 6]%Z) 8 1
                       true true false false))
  = [(0, 3); (3, 6); (6, 0)]%Z.
Proof. reflexivity. Qed.

(** C2: pitch-class labels requested on a circle of 8: the error is raised
    by the node loop, after the file has been opened and the four lines
    that open the picture and draw the circle have been written to it. *)
Theorem label_error_leaves_partial_output :
  single_cycle_example (Some [0]%Z) 8 1 true true true false
  = (Raise (ValueError (label_mode_message 8)), Some (circle_lines 8 1))
  /\ length (circle_lines 8 1) = 4%nat.
Proof. split; reflexivity. Qed.

(** The same for every circle of a length other than 12. *)
Lemma label_error_after_open (ks : list Z) (n : Z) (radius : Q)
    (lines adj pre : bool) :
  (forall k, In k ks -> (0 <= k < n)%Z) -> (0 < n)%Z -> n <> 12%Z ->
  single_cycle_example (Some ks) n radius lines adj true pre
  = (Raise (ValueError (label_mode_message n)),
     Some ((if pre then Cycles.preamble else []) ++ circle_lines n radius)).
Proof.
  intros Hks Hn H12. rewrite single_cycle_example_checked by exact Hks.
  unfold with_open. now rewrite single_cycle_body_label_error.
Qed.

(** The check of the highlighted indices, by contrast, comes before the
    file is opened. *)
Lemma out_of_range_before_open (ks : list Z) (n : Z) (radius : Q)
    (lines adj ton pre : bool) :
  (exists k, In k ks /\ ~ (0 <= k < n)%Z) ->
  snd (single_cycle_example (Some ks) n radius lines adj ton pre) = None.
Proof.
  intros [k [Hin Hout]].
  destruct (check_highlighted_total ks n) as [Hok|(k0 & _ & _ & Hraise)].
  - rewrite check_highlighted_ok in Hok. elim Hout. now apply Hok.
  - now rewrite (single_cycle_example_rejected _ _ _ _ _ _ Hraise).
Qed.

(** C10: the single-cycle generator called with an explicitly empty
    highlighted list and lines in adjacent mode never completes normally.
    On a circle of n >= 1 elements whose labelling is valid it passes the
    check of the indices, writes the circle and the n unfilled nodes, and
    then ends with an index error at the closing segment; the artifact
    keeps what had been written and has no closing line. *)
Theorem empty_adjacent_never_completes (n : Z) (radius : Q) (ton pre : bool) :
  let call := single_cycle_example (Some []) n radius true true ton pre in
  fst call <> Ok tt
  /\ ((1 <= n)%Z -> (ton = true -> n = 12%Z) ->
      call = (Raise IndexError,
              Some ((if pre then Cycles.preamble else [])
                    ++ circle_lines n radius
                    ++ map (fun i => node_string i (angle i n) "\radius" "white"
                                       (Float (angle i n))
                                       (label_text false ton i n))
                         (range n)))
      /\ length (nodes (written call)) = Z.to_nat n
      /\ segments (written call) = []
      /\ ~ In [Lit ("\end{tikzpicture}" ++ nl)] (written call)
      /\ (forall msg, IndexError <> ValueError msg)).
Proof.
  intro call.
  assert (Hrun : (1 <= n)%Z -> (ton = true -> n = 12%Z) ->
                 call = (Raise IndexError, Some (up_to_nodes [] n radius ton pre))).
  { intros Hn Hton. subst call.
    rewrite single_cycle_example_checked by (intros k []).
    unfold with_open. rewrite single_cycle_body_run by (assumption || lia).
    reflexivity. }
  split.
  - subst call. rewrite single_cycle_example_checked in * by (intros k []).
    rewrite with_open_fst.
    destruct (Z.ltb_spec 0 n) as [Hn|Hn].
    + destruct ton eqn:Et.
      * destruct (Z.eq_dec n 12) as [E|E].
        -- rewrite single_cycle_body_run by (intros; assumption). discriminate.
        -- rewrite single_cycle_body_label_error by assumption. discriminate.
      * rewrite single_cycle_body_run by (assumption || discriminate).
        discriminate.
    + rewrite single_cycle_body_domain by assumption. discriminate.
  - intros Hn Hton. specialize (Hrun Hn Hton). rewrite Hrun.
    unfold written. cbn [fst snd].
    split; [reflexivity | split; [|split; [|split]]].
    + rewrite nodes_up_to_nodes, length_map. apply range_length.
    + apply segments_up_to_nodes.
    + unfold up_to_nodes. rewrite !in_app_iff, in_map_iff.
      intros [H|[H|[i [H _]]]].
      * destruct pre; simpl in H; [|contradiction].
        repeat (destruct H as [H|H]; [discriminate|]). contradiction.
      * simpl in H. repeat (destruct H as [H|H]; [discriminate|]). contradiction.
      * discriminate.
    + discriminate.
Qed.

(** At n = 3 without a preamble: three unfilled nodes, then the error. *)
Lemma empty_adjacent_never_completes_witness :
  (1 <= 3)%Z /\ (false = true -> 3 = 12)%Z
  /\ single_cycle_example (Some []) 3 1 true true false false
     = (Raise IndexError,
        Some (circle_lines 3 1
              ++ map (fun i => node_string i (angle i 3) "\radius" "white"
                                 (Float (angle i 3)) [Int i])
                   [0; 1; 2]%Z)).
Proof.
  split; [lia | split; [discriminate|]].
  apply (proj2 (empty_adjacent_never_completes 3 1 false false));
    [lia | discriminate].
Defined.

Lemma nodes_of_single_cycle (ks : list Z) (n : Z) (radius : Q)
    (lines adj ton pre : bool) :
  (1 <= n)%Z ->
  (forall k, In k ks -> (0 <= k < n)%Z) ->
  (ton = true -> n = 12%Z) ->
  nodes (written (single_cycle_example (Some ks) n radius lines adj ton pre))
  = map (fun i => (i, angle i n)) (range n).
Proof.
  intros Hn Hks Hton.
  rewrite single_cycle_example_checked by exact Hks.
  unfold written. rewrite with_open_snd.
  rewrite single_cycle_body_run by (assumption || lia). cbv zeta.
  destruct lines; [destruct adj; [destruct ks as [|k ks']|]|]; cbn [snd];
    rewrite ?nodes_app, ?nodes_up_to_nodes, ?nodes_segment_lines,
      ?nodes_closing, ?app_nil_r; reflexivity.
Qed.

(** C3, as the code has it: on a circle of n >= 1 elements with
    highlighted indices in [0, n), the generator writes one node per index
    0, ..., n-1, in that order.  The angle of node i is the expression
    (450 - (i / n) * 360) % 360 evaluated on floats, each of the division,
    the multiplication and the subtraction rounded to binary64: a float in
    [0, 360) that is within 2^-42 degrees of 450 - 360 i / n less a whole
    number of turns.  Index 0 is at exactly 90 degrees, the top. *)
Theorem node_angles (ks : list Z) (n : Z) (radius : Q)
    (lines adj ton pre la den : bool) (rs : string) :
  (1 <= n)%Z ->
  (forall k, In k ks -> (0 <= k < n)%Z) ->
  (ton = true -> n = 12%Z) ->
  (exists l,
      node_strings ks n la den ton rs = Ok l
      /\ length l = Z.to_nat n
      /\ nodes l = map (fun i => (i, angle i n)) (range n))
  /\ nodes (written (single_cycle_example (Some ks) n radius lines adj ton pre))
     = map (fun i => (i, angle i n)) (range n)
  /\ (forall i, (0 <= i < n)%Z ->
        angle i n
        = fmod (round64 (450 - round64 (round64 (inject_Z i / inject_Z n) * 360)))
            360
        /\ 0 <= angle i n < 360
        /\ exists k : Z,
             (k = 0 \/ k = 1)%Z
             /\ Qabs (angle i n
                      - (450 - 360 * (inject_Z i / inject_Z n)
                         - 360 * inject_Z k))
                <= pow2 (-42))
  /\ angle 0 n = 90.
Proof.
  intros Hn Hks Hton. split; [|split; [|split]].
  - exists (map (node_line ks n la den ton rs) (range n)).
    split; [now apply node_strings_ok | split].
    + rewrite length_map. apply range_length.
    + apply pick_map_some. intro i. apply node_of_node_line.
  - now apply nodes_of_single_cycle.
  - intros i Hi. destruct (angle_in_range Hi) as (H0 & H1 & Hk).
    split; [reflexivity | split; [split; assumption | exact Hk]].
  - apply angle_top.
Qed.

(** On the tresillo circle: eight nodes, the first at 90 degrees, the
    third at 0 degrees. *)
Lemma node_angles_witness :
  (1 <= 8)%Z
  /\ nodes (written (single_cycle_example (Some [0; 3; 6]%Z) 8 1
                       true true false false))
     = map (fun i => (i, angle i 8)) (range 8)
  /\ angle 0 8 == 90 /\ angle 2 8 == 0.
Proof.
  split; [lia|].
  split; [|split; vm_compute; reflexivity].
  refine (proj1 (proj2 (@node_angles [0; 3; 6]%Z 8 1
                          true true false false true false "\radius" _ _ _))).
  - lia.
  - simpl. intros k [<-|[<-|[<-|[]]]]; lia.
  - discriminate.
Defined.

(** C3 as stated fails: the angles are not those of the exact formula.
    Of ten nodes, the eighth is written at 198 + 2^-45 degrees
    (198.00000000000003), where (450 - 360 * 7 / 10) mod 360 is 198. *)
Lemma node_angles_exact_counterexample :
  ~ (forall i a,
        In (i, a) (nodes (written (single_cycle_example (Some [0; 3; 6]%Z) 10 1
                                     true true false false))) ->
        a == described_angle i 10).
Proof.
  intro H.
  assert (Hin : In (7%Z, angle 7 10)
                  (nodes (written (single_cycle_example (Some [0; 3; 6]%Z) 10 1
                                     true true false false)))).
  { rewrite nodes_of_single_cycle;
      [|lia | simpl; intros k [<-|[<-|[<-|[]]]]; lia | discriminate].
    apply in_map_iff. exists 7%Z. split; [reflexivity|].
    apply in_range_iff. lia. }
  specialize (H _ _ Hin). vm_compute in H. discriminate H.
Qed.

(** A node line read back: the label of the node of index [i]. *)
Lemma node_label_of_node_line (ks : list Z) (n : Z) (la den ton : bool)
    (rs : string) (i : Z) :
  node_label_of (node_line ks n la den ton rs i)
  = Some {| labelled := i; position := label_position la i n;
            shown := label_text den ton i n |}.
Proof.
  unfold node_line, node_string, node_label_of.
  cbn [app]. rewrite rev_app_distr. cbn [rev app].
  rewrite rev_involutive. reflexivity.
Qed.

(** C4: pitch-class labels are produced exactly when n = 12; for any
    other n the request is refused with the label-mode error, whose message
    carries n; for n = 12 the label read off the line of the node of
    index i is entry i of the pitch-name table, for every i in [0, 12). *)
Theorem pitch_class_labels (ks : list Z) (n : Z) (la den : bool) (rs : string) :
  ((exists l, node_strings ks n la den true rs = Ok l) <-> n = 12%Z)
  /\ (n <> 12%Z ->
      node_strings ks n la den true rs = Raise (ValueError (label_mode_message n)))
  /\ (n = 12%Z ->
      exists l,
        node_strings ks n la den true rs = Ok l
        /\ length l = 12%nat
        /\ map (fun v => (labelled v, shown v)) (node_labels l)
           = combine (range 12) (map (fun name => [Lit name]) Utils.pitch_name_list)
        /\ forall i, (0 <= i < 12)%Z ->
             exists line name v,
               nth_error l (Z.to_nat i) = Some line
               /\ nth_error Utils.pitch_name_list (Z.to_nat i) = Some name
               /\ node_label_of line = Some v
               /\ labelled v = i /\ shown v = [Lit name])
  /\ length Utils.pitch_name_list = 12%nat.
Proof.
  assert (H12 : n = 12%Z ->
      exists l,
        node_strings ks n la den true rs = Ok l
        /\ length l = 12%nat
        /\ map (fun v => (labelled v, shown v)) (node_labels l)
           = combine (range 12) (map (fun name => [Lit name]) Utils.pitch_name_list)
        /\ forall i, (0 <= i < 12)%Z ->
             exists line name v,
               nth_error l (Z.to_nat i) = Some line
               /\ nth_error Utils.pitch_name_list (Z.to_nat i) = Some name
               /\ node_label_of line = Some v
               /\ labelled v = i /\ shown v = [Lit name]).
  { intros ->.
    exists (map (node_line ks 12 la den true rs) (range 12)).
    split; [now apply node_strings_ok | split; [reflexivity | split]].
    - unfold node_labels.
      rewrite (pick_map_some _ _ _ _ (node_label_of_node_line ks 12 la den true rs)).
      rewrite map_map. reflexivity.
    - intros i Hi.
      exists (node_line ks 12 la den true rs i),
        (nth (Z.to_nat i) Utils.pitch_name_list EmptyString),
        {| labelled := i; position := label_position la i 12;
           shown := label_text den true i 12 |}.
      split; [|split; [|split; [|split]]].
      + rewrite nth_error_map, range_nth_error by exact Hi. reflexivity.
      + apply nth_error_nth'. simpl. lia.
      + apply node_label_of_node_line.
      + reflexivity.
      + reflexivity. }
  split; [split|split; [|split]].
  - intros [l Hl]. destruct (Z.eq_dec n 12) as [E|E]; [exact E|].
    rewrite node_strings_invalid in Hl by exact E. discriminate.
  - intro E. destruct (H12 E) as [l [Hl _]]. now exists l.
  - apply node_strings_invalid.
  - exact H12.
  - reflexivity.
Qed.

(** The labels on the chromatic circle, read off the nodes. *)
Lemma pitch_class_labels_on_12 :
  exists l,
    node_strings [] 12 true false true "\radius" = Ok l
    /\ map shown (node_labels l)
       = [[Lit "C"]; [Lit "C$\sharp$"]; [Lit "D"]; [Lit "E$\flat$"]; [Lit "E"];
          [Lit "F"]; [Lit "F$\sharp$"]; [Lit "G"]; [Lit "A$\flat$"]; [Lit "A"];
          [Lit "B$\flat$"]; [Lit "B"]]%string.
Proof.
  exists (map (node_line [] 12 true false true "\radius") (range 12)).
  split; [now apply node_strings_ok|].
  unfold node_labels.
  rewrite (pick_map_some _ _ _ _
             (node_label_of_node_line [] 12 true false true "\radius")).
  reflexivity.
Qed.

(** ** All pairs *)

Lemma combinations2_length {X} (l : list X) :
  (2 * length (combinations2 l) = length l * (length l - 1))%nat.
Proof.
  induction l as [|x l IH]; [reflexivity|].
  simpl combinations2. rewrite length_app, length_map. simpl length. nia.
Qed.

Lemma combinations2_in {X} (l : list X) (p : X * X) :
  In p (combinations2 l) -> In (fst p) l /\ In (snd p) l.
Proof.
  induction l as [|x l IH]; simpl; [contradiction|].
  rewrite in_app_iff, in_map_iff. intros [[y [<- Hy]]|H].
  - simpl. auto.
  - destruct (IH H). auto.
Qed.

Lemma count_occ_pairs_from (x a b : Z) (l : list Z) :
  count_occ pair_eq_dec (map (pair x) l) (a, b)
  = if Z.eq_dec x a then count_occ Z.eq_dec l b else 0%nat.
Proof.
  induction l as [|y l IH]; simpl.
  - now destruct (Z.eq_dec x a).
  - destruct (pair_eq_dec (x, y) (a, b)) as [E|E].
    + injection E as -> ->. rewrite IH.
      destruct (Z.eq_dec a a); [|contradiction].
      destruct (Z.eq_dec b b); [reflexivity | contradiction].
    + rewrite IH. destruct (Z.eq_dec x a) as [->|]; [|reflexivity].
      destruct (Z.eq_dec y b) as [->|]; [contradiction | reflexivity].
Qed.

Lemma count_occ_combinations2_out (l : list Z) (a b : Z) :
  ~ In a l \/ ~ In b l -> count_occ pair_eq_dec (combinations2 l) (a, b) = 0%nat.
Proof.
  intro H. apply count_occ_not_In. intro Hin.
  apply combinations2_in in Hin. simpl in Hin. tauto.
Qed.

Lemma count_occ_once (l : list Z) (b : Z) :
  NoDup l -> In b l -> count_occ Z.eq_dec l b = 1%nat.
Proof.
  intros Hnd Hin.
  pose proof (proj1 (NoDup_count_occ Z.eq_dec l) Hnd b).
  pose proof (proj1 (count_occ_In Z.eq_dec l b) Hin). lia.
Qed.

(** Among the pairs of a duplicate-free list, two distinct elements are
    joined exactly once. *)
Lemma combinations2_joining (l : list Z) (a b : Z) :
  NoDup l -> In a l -> In b l -> a <> b ->
  joining a b (combinations2 l) = 1%nat.
Proof.
  unfold joining. induction l as [|x l IH]; intros Hnd Ha Hb Hab; [contradiction|].
  apply NoDup_cons_iff in Hnd. destruct Hnd as [Hx Hnd].
  simpl combinations2. rewrite !count_occ_app, !count_occ_pairs_from.
  destruct (Z.eq_dec x a) as [Exa|Hxa]; destruct (Z.eq_dec x b) as [Exb|Hxb];
    try subst x.
  - congruence.
  - destruct Hb as [Hb|Hb]; [congruence|].
    rewrite (@count_occ_once l b Hnd Hb).
    rewrite !count_occ_combinations2_out by tauto. reflexivity.
  - destruct Ha as [Ha|Ha]; [congruence|].
    rewrite (@count_occ_once l a Hnd Ha).
    rewrite !count_occ_combinations2_out by tauto. reflexivity.
  - destruct Ha as [Ha|Ha]; [congruence|].
    destruct Hb as [Hb|Hb]; [congruence|].
    simpl. now apply IH.
Qed.

Lemma combinations2_distinct (l : list Z) (p : Z * Z) :
  NoDup l -> In p (combinations2 l) -> fst p <> snd p.
Proof.
  induction l as [|x l IH]; intros Hnd Hin; [contradiction|].
  apply NoDup_cons_iff in Hnd. destruct Hnd as [Hx Hnd].
  simpl in Hin. rewrite in_app_iff, in_map_iff in Hin.
  destruct Hin as [[y [<- Hy]]|Hin].
  - simpl. intros ->. contradiction.
  - now apply IH.
Qed.

(** C8: in all-pairs mode, on a list of m distinct valid indices, the call
    completes and draws m (m - 1) / 2 segments: the pairs of positions
    i < j of the list in lexicographic order, so that every two distinct
    highlighted points are joined by exactly one segment, and every
    segment joins two distinct highlighted points. *)
Theorem all_pairs_segments (ks : list Z) (n : Z) (radius : Q) (ton pre : bool) :
  NoDup ks ->
  (forall k, In k ks -> (0 <= k < n)%Z) ->
  (1 <= n)%Z ->
  (ton = true -> n = 12%Z) ->
  let call := single_cycle_example (Some ks) n radius true false ton pre in
  fst call = Ok tt
  /\ segments (written call) = combinations2 ks
  /\ (2 * length (segments (written call)) = length ks * (length ks - 1))%nat
  /\ (forall a b, In a ks -> In b ks -> a <> b ->
        joining a b (segments (written call)) = 1%nat)
  /\ (forall p, In p (segments (written call)) ->
        In (fst p) ks /\ In (snd p) ks /\ fst p <> snd p).
Proof.
  intros Hnd Hks Hn Hton call.
  assert (Hcall : call = (Ok tt, Some (up_to_nodes ks n radius ton pre
                    ++ map segment_line (combinations2 ks)
                    ++ closing_lines pre))).
  { subst call. rewrite single_cycle_example_checked by exact Hks.
    unfold with_open. now rewrite single_cycle_body_run by (assumption || lia). }
  assert (Hseg : segments (written call) = combinations2 ks).
  { rewrite Hcall. unfold written. cbn [fst snd].
    now rewrite !segments_app, segments_up_to_nodes, segments_segment_lines,
      segments_closing, app_nil_r. }
  rewrite Hseg.
  split; [now rewrite Hcall | split; [reflexivity | split; [|split]]].
  - apply combinations2_length.
  - intros a b Ha Hb Hab. now apply combinations2_joining.
  - intros p Hp. destruct (combinations2_in _ _ Hp) as [H1 H2].
    split; [exact H1 | split; [exact H2 | now apply (@combinations2_distinct ks p Hnd)]].
Qed.

(** The double tresillo: six highlighted points of sixteen, fifteen
    segments. *)
Lemma all_pairs_segments_witness :
  NoDup [0; 3; 6; 8; 11; 14]%Z
  /\ (1 <= 16)%Z
  /\ length (segments (written (single_cycle_example
                                  (Some [0; 3; 6; 8; 11; 14]%Z) 16 1
                                  true false false false))) = 15%nat.
Proof.
  assert (Hnd : NoDup [0; 3; 6; 8; 11; 14]%Z).
  { repeat constructor; simpl; intuition discriminate. }
  split; [exact Hnd | split; [lia|]].
  pose proof (@all_pairs_segments [0; 3; 6; 8; 11; 14]%Z 16 1 false false Hnd) as H.
  cbv zeta in H.
  destruct H as (_ & Hseg & _).
  - simpl. intros k Hk. repeat (destruct Hk as [<-|Hk]; [lia|]). contradiction.
  - lia.
  - discriminate.
  - rewrite Hseg. reflexivity.
Defined.

(** ** The schema generator *)

Lemma range2_cons (a b : Z) : (a < b)%Z -> range2 a b = a :: range2 (a + 1) b.
Proof.
  intro H. unfold range2.
  replace (Z.to_nat (b - a)) with (S (Z.to_nat (b - (a + 1)))) by lia.
  rewrite <- cons_seq, <- seq_shift, map_cons, map_map.
  f_equal; [lia|]. apply map_ext. intro k. lia.
Qed.

Lemma range2_empty (a b : Z) : (b <= a)%Z -> range2 a b = [].
Proof.
  intro H. unfold range2. now replace (Z.to_nat (b - a)) with 0%nat by lia.
Qed.

Lemma len_cons {X} (x : X) (l : list X) : len (x :: l) = (len l + 1)%Z.
Proof. unfold len. simpl length. lia. Qed.

Lemma len_nonneg {X} (l : list X) : (0 <= len l)%Z.
Proof. unfold len. lia. Qed.

Lemma insert_sorted_head (x : Z) (l : list Z) :
  Sorted Z.le (x :: l) -> insert_sorted x l = x :: l.
Proof.
  intro H. destruct l as [|y l]; [reflexivity|].
  apply Sorted_inv in H. destruct H as [_ Hd]. apply HdRel_inv in Hd.
  simpl. destruct (Z.leb_spec x y); [reflexivity | lia].
Qed.

Lemma insert_sorted_sorted (x : Z) (l : list Z) :
  Sorted Z.le l -> Sorted Z.le (insert_sorted x l).
Proof.
  induction l as [|y l IH]; intro H; simpl.
  - repeat constructor.
  - destruct (Z.leb_spec x y).
    + constructor; [exact H | now constructor].
    + apply Sorted_inv in H. destruct H as [Hs Hd].
      constructor; [now apply IH|].
      destruct l as [|z l]; simpl.
      * constructor. lia.
      * apply HdRel_inv in Hd.
        destruct (Z.leb_spec x z); constructor; lia.
Qed.

Lemma sorted_is_sorted (l : list Z) : Sorted Z.le (sorted l).
Proof.
  induction l as [|x l IH]; simpl; [constructor | now apply insert_sorted_sorted].
Qed.

Lemma sorted_fixes (l : list Z) : Sorted Z.le l -> sorted l = l.
Proof.
  induction l as [|x l IH]; intro H; [reflexivity|].
  simpl. rewrite IH by (now apply Sorted_inv in H).
  now apply insert_sorted_head.
Qed.

Lemma list_eqb_eq (l1 l2 : list Z) : list_eqb l1 l2 = true <-> l1 = l2.
Proof.
  revert l2. induction l1 as [|x l1 IH]; intros [|y l2]; simpl;
    try (split; [discriminate | discriminate]); [tauto|].
  rewrite andb_true_iff, Z.eqb_eq, IH. split.
  - intros [-> ->]. reflexivity.
  - intro H. injection H as -> ->. auto.
Qed.

(** The check of the tags passes exactly on non-decreasing tags. *)
Lemma tags_check (tags : list Z) :
  list_eqb tags (sorted tags) = true <-> Sorted Z.le tags.
Proof.
  rewrite list_eqb_eq. split.
  - intro H. rewrite H. apply sorted_is_sorted.
  - intro H. symmetry. now apply sorted_fixes.
Qed.

Lemma direction_parity (i : Z) :
  direction i = (if Z.even i then "left" else "right")%string.
Proof.
  unfold direction. rewrite Zmod_even. now destruct (Z.even i).
Qed.

Lemma enumerate_from (X : Type) (c : X) (cs : list X) (i0 : Z) :
  combine (range2 i0 (i0 + len (c :: cs))) (c :: cs)
  = (i0, c) :: combine (range2 (i0 + 1) (i0 + 1 + len cs)) cs.
Proof.
  rewrite len_cons. pose proof (len_nonneg cs).
  rewrite range2_cons by lia. simpl. do 3 f_equal. lia.
Qed.

Lemma uppers_loop (circles : list circle) (i0 : Z) (st : option Z) (f : file) :
  for_each_with (combine (range2 i0 (i0 + len circles)) circles) st
    (fun ic _ => seq_io (write (upper_line (fst ic) (snd ic)))
                   (fun _ => ret (Some (fst ic)))) f
  = (Ok (match circles with
         | [] => st
         | _ => Some (i0 + len circles - 1)%Z
         end),
     f ++ map (fun ic => upper_line (fst ic) (snd ic))
            (combine (range2 i0 (i0 + len circles)) circles)).
Proof.
  revert i0 st f. induction circles as [|c cs IH]; intros i0 st f.
  - rewrite range2_empty by (unfold len; simpl; lia). simpl.
    unfold ret. now rewrite app_nil_r.
  - rewrite enumerate_from. simpl for_each_with.
    io_step. io_write. unfold ret at 1. cbv beta iota.
    rewrite IH. cbn [fst snd map]. rewrite <- app_assoc. cbn [app].
    f_equal. f_equal. rewrite len_cons.
    destruct cs as [|c' cs]; [unfold len; simpl; f_equal; lia | f_equal; lia].
Qed.

Lemma arrows_loop (circles : list circle) (i0 b : Z) (f : file) :
  for_each_with (combine (range2 i0 (i0 + len circles)) circles) b
    (fun ic bend_angle =>
       seq_io (write (arrow_line (fst ic) bend_angle (snd ic)))
         (fun _ => ret (bend_angle + 20)%Z)) f
  = (Ok (b + 20 * len circles)%Z,
     f ++ map (fun ic => arrow_line (fst ic) (b + 20 * (fst ic - i0)) (snd ic))
            (combine (range2 i0 (i0 + len circles)) circles)).
Proof.
  revert i0 b f. induction circles as [|c cs IH]; intros i0 b f.
  - rewrite range2_empty by (unfold len; simpl; lia). simpl.
    unfold ret. rewrite app_nil_r. do 2 f_equal. unfold len. simpl. lia.
  - rewrite enumerate_from. simpl for_each_with.
    io_step. io_write. unfold ret at 1. cbv beta iota.
    rewrite IH. cbn [fst snd map]. rewrite <- app_assoc. cbn [app].
    rewrite len_cons. f_equal; [f_equal; lia|].
    f_equal. f_equal; [f_equal; lia|].
    apply map_ext. intros [i c']. cbn [fst snd]. f_equal. lia.
Qed.

Lemma enumerate_as_range2 {X} (l : list X) :
  enumerate l = combine (range2 0 (0 + len l)) l.
Proof. reflexivity. Qed.

Lemma arrow_of_arrow_line (ic : Z * circle) :
  arrow_of (arrow_line (fst ic) (20 * fst ic) (snd ic)) = Some (arrow_at ic).
Proof.
  unfold arrow_line, arrow_at, arrow_of. rewrite direction_parity.
  now destruct (Z.even (fst ic)).
Qed.

Lemma upper_of_upper_line (ic : Z * circle) :
  upper_of (upper_line (fst ic) (snd ic)) = Some (fst ic + 1, name (snd ic))%Z.
Proof.
  unfold upper_line, upper_of. cbv beta iota.
  rewrite Z.eqb_refl. reflexivity.
Qed.

(** The artifact of a call on non-decreasing tags. *)
Lemma schema_example_run (root_name : string) (circles : list circle)
    (pre : bool) :
  Sorted Z.le (map tag circles) ->
  schema_example root_name circles pre
  = let opening := (if pre then Schema.preamble else [])
                   ++ [[Lit ("\begin{tikzpicture}" ++ nl)]; root_line root_name] in
    match circles with
    | [] => (Raise (UnboundLocalError "i"), Some opening)
    | _ =>
        (Ok tt,
         Some (opening
               ++ map (fun ic => upper_line (fst ic) (snd ic)) (enumerate circles)
               ++ [box_line (len circles - 1);
                   [Lit ("    % Draw curved arrows with annotations" ++ nl)]]
               ++ map (fun ic => arrow_line (fst ic) (20 * fst ic) (snd ic))
                    (enumerate circles)
               ++ closing_lines pre))
    end.
Proof.
  intro Hs. unfold schema_example. cbv zeta.
  apply tags_check in Hs. rewrite Hs. cbn [negb].
  unfold with_open.
  io_step. rewrite when_writes. cbv beta iota.
  do 2 io_write.
  io_step. rewrite enumerate_as_range2, uppers_loop. cbv beta iota.
  destruct circles as [|c cs].
  - io_step. unfold lift at 1, read_local. cbv beta iota.
    rewrite <- !app_assoc. reflexivity.
  - io_step. unfold lift at 1, read_local. cbv beta iota.
    do 2 io_write.
    io_step. rewrite arrows_loop. cbv beta iota.
    rewrite closing_run.
    rewrite (map_ext
               (fun ic : Z * circle =>
                  arrow_line (fst ic) (0 + 20 * (fst ic - 0)) (snd ic))
               (fun ic => arrow_line (fst ic) (20 * fst ic) (snd ic)))
      by (intro ic; f_equal; lia).
    replace (0 + len (c :: cs) - 1)%Z with (len (c :: cs) - 1)%Z by lia.
    rewrite <- !app_assoc. reflexivity.
Qed.

Lemma enumerate_length {X} (l : list X) : length (enumerate l) = length l.
Proof.
  unfold enumerate. rewrite length_combine, range_length. unfold len. lia.
Qed.

Lemma nth_error_combine {X Y} (l1 : list X) (l2 : list Y) (i : nat)
    (a : X) (b : Y) :
  nth_error l1 i = Some a -> nth_error l2 i = Some b ->
  nth_error (combine l1 l2) i = Some (a, b).
Proof.
  revert l1 l2. induction i as [|i IH]; intros [|x l1] [|y l2] H1 H2;
    simpl in *; try discriminate.
  - congruence.
  - now apply IH.
Qed.

Lemma enumerate_nth_error {X} (l : list X) (i : nat) (x : X) :
  nth_error l i = Some x -> nth_error (enumerate l) i = Some (Z.of_nat i, x).
Proof.
  intro H. unfold enumerate.
  assert (Hi : (i < length l)%nat) by (apply nth_error_Some; congruence).
  apply nth_error_combine; [|exact H].
  rewrite <- (Nat2Z.id i) at 1. apply range_nth_error. unfold len. lia.
Qed.

Lemma arrows_app (f g : file) : arrows (f ++ g) = arrows f ++ arrows g.
Proof. apply pick_app. Qed.

Lemma uppers_app (f g : file) : uppers (f ++ g) = uppers f ++ uppers g.
Proof. apply pick_app. Qed.

Lemma arrows_arrow_lines (l : list (Z * circle)) :
  arrows (map (fun ic => arrow_line (fst ic) (20 * fst ic) (snd ic)) l)
  = map arrow_at l.
Proof. apply pick_map_some. apply arrow_of_arrow_line. Qed.

Lemma uppers_upper_lines (l : list (Z * circle)) :
  uppers (map (fun ic => upper_line (fst ic) (snd ic)) l)
  = map (fun ic => (fst ic + 1, name (snd ic))%Z) l.
Proof. apply pick_map_some. apply upper_of_upper_line. Qed.

Lemma arrows_upper_lines (l : list (Z * circle)) :
  arrows (map (fun ic => upper_line (fst ic) (snd ic)) l) = [].
Proof.
  apply pick_none. intros t Ht. apply in_map_iff in Ht.
  now destruct Ht as [ic [<- _]].
Qed.

Lemma uppers_arrow_lines (l : list (Z * circle)) :
  uppers (map (fun ic => arrow_line (fst ic) (20 * fst ic) (snd ic)) l) = [].
Proof.
  apply pick_none. intros t Ht. apply in_map_iff in Ht.
  now destruct Ht as [ic [<- _]].
Qed.

Lemma arrows_opening (pre : bool) (root_name : string) :
  arrows (if pre then Schema.preamble else [])
  ++ arrows [[Lit ("\begin{tikzpicture}" ++ nl)]; root_line root_name] = [].
Proof. now destruct pre. Qed.

Lemma arrows_between (i : Z) :
  arrows [box_line i; [Lit ("    % Draw curved arrows with annotations" ++ nl)]]
  = [].
Proof. reflexivity. Qed.

Lemma arrows_closing (pre : bool) : arrows (closing_lines pre) = [].
Proof. now destruct pre. Qed.

Lemma uppers_opening (pre : bool) (root_name : string) :
  uppers (if pre then Schema.preamble else [])
  ++ uppers [[Lit ("\begin{tikzpicture}" ++ nl)]; root_line root_name] = [].
Proof. now destruct pre. Qed.

Lemma uppers_between (i : Z) :
  uppers [box_line i; [Lit ("    % Draw curved arrows with annotations" ++ nl)]]
  = [].
Proof. reflexivity. Qed.

Lemma uppers_closing (pre : bool) : uppers (closing_lines pre) = [].
Proof. now destruct pre. Qed.

(** Tags out of order are refused before the file is opened. *)
Lemma unsorted_tags_before_open (root_name : string) (circles : list circle)
    (pre : bool) :
  ~ Sorted Z.le (map tag circles) ->
  schema_example root_name circles pre
  = (Raise (ValueError unsorted_message), None).
Proof.
  intro H. unfold schema_example. cbv zeta.
  destruct (list_eqb (map tag circles) (sorted (map tag circles))) eqn:E;
    [|reflexivity].
  elim H. now apply tags_check.
Qed.

(** C7: on non-decreasing tags the schema generator writes one curved
    arrow per upper node, in order, from the root to that node: the arrow
    of the node at position i (counting from 0) carries the node's tag,
    points to upper node i + 1, bends by 20 i, to the left when i is even
    and to the right when i is odd.  A call with at least one upper node
    completes. *)
Theorem schema_arrows (root_name : string) (circles : list circle) (pre : bool) :
  Sorted Z.le (map tag circles) ->
  let call := schema_example root_name circles pre in
  arrows (written call) = map arrow_at (enumerate circles)
  /\ length (arrows (written call)) = length circles
  /\ uppers (written call)
     = map (fun ic => (fst ic + 1, name (snd ic))%Z) (enumerate circles)
  /\ (forall i c, nth_error circles i = Some c ->
        nth_error (arrows (written call)) i
        = Some {| bend_direction :=
                    (if Z.even (Z.of_nat i) then "left" else "right")%string;
                  bend := 20 * Z.of_nat i;
                  annotation := tag c;
                  target := Z.of_nat i + 1 |})
  /\ (circles <> [] -> fst call = Ok tt).
Proof.
  intros Hs call.
  assert (Hcall := schema_example_run root_name circles pre Hs).
  fold call in Hcall. cbv zeta in Hcall.
  assert (Harrows : arrows (written call) = map arrow_at (enumerate circles)).
  { rewrite Hcall. destruct circles as [|c cs]; unfold written; cbn [snd].
    - now destruct pre.
    - rewrite !arrows_app, arrows_upper_lines, arrows_arrow_lines.
      rewrite arrows_opening, arrows_between, arrows_closing.
      cbn [app]. now rewrite app_nil_r. }
  rewrite Harrows.
  split; [reflexivity | split; [|split; [|split]]].
  - rewrite length_map. apply enumerate_length.
  - rewrite Hcall. destruct circles as [|c cs]; unfold written; cbn [snd].
    + now destruct pre.
    + rewrite !uppers_app, uppers_upper_lines, uppers_arrow_lines.
      rewrite uppers_opening, uppers_between, uppers_closing.
      cbn [app]. now rewrite app_nil_r.
  - intros i c Hc. rewrite nth_error_map.
    now rewrite (enumerate_nth_error circles i Hc).
  - intro Hne. rewrite Hcall. destruct circles; [contradiction | reflexivity].
Qed.

(** The example of the module: D, E, F over C with the tags 2, 3, 4. *)
Lemma schema_arrows_witness :
  Sorted Z.le [2; 3; 4]%Z
  /\ arrows (written (schema_example "C"
                        [{| name := "D"; tag := 2 |};
                         {| name := "E"; tag := 3 |};
                         {| name := "F"; tag := 4 |}] false))
     = [{| bend_direction := "left"; bend := 0; annotation := 2; target := 1 |};
        {| bend_direction := "right"; bend := 20; annotation := 3; target := 2 |};
        {| bend_direction := "left"; bend := 40; annotation := 4; target := 3 |}].
Proof.
  assert (Hs : Sorted Z.le [2; 3; 4]%Z) by (repeat constructor; lia).
  split; [exact Hs|].
  exact (proj1 (@schema_arrows "C"
                  [{| name := "D"; tag := 2 |};
                   {| name := "E"; tag := 3 |};
                   {| name := "F"; tag := 4 |}] false Hs)).
Defined.

(** ** The linear table *)

Lemma when_write (b : bool) (t : text) (f : file) :
  when b (write t) f = (Ok tt, f ++ (if b then [t] else [])).
Proof. destruct b; simpl; [reflexivity | unfold ret; now rewrite app_nil_r]. Qed.

Lemma midi_pitch_pc_table_run (s e : Z) (pre oe : bool) :
  midi_pitch_pc_table s e pre oe
  = (Ok tt,
     Some (table_lines pre oe (e - s)
             (midis (end_cell oe) s e)
             (names (end_cell oe) (e - s))
             (pcs (end_cell oe) (e - s)))).
Proof.
  unfold midi_pitch_pc_table, with_open. cbv zeta.
  io_step. rewrite when_writes. cbv beta iota.
  io_write.
  io_step. rewrite when_write. cbv beta iota. do 2 io_write.
  io_step. rewrite when_write. cbv beta iota. do 2 io_write.
  io_step. rewrite when_write. cbv beta iota. io_write.
  rewrite write_run. unfold table_lines, row_label.
  destruct oe; cbn [negb]; rewrite <- !app_assoc; reflexivity.
Qed.

Lemma in_list_mul {X} (l : list X) (k : Z) (x : X) :
  In x (list_mul l k) -> In x l.
Proof.
  unfold list_mul. induction (Z.to_nat k) as [|m IH]; simpl; [contradiction|].
  rewrite in_app_iff. tauto.
Qed.

Lemma list_mul_length {X} (l : list X) (k : Z) :
  length (list_mul l k) = (length l * Z.to_nat k)%nat.
Proof.
  unfold list_mul. induction (Z.to_nat k) as [|m IH]; simpl; [lia|].
  rewrite length_app, IH. lia.
Qed.

(** Position [k] of [l * o] holds element [k mod len(l)] of [l]. *)
Lemma list_mul_nth_error {X} (l : list X) (o : Z) (k : nat) :
  (k < length l * Z.to_nat o)%nat ->
  nth_error (list_mul l o) k = nth_error l (k mod length l).
Proof.
  unfold list_mul. revert k. induction (Z.to_nat o) as [|m IH]; intros k Hk; [lia|].
  simpl. destruct (Nat.lt_ge_cases k (length l)) as [Hlt|Hge].
  - rewrite nth_error_app1 by exact Hlt. now rewrite Nat.mod_small.
  - rewrite nth_error_app2 by exact Hge. rewrite IH by lia.
    f_equal. replace k with ((k - length l) + 1 * length l)%nat at 2 by lia.
    symmetry. apply Nat.Div0.mod_add.
Qed.

Lemma ints_as_offsets (s e : Z) :
  ints s e = map (fun k => s * 12 + k)%Z (range (12 * (e - s))).
Proof.
  unfold ints, range, range2. rewrite map_map.
  replace (Z.to_nat (12 * (e - s) - 0)) with (Z.to_nat (e * 12 - s * 12)) by lia.
  apply map_ext. intro k. lia.
Qed.

Lemma cells_app (c t d : text) (ds : list text) :
  Forall (fun p => is_separator p = false) c ->
  cells t = d :: ds -> cells (c ++ t) = (c ++ d) :: ds.
Proof.
  intros Hc Ht. induction Hc as [|p c Hp Hc IH]; [exact Ht|].
  simpl. rewrite Hp, IH. reflexivity.
Qed.

(** The cells of a joined row are the cells it was joined from. *)
Lemma cells_join (l : list text) :
  l <> [] ->
  Forall (Forall (fun p => is_separator p = false)) l ->
  cells (join separator l) = l.
Proof.
  induction l as [|c l IH]; intros Hne Hl; [contradiction|].
  inversion Hl as [|c0 l0 Hc Hl']; subst.
  destruct l as [|c' l].
  - simpl. rewrite <- (app_nil_r c) at 1.
    rewrite (@cells_app c [] [] []); [now rewrite app_nil_r | exact Hc
                                      | reflexivity].
  - change (join separator (c :: c' :: l))
      with (c ++ separator ++ join separator (c' :: l)).
    rewrite (@cells_app c _ [] (c' :: l)); [now rewrite app_nil_r | exact Hc |].
    change (cells (separator ++ join separator (c' :: l)))
      with ([] :: cells (join separator (c' :: l))).
    rewrite IH; [reflexivity | discriminate | exact Hl'].
Qed.

Lemma end_cell_edge (oe : bool) :
  end_cell oe = [[Lit (if oe then "\dots" else EmptyString)]].
Proof. now destruct oe. Qed.

Lemma cells_of_row {X} (oe : bool) (cell : X -> text) (l : list X) :
  (forall x, In x l -> Forall (fun p => is_separator p = false) (cell x)) ->
  cells (join separator (end_cell oe ++ map cell l ++ end_cell oe))
  = [[Lit (if oe then "\dots" else EmptyString)]] ++ map cell l
    ++ [[Lit (if oe then "\dots" else EmptyString)]].
Proof.
  intro Hl. rewrite cells_join.
  - now rewrite end_cell_edge.
  - destruct oe; discriminate.
  - rewrite !Forall_app. split; [|split].
    + destruct oe; repeat constructor.
    + apply Forall_forall. intros c Hc. apply in_map_iff in Hc.
      destruct Hc as [x [<- Hx]]. now apply Hl.
    + destruct oe; repeat constructor.
Qed.

Lemma name_cell_no_separator (s : string) :
  In s Utils.pitch_name_list ->
  Forall (fun p => is_separator p = false) [Lit s].
Proof.
  intro Hs. simpl in Hs.
  repeat (destruct Hs as [<-|Hs]; [now repeat constructor|]). contradiction.
Qed.

(** C5: for start_octave < end_octave, the cells of the value row,
    between the cell that stands at either end of a row, are the integers
    from 12 start_octave to 12 end_octave - 1 in order, those of the class
    row are 0, ..., 11 repeated end_octave - start_octave times and those
    of the name row are the pitch-name table repeated as many times;
    column k of the class row holds k mod 12 and column k of the name row
    entry k mod 12 of the table. *)
Theorem linear_table_rows (start_octave end_octave : Z)
    (include_preamble open_ended : bool) :
  (start_octave < end_octave)%Z ->
  let octaves := (end_octave - start_octave)%Z in
  let d := end_cell open_ended in
  let value_row := midis d start_octave end_octave in
  let name_row := names d octaves in
  let class_row := pcs d octaves in
  let edge := [Lit (if open_ended then "\dots" else EmptyString)] in
  midi_pitch_pc_table start_octave end_octave include_preamble open_ended
  = (Ok tt,
     Some (table_lines include_preamble open_ended octaves
             value_row name_row class_row))
  /\ cells value_row
     = [edge]
       ++ map (fun k => [Int (start_octave * 12 + k)]) (range (12 * octaves))
       ++ [edge]
  /\ cells class_row
     = [edge]
       ++ map (fun v => [Int v]) (concat (repeat (range 12) (Z.to_nat octaves)))
       ++ [edge]
  /\ cells name_row
     = [edge]
       ++ map (fun s => [Lit s])
            (concat (repeat Utils.pitch_name_list (Z.to_nat octaves)))
       ++ [edge]
  /\ length (cells value_row) = Z.to_nat (12 * octaves + 2)
  /\ length (cells class_row) = Z.to_nat (12 * octaves + 2)
  /\ length (cells name_row) = Z.to_nat (12 * octaves + 2)
  /\ forall k, (0 <= k < 12 * octaves)%Z ->
       nth_error (cells value_row) (S (Z.to_nat k))
       = Some [Int (start_octave * 12 + k)]
       /\ nth_error (cells class_row) (S (Z.to_nat k)) = Some [Int (k mod 12)]
       /\ exists name,
            nth_error Utils.pitch_name_list (Z.to_nat (k mod 12)) = Some name
            /\ nth_error (cells name_row) (S (Z.to_nat k)) = Some [Lit name].
Proof.
  intros Hlt octaves d value_row name_row class_row edge.
  assert (Hv : cells value_row
               = [edge]
                 ++ map (fun k => [Int (start_octave * 12 + k)%Z])
                      (range (12 * octaves))
                 ++ [edge]).
  { subst value_row d. unfold midis.
    rewrite cells_of_row by (intros; repeat constructor).
    rewrite ints_as_offsets. unfold cell_int. now rewrite map_map. }
  assert (Hc : cells class_row
               = [edge] ++ map (fun v => [Int v]) (list_mul (range 12) octaves)
                 ++ [edge]).
  { subst class_row d. unfold pcs.
    now rewrite cells_of_row by (intros; repeat constructor). }
  assert (Hn : cells name_row
               = [edge]
                 ++ map (fun s => [Lit s])
                      (list_mul Utils.pitch_name_list octaves)
                 ++ [edge]).
  { subst name_row d. unfold names. apply cells_of_row.
    intros s Hs. apply name_cell_no_separator. now apply in_list_mul in Hs. }
  split; [apply midi_pitch_pc_table_run|].
  split; [exact Hv|]. split; [exact Hc|]. split; [exact Hn|].
  rewrite Hv, Hc, Hn. cbn [app].
  split; [cbn [length]; rewrite length_app, length_map, range_length;
          cbn [length]; lia|].
  split; [cbn [length];
          rewrite length_app, length_map, list_mul_length, range_length;
          cbn [length]; lia|].
  split; [cbn [length]; rewrite length_app, length_map, list_mul_length;
          change (length Utils.pitch_name_list) with 12%nat;
          cbn [length]; lia|].
  intros k Hk. cbn [nth_error].
  assert (Hmod : Z.of_nat (Z.to_nat k mod 12) = (k mod 12)%Z).
  { rewrite Nat2Z.inj_mod, Z2Nat.id by lia. reflexivity. }
  split; [|split].
  - rewrite nth_error_app1 by (rewrite length_map, range_length; lia).
    rewrite nth_error_map, range_nth_error by exact Hk. reflexivity.
  - rewrite nth_error_app1
      by (rewrite length_map, list_mul_length, range_length; lia).
    rewrite nth_error_map.
    rewrite list_mul_nth_error by (rewrite range_length; lia).
    rewrite range_length. change (Z.to_nat 12) with 12%nat.
    rewrite <- Hmod, <- (Nat2Z.id (Z.to_nat k mod 12)) at 1.
    rewrite range_nth_error; [reflexivity|].
    pose proof (Nat.mod_upper_bound (Z.to_nat k) 12). lia.
  - exists (nth (Z.to_nat (k mod 12)) Utils.pitch_name_list EmptyString).
    assert (Hb : (Z.to_nat (k mod 12) < 12)%nat).
    { pose proof (Z.mod_pos_bound k 12). lia. }
    split; [apply nth_error_nth'; exact Hb|].
    rewrite nth_error_app1 by (rewrite length_map, list_mul_length; simpl length; lia).
    rewrite nth_error_map.
    rewrite list_mul_nth_error by (simpl length; lia).
    simpl length. rewrite <- Hmod, Nat2Z.id.
    rewrite (nth_error_nth' _ EmptyString)
      by (simpl length; apply Nat.mod_upper_bound; lia).
    reflexivity.
Qed.

(** Octaves 4 to 6: between the two end cells, the 24 values
    48, ..., 71 over two rounds of the twelve classes and of the twelve
    names. *)
Lemma linear_table_rows_witness :
  (4 < 6)%Z
  /\ cells (midis (end_cell false) 4 6)
     = [[Lit EmptyString]]
       ++ map (fun v => [Int v])
            [48; 49; 50; 51; 52; 53; 54; 55; 56; 57; 58; 59;
             60; 61; 62; 63; 64; 65; 66; 67; 68; 69; 70; 71]%Z
       ++ [[Lit EmptyString]]
  /\ cells (pcs (end_cell false) (6 - 4))
     = [[Lit EmptyString]]
       ++ map (fun v => [Int v])
            [0; 1; 2; 3; 4; 5; 6; 7; 8; 9; 10; 11;
             0; 1; 2; 3; 4; 5; 6; 7; 8; 9; 10; 11]%Z
       ++ [[Lit EmptyString]]
  /\ cells (names (end_cell false) (6 - 4))
     = [[Lit EmptyString]]
       ++ map (fun s => [Lit s])
            ["C"; "C$\sharp$"; "D"; "E$\flat$"; "E"; "F"; "F$\sharp$"; "G";
             "A$\flat$"; "A"; "B$\flat$"; "B";
             "C"; "C$\sharp$"; "D"; "E$\flat$"; "E"; "F"; "F$\sharp$"; "G";
             "A$\flat$"; "A"; "B$\flat$"; "B"]%string
       ++ [[Lit EmptyString]].
Proof.
  assert (H : (4 < 6)%Z) by lia.
  split; [exact H|].
  pose proof (@linear_table_rows 4 6 false false H) as T. cbv zeta in T.
  destruct T as (_ & Hv & Hc & Hn & _).
  split; [|split].
  - rewrite Hv. reflexivity.
  - rewrite Hc. reflexivity.
  - rewrite Hn. reflexivity.
Defined.

(** ** The grid of tatum rectangles *)

Lemma abs_bound_inject (z : Z) (k : Z) :
  (0 <= k)%Z -> (Z.abs z <= 2 ^ k)%Z -> Qabs (inject_Z z) <= pow2 k.
Proof.
  intros Hk Hz. rewrite pow2_nonneg_inject by exact Hk.
  assert (E : Qabs (inject_Z z) = inject_Z (Z.abs z)) by reflexivity.
  rewrite E, <- Zle_Qle. exact Hz.
Qed.

Lemma inject_Z_nonzero (k : Z) : k <> 0%Z -> ~ inject_Z k == 0.
Proof.
  intros Hk E. apply Hk. now apply (proj1 (inject_Z_injective k 0)).
Qed.

(** A part [j / n] of the length, for [0 <= j <= n], is no longer than
    the length. *)
Lemma part_bound (length_unit n j : Z) (b : Q) :
  (0 < n)%Z -> (0 <= j <= n)%Z -> Qabs (inject_Z length_unit) <= b ->
  Qabs (inject_Z (length_unit * j) / inject_Z n) <= b.
Proof.
  intros Hn Hj Hb.
  assert (Pn : 0 < inject_Z n) by (change 0 with (inject_Z 0); rewrite <- Zlt_Qlt; lia).
  assert (Hj0 : 0 <= inject_Z j) by (change 0 with (inject_Z 0); rewrite <- Zle_Qle; lia).
  assert (Hjn : inject_Z j <= inject_Z n) by (rewrite <- Zle_Qle; lia).
  assert (Hf0 : 0 <= inject_Z j / inject_Z n) by (apply Qle_shift_div_l; [exact Pn | lra]).
  assert (Hf1 : inject_Z j / inject_Z n <= 1) by (apply Qle_shift_div_r; [exact Pn | lra]).
  assert (E : inject_Z (length_unit * j) / inject_Z n
              == inject_Z length_unit * (inject_Z j / inject_Z n)).
  { rewrite inject_Z_mult. field. apply inject_Z_nonzero. lia. }
  rewrite E, Qabs_Qmult, (Qabs_pos (inject_Z j / inject_Z n)) by exact Hf0.
  pose proof (Qabs_nonneg (inject_Z length_unit)) as Ha.
  set (a := Qabs (inject_Z length_unit)) in *.
  set (f := inject_Z j / inject_Z n) in *. clearbody a f.
  apply Qle_trans with (a * 1); [|lra].
  rewrite (Qmult_comm a f), (Qmult_comm a 1).
  apply Qmult_le_compat_r; assumption.
Qed.

(** Within a length of magnitude at most [2^1023], the two divisions of
    a rectangle give floats. *)
Lemma fdiv_corners (length_unit n i : Z) :
  (Z.abs length_unit <= 2 ^ 1023)%Z -> (0 <= i < n)%Z ->
  fdiv (length_unit * i) n = Ok (quotient (length_unit * i) n)
  /\ fdiv ((i + 1) * length_unit) n = Ok (quotient ((i + 1) * length_unit) n).
Proof.
  intros HL Hi.
  pose proof (@abs_bound_inject length_unit 1023 ltac:(lia) HL) as Hb.
  split; apply fdiv_ok; try lia.
  - apply part_bound; [lia | lia | exact Hb].
  - rewrite (Z.mul_comm (i + 1) length_unit).
    apply part_bound; [lia | lia | exact Hb].
Qed.

(** The six writes of one rectangle, as lines. *)
Lemma write_rectangle_run (length_unit n i : Z) (f : file) :
  (Z.abs length_unit <= 2 ^ 1023)%Z -> (0 <= i < n)%Z ->
  write_rectangle length_unit n i f
  = (Ok tt, f ++ rectangle_lines length_unit n i).
Proof.
  intros HL Hi. destruct (@fdiv_corners length_unit n i HL Hi) as [E0 E1].
  unfold write_rectangle. io_write.
  io_step. unfold lift at 1. rewrite E0. cbv beta iota. io_write.
  io_step. unfold lift at 1. rewrite E1. cbv beta iota. do 3 io_write.
  rewrite write_run. rewrite <- !app_assoc. reflexivity.
Qed.

Lemma read_rows_rectangle (length_unit n i : Z) (rest : file)
    (row : list rectangle) :
  read_rows (rectangle_lines length_unit n i ++ rest) row
  = read_rows rest (row ++ [rectangle_at length_unit n i]).
Proof. reflexivity. Qed.

Lemma read_rows_rectangles (length_unit n : Z) (l : list Z) (rest : file)
    (row : list rectangle) :
  read_rows (flat_map (rectangle_lines length_unit n) l ++ rest) row
  = read_rows rest (row ++ map (rectangle_at length_unit n) l).
Proof.
  revert row. induction l as [|i l IH]; intro row.
  - simpl. now rewrite app_nil_r.
  - cbn [flat_map]. rewrite <- app_assoc, read_rows_rectangle, IH.
    now rewrite <- app_assoc.
Qed.

Lemma row_run (length_unit n : Z) (f : file) :
  (Z.abs length_unit <= 2 ^ 1023)%Z ->
  seq_io (for_each (range n) (fun i => write_rectangle length_unit n i))
    (fun _ => write [Lit ("\\" ++ nl)]) f
  = (Ok tt, f ++ row_lines length_unit n).
Proof.
  intro HL. io_step.
  rewrite (for_each_appends (range n) _ (rectangle_lines length_unit n)).
  - rewrite write_run. now rewrite <- app_assoc.
  - intros i g Hi. apply in_range_iff in Hi. now apply write_rectangle_run.
Qed.

Lemma read_rows_all (length_unit : Z) (l : list Z) (rest : file) :
  read_rows (flat_map (row_lines length_unit) l ++ rest) []
  = map (fun n => map (rectangle_at length_unit n) (range n)) l
    ++ read_rows rest [].
Proof.
  induction l as [|n l IH]; [reflexivity|].
  cbn [flat_map map]. unfold row_lines at 1.
  rewrite <- !app_assoc, read_rows_rectangles.
  cbn [app]. change (read_rows ([Lit ("\\" ++ nl)] :: ?r) ?row)
    with (row :: read_rows r []).
  now rewrite IH.
Qed.

Lemma grid_tatum_run (n_divs length_unit : Z) (pre : bool) :
  (Z.abs length_unit <= 2 ^ 1023)%Z ->
  grid_tatum n_divs length_unit pre
  = (Ok tt, Some (grid_lines n_divs length_unit pre)).
Proof.
  intro HL. unfold grid_tatum, with_open, grid_lines.
  assert (Hrun :
    seq_io (when pre (for_each grid_preamble write))
      (fun _ => seq_io
         (write [Lit ("\begin{tikzpicture}[scale=1, transform shape]" ++ nl)])
         (fun _ => seq_io
            (for_each (range n_divs) (fun n =>
               seq_io (for_each (range n) (fun i => write_rectangle length_unit n i))
                 (fun _ => write [Lit ("\\" ++ nl)])))
            (fun _ => write [Lit ("\end{tikzpicture}" ++ nl)]))) []
    = (Ok tt,
       (if pre then grid_preamble else [])
       ++ [[Lit ("\begin{tikzpicture}[scale=1, transform shape]" ++ nl)]]
       ++ flat_map (row_lines length_unit) (range n_divs)
       ++ [[Lit ("\end{tikzpicture}" ++ nl)]])).
  { io_step. rewrite when_writes. cbv beta iota. io_write.
    io_step. rewrite (for_each_appends (range n_divs) _ _
                        (fun n g _ => @row_run length_unit n g HL)).
    rewrite write_run. rewrite <- !app_assoc. reflexivity. }
  now rewrite Hrun.
Qed.

Lemma rows_grid_lines (n_divs length_unit : Z) (pre : bool) :
  rows (grid_lines n_divs length_unit pre)
  = map (fun n => map (rectangle_at length_unit n) (range n)) (range n_divs).
Proof.
  unfold rows, grid_lines.
  assert (Hskip : forall rest,
            read_rows ((if pre then grid_preamble else [])
                       ++ [[Lit ("\begin{tikzpicture}[scale=1, transform shape]"
                                 ++ nl)]] ++ rest) []
            = read_rows rest []) by (intro; now destruct pre).
  rewrite Hskip, read_rows_all. cbn. now rewrite app_nil_r.
Qed.

Lemma grid_tatum_rows (n_divs length_unit : Z) (pre : bool) :
  (Z.abs length_unit <= 2 ^ 1023)%Z ->
  fst (grid_tatum n_divs length_unit pre) = Ok tt
  /\ rows (written (grid_tatum n_divs length_unit pre))
     = map (fun n => map (rectangle_at length_unit n) (range n)) (range n_divs).
Proof.
  intro HL. rewrite (@grid_tatum_run n_divs length_unit pre HL). cbn [fst snd written].
  split; [reflexivity | apply rows_grid_lines].
Qed.

(** C6: the description of [grid_tatum] promises the divisions
    1/1, 1/2, ..., 1/n, each row spanning the whole length.  The default
    call, five divisions of a length of 8, completes with five rows that
    hold 0, 1, 2, 3 and 4 rectangles labelled 1/1, 1/2, 1/3 and 1/4: the
    first row is empty, so that its widths add up to 0 and not to 8, and
    no row is divided in five.  The corners are floats: in the row of
    thirds they are 0, 8/3 and 16/3 rounded to binary64, and 8, so that
    the third rectangle is wider than the other two. *)
Theorem grid_tatum_first_row_empty :
  let call := grid_tatum 5 8 false in
  fst call = Ok tt
  /\ map (map denominator) (rows (written call))
     = [[]; [1]; [2; 2]; [3; 3; 3]; [4; 4; 4; 4]]%Z
  /\ nth_error (rows (written call)) 0 = Some []
  /\ nth_error (rows (written call)) 3
     = Some [{| x_left := 0; bottom := 3;
                x_right := 6004799503160661 # 2251799813685248; top := 4;
                denominator := 3 |};
             {| x_left := 6004799503160661 # 2251799813685248; bottom := 3;
                x_right := 6004799503160661 # 1125899906842624; top := 4;
                denominator := 3 |};
             {| x_left := 6004799503160661 # 1125899906842624; bottom := 3;
                x_right := 8; top := 4; denominator := 3 |}].
Proof.
  cbv zeta.
  assert (HL : (Z.abs 8 <= 2 ^ 1023)%Z) by (apply Z.leb_le; vm_compute; reflexivity).
  destruct (@grid_tatum_rows 5 8 false HL) as [Hok Hrows].
  rewrite Hrows. split; [exact Hok|].
  split; [reflexivity|]. split; [reflexivity|].
  vm_compute. reflexivity.
Qed.


(** * Further properties *)

(** ** The check of the highlighted indices *)

Lemma resolve_highlighted_cases (ks : option (list Z)) (n : Z) :
  (highlights_valid ks n /\ resolve_highlighted ks n = Ok (highlights ks n))
  \/ (exists l k,
        ks = Some l /\ In k l /\ ~ (0 <= k < n)%Z
        /\ resolve_highlighted ks n = Raise (ValueError (highlight_message k n))).
Proof.
  destruct ks as [l|]; [|left; split; [exact I | reflexivity]].
  destruct (check_highlighted_total l n) as [Hok|(k & Hin & Hout & Hraise)].
  - left. split; [exact (proj1 (check_highlighted_ok l n) Hok)|].
    unfold resolve_highlighted. now rewrite Hok.
  - right. exists l, k. unfold resolve_highlighted. rewrite Hraise.
    now repeat split.
Qed.

Lemma resolve_highlighted_valid (ks : option (list Z)) (n : Z) :
  highlights_valid ks n -> resolve_highlighted ks n = Ok (highlights ks n).
Proof.
  intro Hv.
  destruct (resolve_highlighted_cases ks n) as [[_ H]|(l & k & -> & Hin & Hout & _)];
    [exact H|].
  elim Hout. now apply Hv.
Qed.

Lemma highlights_valid_dec (ks : option (list Z)) (n : Z) :
  highlights_valid ks n \/ ~ highlights_valid ks n.
Proof.
  destruct (resolve_highlighted_cases ks n) as [[H _]|(l & k & -> & Hin & Hout & _)];
    [now left | right].
  intro Hv. apply Hout. now apply Hv.
Qed.

(** ** Two circles *)

Lemma two_circles_body_run (inner_k : list Z) (inner_n : Z) (inner_radius : Q)
    (outer_k : list Z) (outer_n : Z) (outer_radius : Q) (pre : bool) :
  two_circles_body inner_k inner_n inner_radius outer_k outer_n outer_radius
    pre []
  = (Ok tt,
     two_circles_lines inner_k inner_n inner_radius outer_k outer_n
       outer_radius pre).
Proof.
  unfold two_circles_body.
  io_step. rewrite when_writes. cbv beta iota.
  do 4 io_write.
  io_step.
  rewrite (@node_strings_ok inner_k inner_n true false false "\innerradius")
    by discriminate.
  unfold lift at 1. cbv beta iota.
  io_step. rewrite for_each_write. cbv beta iota.
  do 3 io_write.
  io_step.
  rewrite (@node_strings_ok outer_k outer_n true false false "\outerradius")
    by discriminate.
  unfold lift at 1. cbv beta iota.
  io_step. rewrite for_each_write. cbv beta iota.
  rewrite closing_run. unfold two_circles_lines, ring_lines.
  rewrite <- !app_assoc. reflexivity.
Qed.

Lemma two_circles_valid (inner_k : option (list Z)) (inner_n : Z)
    (inner_radius : Q) (outer_k : option (list Z)) (outer_n : Z)
    (outer_radius : Q) (pre : bool) :
  highlights_valid inner_k inner_n -> highlights_valid outer_k outer_n ->
  two_circles inner_k inner_n inner_radius outer_k outer_n outer_radius pre
  = (Ok tt,
     Some (two_circles_lines (highlights inner_k inner_n) inner_n inner_radius
             (highlights outer_k outer_n) outer_n outer_radius pre)).
Proof.
  intros Hi Ho. unfold two_circles.
  rewrite (resolve_highlighted_valid _ _ Hi), (resolve_highlighted_valid _ _ Ho).
  unfold with_open. now rewrite two_circles_body_run.
Qed.

(** X1: [two_circles] completes exactly when both highlighted lists are
    acceptable, whatever the two element counts (also zero or negative);
    otherwise it raises the out-of-range error before the file is opened,
    for an index of the inner list if there is one, else for an index of
    the outer list. *)
Theorem two_circles_outcome (inner_k : option (list Z)) (inner_n : Z)
    (inner_radius : Q) (outer_k : option (list Z)) (outer_n : Z)
    (outer_radius : Q) (pre : bool) :
  let call := two_circles inner_k inner_n inner_radius outer_k outer_n
                outer_radius pre in
  (fst call = Ok tt
   <-> highlights_valid inner_k inner_n /\ highlights_valid outer_k outer_n)
  /\ (~ highlights_valid inner_k inner_n ->
      exists l k, inner_k = Some l /\ In k l /\ ~ (0 <= k < inner_n)%Z
        /\ call = (Raise (ValueError (highlight_message k inner_n)), None))
  /\ (highlights_valid inner_k inner_n -> ~ highlights_valid outer_k outer_n ->
      exists l k, outer_k = Some l /\ In k l /\ ~ (0 <= k < outer_n)%Z
        /\ call = (Raise (ValueError (highlight_message k outer_n)), None)).
Proof.
  intro call.
  assert (Hinner : ~ highlights_valid inner_k inner_n ->
      exists l k, inner_k = Some l /\ In k l /\ ~ (0 <= k < inner_n)%Z
        /\ call = (Raise (ValueError (highlight_message k inner_n)), None)).
  { intro Hn.
    destruct (resolve_highlighted_cases inner_k inner_n)
      as [[H _]|(l & k & E & Hin & Hout & Hr)]; [contradiction|].
    exists l, k. subst call. unfold two_circles. rewrite Hr. now repeat split. }
  assert (Houter : highlights_valid inner_k inner_n ->
      ~ highlights_valid outer_k outer_n ->
      exists l k, outer_k = Some l /\ In k l /\ ~ (0 <= k < outer_n)%Z
        /\ call = (Raise (ValueError (highlight_message k outer_n)), None)).
  { intros Hv Hn.
    destruct (resolve_highlighted_cases outer_k outer_n)
      as [[H _]|(l & k & E & Hin & Hout & Hr)]; [contradiction|].
    exists l, k. subst call. unfold two_circles.
    rewrite (resolve_highlighted_valid _ _ Hv), Hr. now repeat split. }
  split; [split | split; assumption].
  - intro Hok.
    destruct (highlights_valid_dec inner_k inner_n) as [Hi|Hi].
    + destruct (highlights_valid_dec outer_k outer_n) as [Ho|Ho]; [now split|].
      destruct (Houter Hi Ho) as (l & k & _ & _ & _ & E).
      rewrite E in Hok. discriminate.
    + destruct (Hinner Hi) as (l & k & _ & _ & _ & E).
      rewrite E in Hok. discriminate.
  - intros [Hi Ho]. subst call. now rewrite two_circles_valid.
Qed.

Lemma node_view_of_node_line (ks : list Z) (n : Z) (la den ton : bool)
    (rs : string) (i : Z) :
  node_view_of (node_line ks n la den ton rs i) = Some (node_view_at ks n rs i).
Proof. reflexivity. Qed.

Lemma node_views_app (f g : file) :
  node_views (f ++ g) = node_views f ++ node_views g.
Proof. apply pick_app. Qed.

Lemma node_views_node_lines (ks : list Z) (n : Z) (la den ton : bool)
    (rs : string) (l : list Z) :
  node_views (map (node_line ks n la den ton rs) l)
  = map (node_view_at ks n rs) l.
Proof. apply pick_map_some. intro i. apply node_view_of_node_line. Qed.

Lemma node_views_closing (pre : bool) : node_views (closing_lines pre) = [].
Proof. now destruct pre. Qed.

Lemma range_NoDup (n : Z) : NoDup (range n).
Proof.
  rewrite range_as_seq. apply Injective_map_NoDup; [|apply seq_NoDup].
  intros a b. apply Nat2Z.inj.
Qed.

Lemma count_occ_range (n i : Z) :
  (0 <= i < n)%Z -> count_occ Z.eq_dec (range n) i = 1%nat.
Proof.
  intro Hi. apply count_occ_once; [apply range_NoDup | now apply in_range_iff].
Qed.

Lemma index_node_views (ks : list Z) (n : Z) (rs : string) (l : list Z) :
  map index (map (node_view_at ks n rs) l) = l.
Proof. rewrite map_map. apply map_id. Qed.

(** X2: on acceptable input [two_circles] writes the nodes of the inner
    circle, placed at [\innerradius], and then those of the outer circle,
    placed at [\outerradius], each circle with its own angles and fill
    colours; both circles number their nodes from 0, so every index below
    both element counts names two nodes of the picture. *)
Theorem two_circles_nodes (inner_k : option (list Z)) (inner_n : Z)
    (inner_radius : Q) (outer_k : option (list Z)) (outer_n : Z)
    (outer_radius : Q) (pre : bool) :
  highlights_valid inner_k inner_n -> highlights_valid outer_k outer_n ->
  let call := two_circles inner_k inner_n inner_radius outer_k outer_n
                outer_radius pre in
  node_views (written call)
  = map (node_view_at (highlights inner_k inner_n) inner_n "\innerradius")
      (range inner_n)
    ++ map (node_view_at (highlights outer_k outer_n) outer_n "\outerradius")
         (range outer_n)
  /\ forall i, (0 <= i < inner_n)%Z -> (0 <= i < outer_n)%Z ->
       count_occ Z.eq_dec (map index (node_views (written call))) i = 2%nat.
Proof.
  intros Hi Ho call.
  assert (Hviews : node_views (written call)
    = map (node_view_at (highlights inner_k inner_n) inner_n "\innerradius")
        (range inner_n)
      ++ map (node_view_at (highlights outer_k outer_n) outer_n "\outerradius")
           (range outer_n)).
  { subst call. rewrite two_circles_valid by assumption.
    unfold written, two_circles_lines. cbn [snd].
    rewrite !node_views_app, !node_views_node_lines, node_views_closing.
    destruct pre; cbn [app]; now rewrite app_nil_r. }
  split; [exact Hviews|].
  intros i Hin Hout.
  rewrite Hviews, map_app, !index_node_views, count_occ_app.
  now rewrite !count_occ_range.
Qed.

(** Three in eight: all three inner nodes filled, nodes 0, 3 and 5 of the
    outer eight. *)
Lemma two_circles_nodes_witness :
  highlights_valid None 3 /\ highlights_valid (Some [0; 3; 5]%Z) 8
  /\ map (fun v => (index v, radius_name v, fill v))
       (node_views (written (two_circles None 3 (3 # 2) (Some [0; 3; 5]%Z)
                               8 2 false)))
     = [(0, "\innerradius", "black"); (1, "\innerradius", "black");
        (2, "\innerradius", "black");
        (0, "\outerradius", "black"); (1, "\outerradius", "white");
        (2, "\outerradius", "white"); (3, "\outerradius", "black");
        (4, "\outerradius", "white"); (5, "\outerradius", "black");
        (6, "\outerradius", "white"); (7, "\outerradius", "white")]%Z%string.
Proof.
  assert (Hi : highlights_valid None 3) by exact I.
  assert (Ho : highlights_valid (Some [0; 3; 5]%Z) 8).
  { simpl. intros k Hk. repeat (destruct Hk as [<-|Hk]; [lia|]). contradiction. }
  split; [exact Hi | split; [exact Ho|]].
  rewrite (proj1 (@two_circles_nodes None 3 (3 # 2) (Some [0; 3; 5]%Z) 8 2
                    false Hi Ho)).
  reflexivity.
Defined.

(** ** How a call of the single-cycle generator ends *)

Lemma single_cycle_example_run (ks : option (list Z)) (n : Z) (radius : Q)
    (lines adj ton pre : bool) :
  highlights_valid ks n ->
  single_cycle_example ks n radius lines adj ton pre
  = with_open (single_cycle_body (highlights ks n) n radius lines adj ton pre).
Proof.
  intro Hv. unfold single_cycle_example.
  now rewrite (resolve_highlighted_valid _ _ Hv).
Qed.

Lemma single_cycle_example_invalid (ks : option (list Z)) (n : Z) (radius : Q)
    (lines adj ton pre : bool) :
  ~ highlights_valid ks n ->
  exists l k, ks = Some l /\ In k l /\ ~ (0 <= k < n)%Z
    /\ single_cycle_example ks n radius lines adj ton pre
       = (Raise (ValueError (highlight_message k n)), None).
Proof.
  intro Hn.
  destruct (resolve_highlighted_cases ks n)
    as [[H _]|(l & k & E & Hin & Hout & Hr)]; [contradiction|].
  exists l, k. unfold single_cycle_example. rewrite Hr. now repeat split.
Qed.

Lemma range_nonempty (n : Z) : (1 <= n)%Z -> range n <> [].
Proof.
  intros Hn E. apply (f_equal (@length Z)) in E.
  rewrite range_length in E. simpl in E. lia.
Qed.

Lemma end_line_not_up_to_nodes (ks : list Z) (n : Z) (radius : Q)
    (ton pre : bool) :
  ~ In [Lit ("\end{tikzpicture}" ++ nl)] (up_to_nodes ks n radius ton pre).
Proof.
  unfold up_to_nodes. rewrite !in_app_iff, in_map_iff.
  intros [H|[H|[i [H _]]]].
  - destruct pre; simpl in H; [|contradiction].
    repeat (destruct H as [H|H]; [discriminate|]). contradiction.
  - simpl in H. repeat (destruct H as [H|H]; [discriminate|]). contradiction.
  - discriminate.
Qed.

(** X3: a call of the single-cycle generator completes exactly when the
    highlighted indices are acceptable, n >= 1, pitch-class labels are only
    asked for with n = 12, and it is not the adjacent line mode on an empty
    list; and the artifact holds the line that closes the picture exactly
    when the call completed. *)
Theorem single_cycle_completes_iff (ks : option (list Z)) (n : Z) (radius : Q)
    (lines adj ton pre : bool) :
  let call := single_cycle_example ks n radius lines adj ton pre in
  (fst call = Ok tt
   <-> highlights_valid ks n /\ (1 <= n)%Z /\ (ton = true -> n = 12%Z)
       /\ ~ (lines = true /\ adj = true /\ ks = Some []))
  /\ (In [Lit ("\end{tikzpicture}" ++ nl)] (written call) <-> fst call = Ok tt).
Proof.
  intro call.
  set (cond := highlights_valid ks n /\ (1 <= n)%Z /\ (ton = true -> n = 12%Z)
               /\ ~ (lines = true /\ adj = true /\ ks = Some [])).
  set (closed := In [Lit ("\end{tikzpicture}" ++ nl)] (written call)).
  assert (H : (fst call = Ok tt /\ cond /\ closed)
              \/ (fst call <> Ok tt /\ ~ cond /\ ~ closed)).
  2:{ destruct H as [(H1 & H2 & H3)|(H1 & H2 & H3)]; split; split; intro;
        assumption || contradiction. }
  subst cond closed.
  destruct (highlights_valid_dec ks n) as [Hv|Hv].
  2:{ right.
      destruct (@single_cycle_example_invalid ks n radius lines adj ton pre Hv)
        as (l & k & _ & _ & _ & E).
      fold call in E. rewrite E. unfold written. cbn [fst snd].
      split; [discriminate | split; [|intros []]].
      intros [H _]. contradiction. }
  assert (Hrun := @single_cycle_example_run ks n radius lines adj ton pre Hv).
  fold call in Hrun. unfold with_open in Hrun.
  destruct (Z.ltb_spec 0 n) as [Hn|Hn].
  2:{ right.
      rewrite single_cycle_body_domain in Hrun by assumption. rewrite Hrun.
      unfold written. cbn [fst snd].
      split; [discriminate | split].
      - intros (_ & H & _). lia.
      - intro H. destruct pre; simpl in H; [|contradiction].
        repeat (destruct H as [H|H]; [discriminate|]). contradiction. }
  assert (Hlabel : (ton = true -> n = 12%Z) \/ (ton = true /\ n <> 12%Z)).
  { destruct ton; [|left; discriminate].
    destruct (Z.eq_dec n 12); [left; auto | right; auto]. }
  destruct Hlabel as [Hton|[Et H12]].
  2:{ right. subst ton.
      rewrite single_cycle_body_label_error in Hrun by assumption. rewrite Hrun.
      unfold written. cbn [fst snd].
      split; [discriminate | split].
      - intros (_ & _ & H & _). elim H12. now apply H.
      - rewrite in_app_iff. intros [H|H].
        + destruct pre; simpl in H; [|contradiction].
          repeat (destruct H as [H|H]; [discriminate|]). contradiction.
        + simpl in H. repeat (destruct H as [H|H]; [discriminate|]).
          contradiction. }
  rewrite single_cycle_body_run in Hrun by assumption. cbv zeta in Hrun.
  assert (Hclose : forall f g,
            In [Lit ("\end{tikzpicture}" ++ nl)] (f ++ g ++ closing_lines pre)).
  { intros f g. rewrite !in_app_iff. right. right. now left. }
  assert (Hempty : highlights ks n = [] -> ks = Some []).
  { destruct ks as [l|]; simpl; [now intros ->|].
    intro E. elim (@range_nonempty n); [lia | exact E]. }
  destruct lines; [destruct adj|].
  - destruct (highlights ks n) as [|k l] eqn:Ek.
    + right. rewrite Hrun. unfold written. cbn [fst snd].
      split; [discriminate | split].
      * intros (_ & _ & _ & H). elim H. auto.
      * apply end_line_not_up_to_nodes.
    + left. rewrite Hrun. unfold written. cbn [fst snd].
      split; [reflexivity | split].
      * split; [exact Hv | split; [lia | split; [exact Hton|]]].
        intros (_ & _ & E). rewrite E in Ek. discriminate.
      * rewrite (app_assoc (map _ _)). apply Hclose.
  - left. rewrite Hrun. unfold written. cbn [fst snd].
    split; [reflexivity | split].
    + split; [exact Hv | split; [lia | split; [exact Hton|]]].
      intros (_ & H & _). discriminate.
    + apply Hclose.
  - left. rewrite Hrun. unfold written. cbn [fst snd].
    split; [reflexivity | split].
    + split; [exact Hv | split; [lia | split; [exact Hton|]]].
      intros (H & _). discriminate.
    + apply (Hclose (up_to_nodes (highlights ks n) n radius ton pre) []).
Qed.

(** ** Nodes and segments of a single cycle *)

Lemma node_views_up_to_nodes (ks : list Z) (n : Z) (radius : Q) (ton pre : bool) :
  node_views (up_to_nodes ks n radius ton pre)
  = map (node_view_at ks n "\radius") (range n).
Proof.
  unfold up_to_nodes. rewrite !node_views_app, node_views_node_lines.
  now destruct pre.
Qed.

Lemma node_views_segment_lines (l : list (Z * Z)) :
  node_views (map segment_line l) = [].
Proof.
  apply pick_none. intros t Ht. apply in_map_iff in Ht.
  now destruct Ht as [[a b] [<- _]].
Qed.

(** The nodes are written whatever happens to the lines after them. *)
Lemma node_views_single_cycle (ks : option (list Z)) (n : Z) (radius : Q)
    (lines adj ton pre : bool) :
  highlights_valid ks n -> (1 <= n)%Z -> (ton = true -> n = 12%Z) ->
  node_views (written (single_cycle_example ks n radius lines adj ton pre))
  = map (node_view_at (highlights ks n) n "\radius") (range n).
Proof.
  intros Hv Hn Hton. rewrite single_cycle_example_run by exact Hv.
  unfold written. rewrite with_open_snd.
  rewrite single_cycle_body_run by (assumption || lia). cbv zeta.
  destruct lines; [destruct adj; [destruct (highlights ks n) as [|k l]|]|];
    cbn [snd];
    rewrite ?node_views_app, ?node_views_up_to_nodes, ?node_views_segment_lines,
      ?node_views_closing, ?app_nil_r; reflexivity.
Qed.

Lemma contains_in (x : Z) (l : list Z) : contains x l = true <-> In x l.
Proof.
  unfold contains. rewrite existsb_exists. split.
  - intros [y [Hy E]]. apply Z.eqb_eq in E. now subst.
  - intro H. exists x. split; [exact H | apply Z.eqb_refl].
Qed.

Lemma colour_black (i : Z) (ks : list Z) : colour i ks = "black"%string <-> In i ks.
Proof.
  unfold colour. rewrite <- contains_in.
  destruct (contains i ks); split; intro; discriminate || reflexivity.
Qed.

Lemma range_adjacent_pairs (n : Z) :
  adjacent_pairs (range n) = map (fun i => (i, i + 1)%Z) (range (n - 1)).
Proof.
  rewrite <- adjacent_by_index, range_length, (range_as_seq (n - 1)), map_map.
  replace (Z.to_nat (n - 1)) with (Z.to_nat n - 1)%nat by lia.
  apply map_ext_in. intros k Hk. apply in_seq in Hk.
  assert (H1 : nth_error (range n) k = Some (Z.of_nat k)).
  { rewrite <- (Nat2Z.id k) at 1. apply range_nth_error. lia. }
  assert (H2 : nth_error (range n) (S k) = Some (Z.of_nat k + 1)%Z).
  { replace (Z.of_nat k + 1)%Z with (Z.of_nat (S k)) by lia.
    rewrite <- (Nat2Z.id (S k)) at 1. apply range_nth_error. lia. }
  now rewrite (nth_error_nth _ _ 0%Z H1), (nth_error_nth _ _ 0%Z H2).
Qed.

Lemma range_last (n : Z) : (1 <= n)%Z -> last (range n) 0%Z = (n - 1)%Z.
Proof.
  intro Hn.
  assert (H := @nth_error_last Z (range n) 0%Z (range_nonempty Hn)).
  rewrite range_length in H.
  replace (Z.to_nat n - 1)%nat with (Z.to_nat (n - 1)) in H by lia.
  rewrite range_nth_error in H by lia. now injection H.
Qed.

Lemma segments_adjacent (ks : option (list Z)) (n : Z) (radius : Q)
    (ton pre : bool) :
  highlights_valid ks n -> (1 <= n)%Z -> (ton = true -> n = 12%Z) ->
  highlights ks n <> [] ->
  let call := single_cycle_example ks n radius true true ton pre in
  fst call = Ok tt
  /\ segments (written call)
     = adjacent_pairs (highlights ks n) ++ [(last (highlights ks n) 0%Z, 0%Z)].
Proof.
  intros Hv Hn Hton Hne call. subst call.
  rewrite single_cycle_example_run by exact Hv.
  unfold with_open. rewrite single_cycle_body_run by (assumption || lia).
  cbv zeta. destruct (highlights ks n) as [|k l] eqn:Ek; [contradiction|].
  unfold written. cbn [fst snd]. split; [reflexivity|].
  now rewrite !segments_app, segments_up_to_nodes, segments_segment_lines,
    segments_closing, app_nil_r.
Qed.

(** X4: without a list of highlighted indices ([ks] is [None]) every one
    of the n nodes is filled, and the adjacent line mode draws the closed
    polygon through all of them: the segments i to i + 1 for i below
    n - 1, then the segment from n - 1 back to 0, n segments in all. *)
Theorem full_circle_polygon (n : Z) (radius : Q) (ton pre : bool) :
  (1 <= n)%Z -> (ton = true -> n = 12%Z) ->
  let call := single_cycle_example None n radius true true ton pre in
  fst call = Ok tt
  /\ segments (written call)
     = map (fun i => (i, i + 1)%Z) (range (n - 1)) ++ [(n - 1, 0)%Z]
  /\ length (segments (written call)) = Z.to_nat n
  /\ map index (node_views (written call)) = range n
  /\ forall v, In v (node_views (written call)) -> fill v = "black"%string.
Proof.
  intros Hn Hton call.
  assert (Hv : highlights_valid None n) by exact I.
  destruct (@segments_adjacent None n radius ton pre Hv Hn Hton
              (range_nonempty Hn)) as [Hok Hseg].
  fold call in Hok, Hseg. cbn [highlights] in Hseg.
  rewrite range_adjacent_pairs, range_last in Hseg by exact Hn.
  split; [exact Hok | split; [exact Hseg | split; [|split]]].
  - rewrite Hseg, length_app, length_map, range_length. simpl. lia.
  - subst call. rewrite node_views_single_cycle by assumption.
    apply index_node_views.
  - subst call. rewrite node_views_single_cycle by assumption.
    intros v Hin. apply in_map_iff in Hin. destruct Hin as [i [<- Hi]].
    cbn [fill node_view_at highlights]. now apply colour_black.
Qed.

(** The square: four filled nodes and the segments 0-1, 1-2, 2-3, 3-0. *)
Lemma full_circle_polygon_witness :
  (1 <= 4)%Z
  /\ segments (written (single_cycle_example None 4 1 true true false false))
     = [(0, 1); (1, 2); (2, 3); (3, 0)]%Z.
Proof.
  split; [lia|].
  rewrite (proj1 (proj2 (@full_circle_polygon 4 1 false false
                           ltac:(lia) ltac:(discriminate)))).
  reflexivity.
Defined.

(** X6: with n <= 0 no call of the single-cycle generator completes.
    Without highlighted indices (no list, or the empty list) the file is
    opened, the preamble is written if asked for, and the computation of
    the scale raises a [ValueError]; with a non-empty list the first index
    is rejected before the file is opened. *)
Theorem nonpositive_count_never_completes (ks : option (list Z)) (n : Z)
    (radius : Q) (lines adj ton pre : bool) :
  (n <= 0)%Z ->
  let call := single_cycle_example ks n radius lines adj ton pre in
  fst call <> Ok tt
  /\ (ks = None \/ ks = Some [] ->
      (exists msg, fst call = Raise (ValueError msg))
      /\ snd call = Some (if pre then Cycles.preamble else []))
  /\ (forall k l, ks = Some (k :: l) ->
        call = (Raise (ValueError (highlight_message k n)), None)).
Proof.
  intros Hn call.
  assert (Hempty : ks = None \/ ks = Some [] ->
            call = (Raise (ValueError [Lit "math domain error"%string]),
                    Some (if pre then Cycles.preamble else []))).
  { intro Hks. subst call. rewrite single_cycle_example_run.
    - unfold with_open. now rewrite single_cycle_body_domain.
    - destruct Hks as [->| ->]; simpl; [exact I | intros k []]. }
  assert (Hcons : forall k l, ks = Some (k :: l) ->
            call = (Raise (ValueError (highlight_message k n)), None)).
  { intros k l ->. subst call.
    unfold single_cycle_example, resolve_highlighted. simpl.
    assert (E : in_range k n = false).
    { unfold in_range. destruct (Z.leb_spec 0 k); [|reflexivity].
      destruct (Z.ltb_spec k n); [lia | reflexivity]. }
    now rewrite E. }
  split; [|split; [|exact Hcons]].
  - destruct ks as [[|k l]|].
    + rewrite Hempty by auto. discriminate.
    + rewrite (Hcons k l eq_refl). discriminate.
    + rewrite Hempty by auto. discriminate.
  - intro Hks. rewrite (Hempty Hks). split; [eexists|]; reflexivity.
Qed.

(** A circle of no element, with its preamble. *)
Lemma nonpositive_count_never_completes_witness :
  (0 <= 0)%Z
  /\ snd (single_cycle_example None 0 1 true true false true)
     = Some Cycles.preamble.
Proof.
  split; [lia|].
  apply (proj1 (proj2 (@nonpositive_count_never_completes None 0 1
                         true true false true ltac:(lia)))).
  now left.
Defined.

Lemma length_filter_map {X Y} (p : Y -> bool) (f : X -> Y) (l : list X) :
  length (filter p (map f l)) = length (filter (fun x => p (f x)) l).
Proof.
  induction l as [|x l IH]; simpl; [reflexivity|].
  destruct (p (f x)); simpl; now rewrite IH.
Qed.

Lemma colour_black_eqb (i : Z) (ks : list Z) :
  (colour i ks =? "black")%string = contains i ks.
Proof. unfold colour. now destruct (contains i ks). Qed.

(** X7: k in n.  When the highlighted indices are distinct, as many nodes
    are filled as indices were given; in any case the node of index i is
    filled black exactly when i is a highlighted index, and white
    otherwise. *)
Theorem highlighted_nodes_filled (ks : list Z) (n : Z) (radius : Q)
    (lines adj ton pre : bool) :
  (forall k, In k ks -> (0 <= k < n)%Z) -> (1 <= n)%Z ->
  (ton = true -> n = 12%Z) ->
  let views :=
    node_views (written (single_cycle_example (Some ks) n radius lines adj
                           ton pre)) in
  (forall v, In v views ->
     (fill v = "black"%string <-> In (index v) ks)
     /\ (fill v = "white"%string <-> ~ In (index v) ks))
  /\ (NoDup ks ->
      length (filter (fun v => (fill v =? "black")%string) views) = length ks).
Proof.
  intros Hks Hn Hton views.
  assert (Hviews : views = map (node_view_at ks n "\radius") (range n)).
  { subst views.
    now rewrite (@node_views_single_cycle (Some ks) n radius lines adj ton pre
                   Hks Hn Hton). }
  rewrite Hviews. split.
  - intros v Hv. apply in_map_iff in Hv. destruct Hv as [i [<- _]].
    cbn [fill index node_view_at]. split; [apply colour_black|].
    rewrite <- colour_black. unfold colour.
    destruct (contains i ks); split; intro H; try discriminate; try reflexivity.
    elim H. reflexivity.
  - intro Hnd. rewrite length_filter_map.
    cbn [fill node_view_at].
    rewrite (filter_ext _ (fun i => contains i ks))
      by (intro i; apply colour_black_eqb).
    apply Nat.le_antisymm.
    + apply NoDup_incl_length; [apply NoDup_filter, range_NoDup|].
      intros i Hi. apply filter_In in Hi. now apply contains_in.
    + apply NoDup_incl_length; [exact Hnd|].
      intros i Hi. apply filter_In. split.
      * apply in_range_iff. now apply Hks.
      * now apply contains_in.
Qed.

(** The tresillo: three filled nodes of eight. *)
Lemma highlighted_nodes_filled_witness :
  (forall k, In k [0; 3; 6]%Z -> (0 <= k < 8)%Z) /\ (1 <= 8)%Z
  /\ NoDup [0; 3; 6]%Z
  /\ length (filter (fun v => (fill v =? "black")%string)
               (node_views (written (single_cycle_example (Some [0; 3; 6]%Z)
                                       8 1 true true false false))))
     = 3%nat.
Proof.
  assert (Hks : forall k, In k [0; 3; 6]%Z -> (0 <= k < 8)%Z).
  { simpl. intros k Hk. repeat (destruct Hk as [<-|Hk]; [lia|]). contradiction. }
  assert (Hnd : NoDup [0; 3; 6]%Z).
  { repeat constructor; simpl; intuition discriminate. }
  split; [exact Hks | split; [lia | split; [exact Hnd|]]].
  exact (proj2 (@highlighted_nodes_filled [0; 3; 6]%Z 8 1 true true false false
                  Hks ltac:(lia) ltac:(discriminate)) Hnd).
Defined.


(** ** Label positions and the node loop *)

(** On a circle of fewer than [2^52] elements the comparisons of the float
    [i / n] with 0 and 0.5 come out as those of [2 i] with [n]. *)
Lemma compass_quadrant (i n : Z) :
  (n < 2 ^ 52)%Z -> (0 <= i < n)%Z -> compass i n = quadrant i n.
Proof.
  intros Hn Hi. unfold compass, compass_of, quadrant.
  destruct (fraction_bounds Hi) as [Hlo Hhi].
  assert (PN : 0 < inject_Z n) by (change 0 with (inject_Z 0); rewrite <- Zlt_Qlt; lia).
  assert (BN : inject_Z n < 4503599627370496).
  { change 4503599627370496 with (inject_Z (2 ^ 52)). rewrite <- Zlt_Qlt. exact Hn. }
  assert (EX : inject_Z i / inject_Z n * inject_Z n == inject_Z i).
  { field. intro E. rewrite E in PN. discriminate. }
  destruct (Z.eqb_spec i 0) as [E0|E0].
  - subst i. unfold quotient.
    assert (E : inject_Z 0 / inject_Z n == 0) by (unfold Qdiv; apply Qmult_0_l).
    now rewrite (round64_comp E).
  - assert (Hi1 : 1 <= inject_Z i).
    { change 1 with (inject_Z 1). rewrite <- Zle_Qle. lia. }
    assert (Hq0 : pow2 (-52) <= quotient i n).
    { apply round64_ge_pow2; [lia|].
      change (pow2 (-52)) with (1 # 4503599627370496).
      apply Qle_shift_div_l; [exact PN | lra]. }
    change (pow2 (-52)) with (1 # 4503599627370496) in Hq0.
    assert (Hne : Qeq_bool (quotient i n) 0 = false).
    { destruct (Qeq_bool (quotient i n) 0) eqn:E; [|reflexivity].
      apply Qeq_bool_eq in E. rewrite E in Hq0. exfalso. lra. }
    rewrite Hne.
    destruct (Z.ltb_spec (2 * i) n) as [L|L];
      [|destruct (Z.eqb_spec (2 * i) n) as [E2|E2]].
    + assert (Hx : Qabs (inject_Z i / inject_Z n) <= pow2 (-1)).
      { rewrite Qabs_pos by exact Hlo. change (pow2 (-1)) with (1 # 2).
        apply Qle_shift_div_r; [exact PN|].
        assert (H2 : 2 * inject_Z i <= inject_Z n).
        { change 2 with (inject_Z 2). rewrite <- inject_Z_mult, <- Zle_Qle. lia. }
        lra. }
      pose proof (@round64_error _ (-1) ltac:(lia) Hx) as He.
      apply Qabs_Qle_condition in He.
      change (pow2 (-1 - 53)) with (1 # 18014398509481984) in He.
      fold (quotient i n) in He.
      assert (Hlt : quotient i n < 1 # 2).
      { apply Qle_lt_trans
          with (inject_Z i / inject_Z n + (1 # 18014398509481984)); [lra|].
        apply (Qmult_lt_r _ _ (inject_Z n) PN).
        setoid_replace ((inject_Z i / inject_Z n + (1 # 18014398509481984))
                        * inject_Z n)
          with (inject_Z i / inject_Z n * inject_Z n
                + (1 # 18014398509481984) * inject_Z n) by ring.
        rewrite EX.
        assert (H2 : 2 * inject_Z i + 1 <= inject_Z n).
        { change 2 with (inject_Z 2). change 1 with (inject_Z 1).
          rewrite <- inject_Z_mult, <- inject_Z_plus, <- Zle_Qle. lia. }
        lra. }
      assert (C : (quotient i n ?= 1 # 2) = Lt) by (apply Qlt_alt; exact Hlt).
      now rewrite C.
    + assert (E : inject_Z i / inject_Z n == 1 # 2).
      { apply (Qmult_inj_r _ _ (inject_Z n));
          [intro E; rewrite E in PN; discriminate|].
        rewrite EX, <- E2, inject_Z_mult. change (inject_Z 2) with 2. ring. }
      unfold quotient. rewrite (round64_comp E). reflexivity.
    + assert (Hx : Qabs (inject_Z i / inject_Z n) <= pow2 0).
      { rewrite Qabs_pos by exact Hlo. change (pow2 0) with 1. lra. }
      pose proof (@round64_error _ 0 ltac:(lia) Hx) as He.
      apply Qabs_Qle_condition in He.
      change (pow2 (0 - 53)) with (1 # 9007199254740992) in He.
      fold (quotient i n) in He.
      assert (Hgt : 1 # 2 < quotient i n).
      { apply Qlt_le_trans
          with (inject_Z i / inject_Z n - (1 # 9007199254740992)); [|lra].
        apply (Qmult_lt_r _ _ (inject_Z n) PN).
        setoid_replace ((inject_Z i / inject_Z n - (1 # 9007199254740992))
                        * inject_Z n)
          with (inject_Z i / inject_Z n * inject_Z n
                - (1 # 9007199254740992) * inject_Z n) by ring.
        rewrite EX.
        assert (H2 : inject_Z n + 1 <= 2 * inject_Z i).
        { change 2 with (inject_Z 2). change 1 with (inject_Z 1).
          rewrite <- inject_Z_mult, <- inject_Z_plus, <- Zle_Qle. lia. }
        lra. }
      assert (C : (quotient i n ?= 1 # 2) = Gt) by (apply Qgt_alt; exact Hgt).
      now rewrite C.
Qed.

(** X9: with [label_angles] off, on a circle of fewer than 2^52
    elements, the position read off the line of the node of index i is
    above for element 0, to the right for the elements before the half-way
    point, below for the element half way round (when n is even) and to
    the left for the others. *)
Theorem compass_labels (ks : list Z) (n : Z) (den : bool) (rs : string) :
  (1 <= n < 2 ^ 52)%Z ->
  exists l,
    node_strings ks n false den false rs = Ok l
    /\ map (fun v => (labelled v, position v)) (node_labels l)
       = map (fun i => (i, Lit (quadrant i n))) (range n)
    /\ forall i, (0 <= i < n)%Z ->
         (exists line v,
             nth_error l (Z.to_nat i) = Some line
             /\ node_label_of line = Some v
             /\ labelled v = i /\ position v = Lit (quadrant i n))
         /\ (quadrant i n = "above"%string <-> i = 0%Z)
         /\ (quadrant i n = "right"%string <-> (0 < 2 * i < n)%Z)
         /\ (quadrant i n = "below"%string <-> (2 * i = n)%Z)
         /\ (quadrant i n = "left"%string <-> (n < 2 * i)%Z).
Proof.
  intro Hn. exists (map (node_line ks n false den false rs) (range n)).
  split; [apply node_strings_ok; discriminate|].
  assert (Hpos : forall i, (0 <= i < n)%Z ->
             label_position false i n = Lit (quadrant i n)).
  { intros i Hi. unfold label_position, label_position_of.
    fold (compass i n). now rewrite compass_quadrant by lia. }
  split.
  - unfold node_labels.
    rewrite (pick_map_some _ _ _ _ (node_label_of_node_line ks n false den false rs)).
    rewrite map_map. apply map_ext_in. intros i Hi.
    apply in_range_iff in Hi. cbn [labelled position]. now rewrite Hpos.
  - intros i Hi. split.
    + exists (node_line ks n false den false rs i),
        {| labelled := i; position := label_position false i n;
           shown := label_text den false i n |}.
      split; [|split; [|split]].
      * now rewrite nth_error_map, range_nth_error by exact Hi.
      * apply node_label_of_node_line.
      * reflexivity.
      * cbn [position]. now apply Hpos.
    + unfold quadrant.
      destruct (Z.eqb_spec i 0) as [E|E];
        [|destruct (Z.ltb_spec (2 * i) n) as [L|L];
          [|destruct (Z.eqb_spec (2 * i) n) as [E2|E2]]];
        (split; [|split; [|split]]);
        (split; intro H; try discriminate; try reflexivity; try lia).
Qed.

(** Eight positions: above, three to the right, below, three to the left. *)
Lemma compass_labels_witness :
  (1 <= 8 < 2 ^ 52)%Z
  /\ exists l,
       node_strings [] 8 false false false "\radius" = Ok l
       /\ map position (node_labels l)
          = [Lit "above"; Lit "right"; Lit "right"; Lit "right"; Lit "below";
             Lit "left"; Lit "left"; Lit "left"]%string.
Proof.
  assert (H : (1 <= 8 < 2 ^ 52)%Z) by (split; [lia | reflexivity]).
  split; [exact H|].
  destruct (@compass_labels [] 8 false "\radius" H) as (l & Hl & Hp & _).
  exists l. split; [exact Hl|].
  assert (Hq : map position (node_labels l)
               = map snd (map (fun i => (i, Lit (quadrant i 8))) (range 8))).
  { rewrite <- Hp, map_map. reflexivity. }
  rewrite Hq. reflexivity.
Defined.

(** X10: the look-up in the pitch-name table never leaves the table: the
    node loop returns its n lines (none for n <= 0), or refuses pitch-class
    labels for n other than 12; it raises nothing else. *)
Theorem node_strings_outcomes (ks : list Z) (n : Z) (la den ton : bool)
    (rs : string) :
  (exists l, node_strings ks n la den ton rs = Ok l /\ length l = Z.to_nat n
             /\ (ton = true -> n = 12%Z))
  \/ (ton = true /\ n <> 12%Z
      /\ node_strings ks n la den ton rs
         = Raise (ValueError (label_mode_message n))).
Proof.
  destruct ton.
  - destruct (Z.eq_dec n 12) as [E|E].
    + left. exists (map (node_line ks n la den true rs) (range n)).
      split; [now apply node_strings_ok | split; [|auto]].
      now rewrite length_map, range_length.
    + right. split; [reflexivity | split; [exact E|]].
      now apply node_strings_invalid.
  - left. exists (map (node_line ks n la den false rs) (range n)).
    split; [apply node_strings_ok; discriminate | split; [|discriminate]].
    now rewrite length_map, range_length.
Qed.

(** ** More on the linear table *)

Lemma range2_nil (a b : Z) : (b <= a)%Z -> range2 a b = [].
Proof. apply range2_empty. Qed.

Lemma list_mul_nonpositive {X} (l : list X) (k : Z) :
  (k <= 0)%Z -> list_mul l k = [].
Proof.
  intro H. unfold list_mul. now replace (Z.to_nat k) with 0%nat by lia.
Qed.

(** X11: with end_octave <= start_octave the table has no column between
    its two end cells: the call still completes, each of the three rows is
    just the two end cells, and the column specification is [c|c]. *)
Theorem table_without_columns (start_octave end_octave : Z)
    (include_preamble open_ended : bool) :
  (end_octave <= start_octave)%Z ->
  let d := end_cell open_ended in
  let row := join separator (d ++ d) in
  midi_pitch_pc_table start_octave end_octave include_preamble open_ended
  = (Ok tt,
     Some (table_lines include_preamble open_ended
             (end_octave - start_octave) row row row))
  /\ ccs (end_octave - start_octave) = "c|c"%string
  /\ ints_of row = [] /\ names_of row = [].
Proof.
  intros Hle d row.
  rewrite midi_pitch_pc_table_run.
  unfold midis, names, pcs, ints.
  rewrite range2_nil by lia.
  rewrite !list_mul_nonpositive by lia.
  cbn [map app]. fold d. fold row.
  split; [reflexivity | split; [|split]].
  - unfold ccs, str_mul.
    now replace (Z.to_nat (end_octave - start_octave)) with 0%nat by lia.
  - subst row d. now destruct open_ended.
  - subst row d. now destruct open_ended.
Qed.

(** Octave 5 to octave 5, open-ended: two ellipses and nothing between. *)
Lemma table_without_columns_witness :
  (5 <= 5)%Z
  /\ midi_pitch_pc_table 5 5 false true
     = (Ok tt,
        Some (table_lines false true 0
                [Lit "\dots"; Lit " & "; Lit "\dots"]
                [Lit "\dots"; Lit " & "; Lit "\dots"]
                [Lit "\dots"; Lit " & "; Lit "\dots"])).
Proof.
  split; [lia|].
  exact (proj1 (@table_without_columns 5 5 false true ltac:(lia))).
Defined.

Lemma count_char_app (c : ascii) (s1 s2 : string) :
  count_char c (s1 ++ s2) = (count_char c s1 + count_char c s2)%nat.
Proof.
  induction s1 as [|a s1 IH]; simpl; [reflexivity|]. rewrite IH. lia.
Qed.

Lemma count_char_string_rep (c : ascii) (s : string) (k : nat) :
  count_char c (string_rep s k) = (k * count_char c s)%nat.
Proof.
  induction k as [|k IH]; simpl; [reflexivity|].
  now rewrite count_char_app, IH.
Qed.

Lemma separators_app (t1 t2 : text) :
  separators (t1 ++ t2) = (separators t1 + separators t2)%nat.
Proof. unfold separators. now rewrite filter_app, length_app. Qed.

(** Joining cells that hold no separator puts one between any two. *)
Lemma separators_join (cells : list text) :
  (forall c, In c cells -> separators c = 0%nat) ->
  separators (join separator cells) = (length cells - 1)%nat.
Proof.
  induction cells as [|c cells IH]; intro H; [reflexivity|].
  destruct cells as [|c' cells].
  - simpl. apply H. now left.
  - change (join separator (c :: c' :: cells))
      with (c ++ separator ++ join separator (c' :: cells)).
    rewrite !separators_app, IH by (intros; apply H; now right).
    rewrite (H c) by now left. simpl. lia.
Qed.

Lemma separators_row (oe : bool) (cells : list text) :
  (forall c, In c cells -> separators c = 0%nat) ->
  (separators (join separator (end_cell oe ++ cells ++ end_cell oe)) + 1
   = length cells + 2)%nat.
Proof.
  intro H. rewrite separators_join.
  - rewrite !length_app. destruct oe; simpl; lia.
  - intros c Hc. rewrite !in_app_iff in Hc.
    destruct Hc as [Hc|[Hc|Hc]]; [|now apply H|];
      destruct oe; simpl in Hc; destruct Hc as [<-|[]]; reflexivity.
Qed.

(** X12: the column specification of the table has one [c] per cell of a
    row: each of the three rows is joined from 12 octaves + 2 cells (the
    two end cells included), and [ccs] holds as many letters c and one
    bar per octave plus one; the count of octaves is 0 when end_octave <=
    start_octave. *)
Theorem table_columns_match (start_octave end_octave : Z) (open_ended : bool) :
  let octaves := (end_octave - start_octave)%Z in
  let d := end_cell open_ended in
  let cells := (12 * Z.to_nat octaves + 2)%nat in
  count_char "c" (ccs octaves) = cells
  /\ count_char "|" (ccs octaves) = (Z.to_nat octaves + 1)%nat
  /\ (separators (midis d start_octave end_octave) + 1 = cells)%nat
  /\ (separators (names d octaves) + 1 = cells)%nat
  /\ (separators (pcs d octaves) + 1 = cells)%nat.
Proof.
  intros octaves d cells. subst cells d.
  assert (Hints : forall l : list Z, forall c,
            In c (map cell_int l) -> separators c = 0%nat).
  { intros l c Hc. apply in_map_iff in Hc. now destruct Hc as [x [<- _]]. }
  assert (Hnames : forall c,
            In c (map cell_name (list_mul Utils.pitch_name_list octaves)) ->
            separators c = 0%nat).
  { intros c Hc. apply in_map_iff in Hc. destruct Hc as [x [<- Hx]].
    apply in_list_mul in Hx. simpl in Hx.
    repeat (destruct Hx as [<-|Hx]; [reflexivity|]). contradiction. }
  split; [|split; [|split; [|split]]].
  - unfold ccs, str_mul.
    rewrite !count_char_app, count_char_string_rep. simpl. lia.
  - unfold ccs, str_mul.
    rewrite !count_char_app, count_char_string_rep. simpl. lia.
  - unfold midis. rewrite separators_row by apply Hints.
    rewrite length_map. unfold ints. rewrite range2_length. lia.
  - unfold names. rewrite separators_row by exact Hnames.
    rewrite length_map, list_mul_length. simpl length. lia.
  - unfold pcs. rewrite separators_row by apply Hints.
    rewrite length_map, list_mul_length, range_length. lia.
Qed.

(** X13: the columns are aligned: under a cell that holds the value v,
    the class row holds v mod 12 and the name row the name of pitch class
    v mod 12, also for negative values (octaves below 0). *)
Theorem table_columns_aligned (start_octave end_octave : Z) (open_ended : bool)
    (c : nat) (v : Z) :
  let octaves := (end_octave - start_octave)%Z in
  let d := end_cell open_ended in
  nth_error (cells (midis d start_octave end_octave)) c = Some [Int v] ->
  nth_error (cells (pcs d octaves)) c = Some [Int (v mod 12)]
  /\ (exists name,
         nth_error Utils.pitch_name_list (Z.to_nat (v mod 12)) = Some name
         /\ nth_error (cells (names d octaves)) c = Some [Lit name])
  /\ (0 <= v mod 12 < 12)%Z.
Proof.
  intros octaves d Hv. subst d.
  unfold midis in Hv.
  rewrite cells_of_row in Hv by (intros; repeat constructor).
  destruct c as [|k]; [discriminate Hv|]. cbn [app nth_error] in Hv.
  assert (Hlen : length (map cell_int (ints start_octave end_octave))
                 = Z.to_nat (12 * octaves)).
  { rewrite length_map. unfold ints. rewrite range2_length. subst octaves. f_equal. lia. }
  assert (Hk : (k < Z.to_nat (12 * octaves))%nat).
  { destruct (Nat.lt_ge_cases k (Z.to_nat (12 * octaves))) as [H|H]; [exact H|].
    rewrite nth_error_app2 in Hv by (rewrite Hlen; exact H).
    rewrite Hlen in Hv.
    destruct (k - Z.to_nat (12 * octaves))%nat as [|j];
      [discriminate Hv | destruct j; discriminate Hv]. }
  rewrite nth_error_app1 in Hv by (rewrite Hlen; exact Hk).
  rewrite nth_error_map in Hv. unfold ints in Hv.
  rewrite range2_nth_error in Hv by (subst octaves; lia).
  cbn [option_map cell_int] in Hv. injection Hv as <-.
  assert (Hmod : ((start_octave * 12 + Z.of_nat k) mod 12
                  = Z.of_nat (k mod 12))%Z).
  { rewrite Z.add_comm, Z.mod_add by lia. now rewrite Nat2Z.inj_mod. }
  rewrite Hmod. pose proof (Nat.mod_upper_bound k 12 ltac:(lia)) as Hb.
  split; [|split; [|lia]].
  - unfold pcs. rewrite cells_of_row by (intros; repeat constructor).
    cbn [app nth_error].
    rewrite nth_error_app1
      by (rewrite length_map, list_mul_length, range_length; lia).
    rewrite nth_error_map.
    rewrite list_mul_nth_error by (rewrite range_length; lia).
    rewrite range_length. change (Z.to_nat 12) with 12%nat.
    rewrite <- (Nat2Z.id (k mod 12)) at 1.
    rewrite range_nth_error by lia. reflexivity.
  - exists (nth (k mod 12) Utils.pitch_name_list EmptyString).
    rewrite Nat2Z.id.
    split; [apply nth_error_nth'; exact Hb|].
    unfold names.
    rewrite cells_of_row
      by (intros s Hs; apply name_cell_no_separator; now apply in_list_mul in Hs).
    cbn [app nth_error].
    rewrite nth_error_app1
      by (rewrite length_map, list_mul_length; simpl length; lia).
    rewrite nth_error_map.
    rewrite list_mul_nth_error by (simpl length; lia).
    simpl length.
    rewrite (nth_error_nth' _ EmptyString) by exact Hb. reflexivity.
Qed.

(** Octave -1: the value -7 stands over class 5 and the name F. *)
Lemma table_columns_aligned_witness :
  nth_error (cells (midis (end_cell false) (-1) 1)) 6 = Some [Int (-7)]
  /\ nth_error (cells (pcs (end_cell false) (1 - -1))) 6 = Some [Int 5]
  /\ nth_error (cells (names (end_cell false) (1 - -1))) 6 = Some [Lit "F"].
Proof.
  assert (H : nth_error (cells (midis (end_cell false) (-1) 1)) 6
              = Some [Int (-7)]) by reflexivity.
  split; [exact H|].
  destruct (@table_columns_aligned (-1) 1 false 6 (-7) H)
    as (H1 & (name & Hn & H2) & _).
  split; [exact H1|].
  injection Hn as <-. exact H2.
Defined.

(** ** Preambles that are never closed *)

Lemma string_app_assoc (a b c : string) :
  ((a ++ b) ++ c = a ++ (b ++ c))%string.
Proof. induction a as [|x a IH]; simpl; [reflexivity | now rewrite IH]. Qed.

Lemma clash_app (p s t : string) :
  clash p s = true -> clash p (s ++ t) = true.
Proof.
  revert s. induction p as [|a p IH]; intros s H; [discriminate H|].
  destruct s as [|b s]; [discriminate H|]. simpl in *.
  destruct (Ascii.eqb a b); [now apply IH | reflexivity].
Qed.

Lemma safe_app (pat s t : string) :
  safe pat s = true -> safe pat t = true -> safe pat (s ++ t) = true.
Proof.
  intros Hs Ht. induction s as [|c s IH]; [exact Ht|].
  simpl in Hs. apply andb_true_iff in Hs. destruct Hs as [Hc Hs].
  change (safe pat (String c s ++ t))
    with (clash pat (String c s ++ t) && safe pat (s ++ t)).
  now rewrite (clash_app _ _ t Hc), IH.
Qed.

Lemma clash_self (pat b : string) : clash pat (pat ++ b) = false.
Proof.
  induction pat as [|c pat IH]; [reflexivity|].
  simpl. now rewrite Ascii.eqb_refl.
Qed.

(** A safe string holds no occurrence of the pattern. *)
Lemma safe_no_occurrence (pat s : string) :
  pat <> EmptyString -> safe pat s = true -> ~ occurs pat s.
Proof.
  intros Hne Hs (a & b & E). subst s.
  induction a as [|x a IH].
  - destruct pat as [|c pat]; [contradiction|].
    change (safe (String c pat) (String c (pat ++ b)) = true) in Hs.
    simpl in Hs. rewrite Ascii.eqb_refl, clash_self in Hs. discriminate Hs.
  - simpl in Hs. apply andb_true_iff in Hs. now apply IH.
Qed.

Lemma free_safe (c : ascii) (pat s : string) :
  free c s = true -> safe (String c pat) s = true.
Proof.
  induction s as [|d s IH]; [reflexivity|].
  simpl. intro H. apply andb_true_iff in H. destruct H as [Hd Hs].
  apply negb_true_iff in Hd. rewrite Ascii.eqb_sym, Hd. now apply IH.
Qed.

Lemma free_app (c : ascii) (s t : string) :
  free c (s ++ t) = free c s && free c t.
Proof.
  induction s as [|d s IH]; [reflexivity|].
  simpl. now rewrite IH, andb_assoc.
Qed.

Lemma free_string_rep (c : ascii) (s : string) (k : nat) :
  free c s = true -> free c (string_rep s k) = true.
Proof.
  intro H. induction k as [|k IH]; [reflexivity|].
  simpl. now rewrite free_app, H, IH.
Qed.

(** The numeral of an int holds digits and a sign only. *)
Lemma free_str_int (z : Z) : free "\" (str_int z) = true.
Proof.
  unfold str_int.
  assert (Hu : forall d, free "\" (NilEmpty.string_of_uint d) = true).
  { induction d; simpl; try reflexivity; exact IHd. }
  assert (Hz : forall d, free "\" (NilZero.string_of_uint d) = true).
  { intro d. destruct d; try reflexivity; apply (Hu (_ d)). }
  destruct (Z.to_int z) as [d|d]; simpl; [apply Hz|].
  now rewrite Hz.
Qed.

Section Rendered.
Variable repr_float : Q -> string.
Variable math_log2 : Z -> Q.
Variable pat : string.
Hypothesis repr_float_free : forall q, free "\" (repr_float q) = true.
Hypothesis pat_end :
  pat = "\end{document}"%string \/ pat = "\end{table}"%string.

(** A piece that no occurrence of [pat] can start in. *)
Let ok (p : piece) : Prop :=
  safe pat (render_piece repr_float math_log2 p) = true.

Lemma ok_free (p : piece) :
  free "\" (render_piece repr_float math_log2 p) = true -> ok p.
Proof.
  intro H. unfold ok. destruct pat_end as [-> | ->]; now apply free_safe.
Qed.

Lemma ok_int (z : Z) : ok (Int z).
Proof. apply ok_free, free_str_int. Qed.

Lemma ok_float (q : Q) : ok (Float q).
Proof. apply ok_free, repr_float_free. Qed.

Lemma render_app (t1 t2 : text) :
  render repr_float math_log2 (t1 ++ t2)
  = (render repr_float math_log2 t1 ++ render repr_float math_log2 t2)%string.
Proof.
  induction t1 as [|p t1 IH]; [reflexivity|].
  change (render repr_float math_log2 ((p :: t1) ++ t2)%list)
    with (render_piece repr_float math_log2 p
          ++ render repr_float math_log2 (t1 ++ t2)%list)%string.
  change (render repr_float math_log2 (p :: t1))
    with (render_piece repr_float math_log2 p
          ++ render repr_float math_log2 t1)%string.
  now rewrite IH, string_app_assoc.
Qed.

Lemma safe_render (t : text) :
  Forall ok t -> safe pat (render repr_float math_log2 t) = true.
Proof.
  induction 1 as [|p t Hp _ IH]; [reflexivity|].
  change (render repr_float math_log2 (p :: t))
    with (render_piece repr_float math_log2 p
          ++ render repr_float math_log2 t)%string.
  now apply safe_app.
Qed.

(** An artifact made of such pieces holds no occurrence of [pat]. *)
Lemma rendered_without (f : file) :
  Forall (Forall ok) f -> ~ occurs pat (rendered repr_float math_log2 f).
Proof.
  intro H. apply safe_no_occurrence.
  - destruct pat_end as [-> | ->]; discriminate.
  - apply safe_render. now apply Forall_concat.
Qed.

Lemma Forall_join (P : piece -> Prop) (sep : text) (l : list text) :
  Forall P sep -> Forall (Forall P) l -> Forall P (join sep l).
Proof.
  intros Hsep Hl. induction Hl as [|c l Hc Hl IH]; [constructor|].
  destruct l as [|c' l]; [exact Hc|].
  change (join sep (c :: c' :: l)) with (c ++ sep ++ join sep (c' :: l)).
  rewrite !Forall_app. auto.
Qed.

Ltac ok_pieces :=
  repeat first [apply Forall_nil | apply Forall_cons];
  try apply ok_int; try apply ok_float;
  try (unfold ok; destruct pat_end as [-> | ->]; reflexivity).

Lemma ok_row {X} (oe : bool) (cell : X -> text) (l : list X) :
  (forall x, In x l -> Forall ok (cell x)) ->
  Forall ok (join separator (end_cell oe ++ map cell l ++ end_cell oe)
             ++ [Lit nl]).
Proof.
  intro Hl. rewrite Forall_app. split; [|ok_pieces].
  apply Forall_join; [unfold separator; ok_pieces|].
  rewrite !Forall_app. split; [|split].
  - destruct oe; ok_pieces.
  - apply Forall_forall. intros c Hc. apply in_map_iff in Hc.
    destruct Hc as [x [<- Hx]]. now apply Hl.
  - destruct oe; ok_pieces.
Qed.

Lemma ok_ccs (octaves : Z) : ok (Lit (ccs octaves)).
Proof.
  apply ok_free. unfold ccs, str_mul. cbn [render_piece].
  rewrite !free_app, free_string_rep by reflexivity. reflexivity.
Qed.

Lemma ok_table (s e : Z) (pre oe : bool) :
  Forall (Forall ok)
    (table_lines pre oe (e - s) (midis (end_cell oe) s e)
       (names (end_cell oe) (e - s)) (pcs (end_cell oe) (e - s))).
Proof.
  assert (Hv : Forall ok (midis (end_cell oe) s e ++ [Lit nl])).
  { unfold midis. apply ok_row. intros; unfold cell_int; ok_pieces. }
  assert (Hn : Forall ok (names (end_cell oe) (e - s) ++ [Lit nl])).
  { unfold names. apply ok_row. intros x Hx. apply in_list_mul in Hx.
    simpl in Hx. unfold cell_name.
    repeat (destruct Hx as [<-|Hx]; [ok_pieces|]). contradiction. }
  assert (Hc : Forall ok (pcs (end_cell oe) (e - s) ++ [Lit nl])).
  { unfold pcs. apply ok_row. intros; unfold cell_int; ok_pieces. }
  unfold table_lines, row_label. rewrite !Forall_app.
  repeat split;
    try (destruct pre; unfold LinearTable.preamble; ok_pieces);
    try (destruct oe; ok_pieces);
    repeat first [apply Forall_nil | apply Forall_cons];
    try assumption; try (ok_pieces; apply ok_ccs).
Qed.

Lemma appends_ret {A} (a : A) : appends ok (ret a).
Proof. intro f. exists []. now rewrite app_nil_r. Qed.

Lemma appends_lift {A} (r : res A) : appends ok (lift r).
Proof. intro f. exists []. now rewrite app_nil_r. Qed.

Lemma appends_write (t : text) : Forall ok t -> appends ok (write t).
Proof. intros Ht f. exists [t]. split; [reflexivity | now constructor]. Qed.

Lemma appends_seq {A B} (m : io A) (k : A -> io B) :
  appends ok m -> (forall a, appends ok (k a)) -> appends ok (seq_io m k).
Proof.
  intros Hm Hk f. unfold seq_io.
  destruct (Hm f) as (g & Eg & Hg).
  destruct (m f) as [[a|e] f']; cbn [snd] in Eg; subst f'.
  - destruct (Hk a (f ++ g)) as (g' & Eg' & Hg').
    exists (g ++ g'). rewrite Eg', <- app_assoc. split; [reflexivity|].
    apply Forall_app. now split.
  - exists g. now split.
Qed.

Lemma appends_for_each {A} (l : list A) (body : A -> io unit) :
  (forall x, appends ok (body x)) -> appends ok (for_each l body).
Proof.
  intro Hb. induction l as [|x l IH]; [apply appends_ret|].
  simpl. apply appends_seq; [apply Hb | intros _; exact IH].
Qed.

Lemma appends_rectangle (length_unit n i : Z) :
  appends ok (write_rectangle length_unit n i).
Proof.
  unfold write_rectangle.
  repeat first [ apply appends_seq; [|intro]
               | apply appends_lift
               | apply appends_write; ok_pieces ].
Qed.

(** Whatever the call of [grid_tatum] comes to, its artifact starts with
    the preamble, when that is asked for, and is made of such pieces. *)
Lemma grid_tatum_written (n_divs length_unit : Z) (pre : bool) :
  exists g,
    written (grid_tatum n_divs length_unit pre)
    = (if pre then grid_preamble else []) ++ g
    /\ Forall (Forall ok) ((if pre then grid_preamble else []) ++ g).
Proof.
  unfold written, grid_tatum. rewrite with_open_snd.
  io_step. rewrite when_writes. cbv beta iota. cbn [app].
  match goal with
  | |- context [snd (?m ?f)] =>
      assert (Hm : appends ok m)
  end.
  { repeat first [ apply appends_rectangle
                 | apply appends_seq; [|intro]
                 | apply appends_for_each; intro
                 | apply appends_write; ok_pieces ]. }
  destruct (Hm (if pre then grid_preamble else [])) as (g & Eg & Hg).
  exists g. split; [exact Eg|].
  apply Forall_app. split; [|exact Hg].
  destruct pre; unfold grid_preamble; ok_pieces.
Qed.

End Rendered.

Lemma occurs_app_l (pat s t : string) : occurs pat s -> occurs pat (s ++ t).
Proof.
  intros (a & b & ->). exists a, (b ++ t)%string.
  now rewrite !string_app_assoc.
Qed.

Lemma rendered_app (repr_float : Q -> string) (math_log2 : Z -> Q)
    (f g : file) :
  rendered repr_float math_log2 (f ++ g)
  = (rendered repr_float math_log2 f ++ rendered repr_float math_log2 g)%string.
Proof. unfold rendered. now rewrite concat_app, render_app. Qed.

(** X14: the preamble of the linear table and of the grid opens a document
    and a table environment that the call never closes.  Whatever the
    arguments and however the call ends, the characters written to the
    artifact, those of all writes one after the other, hold neither
    [\end{document}] nor [\end{table}], provided that the text of a float
    holds no backslash; with the preamble on they do hold
    [\begin{document}] and [\begin{table}]. *)
Theorem preamble_never_closed (start_octave end_octave n_divs length_unit : Z)
    (include_preamble open_ended : bool) (repr_float : Q -> string)
    (math_log2 : Z -> Q) (s : string) :
  (forall q, free "\" (repr_float q) = true) ->
  s = "\end{document}"%string \/ s = "\end{table}"%string ->
  let table :=
    rendered repr_float math_log2
      (written (midi_pitch_pc_table start_octave end_octave
                  include_preamble open_ended)) in
  let grid :=
    rendered repr_float math_log2
      (written (grid_tatum n_divs length_unit include_preamble)) in
  ~ occurs s table /\ ~ occurs s grid
  /\ (include_preamble = true ->
      occurs "\begin{document}" table /\ occurs "\begin{table}" table
      /\ occurs "\begin{document}" grid /\ occurs "\begin{table}" grid).
Proof.
  intros Hrf Hs table grid. subst table grid.
  destruct (@grid_tatum_written repr_float math_log2 s Hrf Hs
              n_divs length_unit include_preamble) as (g & Eg & Hg).
  rewrite Eg, midi_pitch_pc_table_run. unfold written at 1. cbn [snd].
  split; [|split].
  - apply (@rendered_without repr_float math_log2 s Hs). now apply ok_table.
  - now apply (@rendered_without repr_float math_log2 s Hs).
  - intros ->. unfold table_lines, written. cbn [snd].
    change (if true then LinearTable.preamble else []) with LinearTable.preamble.
    change (if true then grid_preamble else []) with grid_preamble.
    rewrite (rendered_app repr_float math_log2 LinearTable.preamble).
    rewrite (rendered_app repr_float math_log2 grid_preamble).
    split; [|split; [|split]]; apply occurs_app_l.
    + exists ("\documentclass{standalone}" ++ nl)%string,
        (nl ++ "\begin{table}[h!]" ++ nl ++ "\centering" ++ nl
         ++ "\caption{MIDI Pitch to Pitch Class Mapping}" ++ nl)%string.
      reflexivity.
    + exists ("\documentclass{standalone}" ++ nl ++ "\begin{document}" ++ nl)%string,
        ("[h!]" ++ nl ++ "\centering" ++ nl
         ++ "\caption{MIDI Pitch to Pitch Class Mapping}" ++ nl)%string.
      reflexivity.
    + exists ("\documentclass{standalone}" ++ nl)%string,
        (nl ++ "\begin{table}[h!]" ++ nl ++ "\centering" ++ nl)%string.
      reflexivity.
    + exists ("\documentclass{standalone}" ++ nl ++ "\begin{document}" ++ nl)%string,
        ("[h!]" ++ nl ++ "\centering" ++ nl)%string.
      reflexivity.
Qed.

(** Octaves 4 to 6 and five divisions, both with their preamble and with
    every float written as its integer part. *)
Lemma preamble_never_closed_witness :
  (forall q, free "\" (str_int (Qfloor q)) = true)
  /\ ("\end{document}" = "\end{document}" \/ "\end{document}" = "\end{table}")%string
  /\ ~ occurs "\end{document}"
         (rendered (fun q => str_int (Qfloor q)) inject_Z
            (written (midi_pitch_pc_table 4 6 true false)))
  /\ ~ occurs "\end{document}"
         (rendered (fun q => str_int (Qfloor q)) inject_Z
            (written (grid_tatum 5 8 true))).
Proof.
  assert (Hrf : forall q, free "\" (str_int (Qfloor q)) = true)
    by (intro q; apply free_str_int).
  assert (H : ("\end{document}" = "\end{document}"
               \/ "\end{document}" = "\end{table}")%string) by now left.
  split; [exact Hrf | split; [exact H|]].
  destruct (@preamble_never_closed 4 6 5 8 true false
              (fun q => str_int (Qfloor q)) inject_Z _ Hrf H) as (H1 & H2 & _).
  split; [exact H1 | exact H2].
Defined.

(** ** More on the grid *)

Lemma range_succ (m : nat) :
  range (Z.of_nat (S m)) = range (Z.of_nat m) ++ [Z.of_nat m].
Proof.
  rewrite !range_as_seq, !Nat2Z.id, seq_S, map_app. reflexivity.
Qed.

Lemma triangle_rows_length (length_unit : Z) (m : nat) :
  (2 * length (concat (map (fun n => map (rectangle_at length_unit n) (range n))
                         (range (Z.of_nat m))))
   = m * (m - 1))%nat.
Proof.
  induction m as [|m IH]; [reflexivity|].
  rewrite range_succ, map_app, concat_app, length_app.
  cbn [map concat]. rewrite app_nil_r, length_map, range_length, Nat2Z.id.
  nia.
Qed.

Lemma round64_opp (x : Q) : round64 (- x) == - round64 x.
Proof.
  unfold round64. rewrite Qred_opp.
  destruct (Qred x) as [p q]. destruct p; simpl; try reflexivity.
  ring.
Qed.

(** A value of magnitude [2^1024] or more is rounded out of the floats. *)
Lemma overflows_big (x : Q) : pow2 1024 <= Qabs x -> overflows (round64 x) = true.
Proof.
  intro H. unfold overflows. apply Qle_bool_iff.
  destruct (Qlt_le_dec x 0) as [Hneg|Hpos].
  - rewrite Qabs_neg in H by lra.
    assert (E : x == - - x) by ring.
    rewrite (round64_comp E), round64_opp, Qabs_opp.
    apply Qabs_ge. apply round64_ge_pow2; [lia | exact H].
  - rewrite Qabs_pos in H by exact Hpos.
    apply Qabs_ge. apply round64_ge_pow2; [lia | exact H].
Qed.

Lemma fdiv_overflow (a : Z) :
  (2 ^ 1024 <= Z.abs a)%Z -> fdiv a 1 = Raise OverflowError.
Proof.
  intro H. unfold fdiv, quotient. cbn [Z.eqb].
  rewrite (@overflows_big (inject_Z a / inject_Z 1)); [reflexivity|].
  assert (E : inject_Z a / inject_Z 1 == inject_Z a) by (unfold Qdiv; change (/ inject_Z 1) with 1; ring).
  rewrite E, pow2_nonneg_inject by lia.
  change (Qabs (inject_Z a)) with (inject_Z (Z.abs a)).
  rewrite <- Zle_Qle. exact H.
Qed.

Lemma range_two_more (n : Z) :
  (2 <= n)%Z -> range n = 0%Z :: 1%Z :: range2 2 n.
Proof.
  intro H. unfold range. rewrite range2_cons by lia.
  rewrite range2_cons by lia. reflexivity.
Qed.

(** X15: with a length of magnitude at most 2^1023 the call completes and
    the grid holds n_divs (n_divs - 1) / 2 rectangles in all, none when
    n_divs <= 1; for n_divs <= 0 it has no row either, and the artifact is
    the empty picture.  With a length of magnitude 2^1024 or more and at
    least two divisions, the division for the right edge of the first
    rectangle raises OverflowError: the artifact is left with the line
    that ends the empty row and with the first two of the six writes of
    that rectangle. *)
Theorem grid_rectangle_count (n_divs length_unit : Z) (pre : bool) :
  let call := grid_tatum n_divs length_unit pre in
  let head := (if pre then grid_preamble else [])
              ++ [[Lit ("\begin{tikzpicture}[scale=1, transform shape]"
                        ++ nl)]] in
  ((Z.abs length_unit <= 2 ^ 1023)%Z ->
   fst call = Ok tt
   /\ (2 * length (concat (rows (written call)))
       = Z.to_nat n_divs * (Z.to_nat n_divs - 1))%nat)
  /\ ((n_divs <= 0)%Z ->
      call = (Ok tt, Some (head ++ [[Lit ("\end{tikzpicture}" ++ nl)]])))
  /\ ((2 ^ 1024 <= Z.abs length_unit)%Z -> (2 <= n_divs)%Z ->
      call = (Raise OverflowError,
              Some (head
                    ++ [[Lit ("\\" ++ nl)];
                        [Lit "\filldraw[fill=blue!20, draw=black]"];
                        [Lit "("; Float 0; Lit ", "; Int 1; Lit ")"]]))).
Proof.
  intros call head. split; [|split].
  - intro HL. subst call.
    destruct (@grid_tatum_rows n_divs length_unit pre HL) as [Hok Hrows].
    split; [exact Hok|]. rewrite Hrows.
    destruct (Z.le_gt_cases 0 n_divs) as [H|H].
    + rewrite <- (Z2Nat.id n_divs) at 1 by exact H.
      apply triangle_rows_length.
    + unfold range, range2.
      replace (Z.to_nat (n_divs - 0)) with 0%nat by lia. simpl. lia.
  - intro H. subst call head. unfold grid_tatum, with_open.
    io_step. rewrite when_writes. cbv beta iota. io_write.
    unfold range, range2.
    replace (Z.to_nat (n_divs - 0)) with 0%nat by lia.
    cbn [seq map for_each]. io_step. unfold ret at 1. cbv beta iota.
    rewrite write_run. now rewrite <- !app_assoc.
  - intros HL Hn. subst call head. unfold grid_tatum, with_open.
    io_step. rewrite when_writes. cbv beta iota. io_write.
    rewrite range_two_more by exact Hn. cbn [for_each].
    io_step. io_step.
    change (range 0) with (@nil Z). cbn [for_each].
    io_step. unfold ret at 1. cbv beta iota. rewrite write_run. cbv beta iota.
    io_step. io_step.
    change (range 1) with [0%Z]. cbn [for_each].
    io_step. unfold write_rectangle.
    io_write. io_step. unfold lift at 1.
    rewrite Z.mul_0_r.
    change (fdiv 0 1) with (Ok (A := Q) 0). cbv beta iota.
    io_write. io_step. unfold lift at 1.
    change (0 + 1)%Z with 1%Z. rewrite Z.mul_1_l.
    rewrite (@fdiv_overflow length_unit HL). cbv beta iota.
    now rewrite <- !app_assoc.
Qed.

(** Five divisions of a length of 8 give ten rectangles; two divisions of
    a length of 2^1024 end in OverflowError. *)
Lemma grid_rectangle_count_witness :
  (Z.abs 8 <= 2 ^ 1023)%Z
  /\ length (concat (rows (written (grid_tatum 5 8 false)))) = 10%nat
  /\ (2 ^ 1024 <= Z.abs (2 ^ 1024))%Z /\ (2 <= 2)%Z
  /\ grid_tatum 2 (2 ^ 1024) false
     = (Raise OverflowError,
        Some [[Lit ("\begin{tikzpicture}[scale=1, transform shape]" ++ nl)];
              [Lit ("\\" ++ nl)];
              [Lit "\filldraw[fill=blue!20, draw=black]"];
              [Lit "("; Float 0; Lit ", "; Int 1; Lit ")"]]).
Proof.
  assert (H8 : (Z.abs 8 <= 2 ^ 1023)%Z) by (apply Z.leb_le; vm_compute; reflexivity).
  assert (HB : (2 ^ 1024 <= Z.abs (2 ^ 1024))%Z) by (apply Z.leb_le; vm_compute; reflexivity).
  pose proof (@grid_rectangle_count 5 8 false) as T5.
  pose proof (@grid_rectangle_count 2 (2 ^ 1024) false) as T2.
  cbv zeta in T5, T2.
  destruct T5 as [T5 _]. destruct (T5 H8) as [_ Hc].
  destruct T2 as (_ & _ & T2).
  split; [exact H8|].
  split; [change (Z.to_nat 5) with 5%nat in Hc;
          set (c := length (concat (rows (written (grid_tatum 5 8 false))))) in *;
          clearbody c; lia|].
  split; [exact HB|]. split; [lia|].
  exact (T2 HB ltac:(lia)).
Defined.








(** ** More on the schema *)

Lemma tags_check_dec (tags : list Z) : Sorted Z.le tags \/ ~ Sorted Z.le tags.
Proof.
  destruct (list_eqb tags (sorted tags)) eqn:E.
  - left. now apply tags_check.
  - right. intro H. apply tags_check in H. congruence.
Qed.

(** X17: the schema generator completes exactly when the tags are in
    non-decreasing order (equal neighbours are accepted) and there is at
    least one upper node.  Tags out of order are refused before the file
    is opened; with no upper node the call writes the root and then stops
    at the loop variable that was never bound, leaving the picture
    open. *)
Theorem schema_outcomes (root_name : string) (circles : list circle)
    (pre : bool) :
  let call := schema_example root_name circles pre in
  (fst call = Ok tt <-> Sorted Z.le (map tag circles) /\ circles <> [])
  /\ (call = (Raise (ValueError unsorted_message), None)
      <-> ~ Sorted Z.le (map tag circles))
  /\ (circles = [] ->
      call = (Raise (UnboundLocalError "i"),
              Some ((if pre then Schema.preamble else [])
                    ++ [[Lit ("\begin{tikzpicture}" ++ nl)];
                        root_line root_name]))).
Proof.
  intro call.
  destruct (tags_check_dec (map tag circles)) as [Hs|Hs].
  - assert (Hrun := schema_example_run root_name circles pre Hs).
    fold call in Hrun. cbv zeta in Hrun.
    destruct circles as [|c cs]; rewrite Hrun; cbn [fst].
    + split; [split; [discriminate | intros [_ H]; now elim H]|].
      split; [split; [discriminate | intro H; now elim H] | reflexivity].
    + split; [split; [intros _; split; [exact Hs | discriminate] | reflexivity]|].
      split; [split; [discriminate | intro H; now elim H] | discriminate].
  - assert (Hrun := unsorted_tags_before_open root_name circles pre Hs).
    fold call in Hrun. rewrite Hrun. cbn [fst].
    split; [split; [discriminate | intros [H _]; contradiction]|].
    split; [split; [intros _; exact Hs | reflexivity]|].
    intros ->. elim Hs. constructor.
Qed.

Lemma box_tops_upper_lines (l : list (Z * circle)) :
  pick box_top_of (map (fun ic => upper_line (fst ic) (snd ic)) l) = [].
Proof.
  apply pick_none. intros t Ht. apply in_map_iff in Ht.
  now destruct Ht as [ic [<- _]].
Qed.

Lemma box_tops_arrow_lines (l : list (Z * circle)) :
  pick box_top_of
    (map (fun ic => arrow_line (fst ic) (20 * fst ic) (snd ic)) l) = [].
Proof.
  apply pick_none. intros t Ht. apply in_map_iff in Ht.
  now destruct Ht as [ic [<- _]].
Qed.

Lemma fst_combine {X Y} (l1 : list X) (l2 : list Y) :
  length l1 = length l2 -> map fst (combine l1 l2) = l1.
Proof.
  revert l2. induction l1 as [|x l1 IH]; intros [|y l2] H; simpl in *;
    try discriminate; [reflexivity|].
  f_equal. apply IH. lia.
Qed.

Lemma enumerate_in {X} (l : list X) (i : Z) (x : X) :
  In (i, x) (enumerate l) -> (0 <= i < len l)%Z.
Proof.
  intro H. unfold enumerate in H. apply in_combine_l in H.
  now apply in_range_iff in H.
Qed.

(** X18: the dashed box of a schema with m >= 1 upper nodes reaches up to
    m + 1/2: the upper nodes are numbered 1, ..., m in input order, node j
    sits at height j, and so every upper node lies below the top edge of
    the box. *)
Theorem schema_box_encloses (root_name : string) (circles : list circle)
    (pre : bool) :
  Sorted Z.le (map tag circles) -> circles <> [] ->
  let call := schema_example root_name circles pre in
  exists y,
    pick box_top_of (written call) = [y]
    /\ y == inject_Z (len circles) + (1 # 2)
    /\ map fst (uppers (written call)) = map (Z.add 1) (range (len circles))
    /\ forall j name, In (j, name) (uppers (written call)) ->
         (1 <= j <= len circles)%Z /\ inject_Z j < y.
Proof.
  intros Hs Hne call.
  assert (Hrun := schema_example_run root_name circles pre Hs).
  fold call in Hrun. cbv zeta in Hrun.
  destruct circles as [|c cs]; [contradiction|].
  set (m := len (c :: cs)) in *.
  exists (inject_Z (m - 1) + (15 # 10)).
  assert (Hy : inject_Z (m - 1) + (15 # 10) == inject_Z m + (1 # 2)).
  { unfold Z.sub. rewrite inject_Z_plus, inject_Z_opp.
    change (inject_Z 1) with 1. ring. }
  assert (Hup : uppers (written call)
                = map (fun ic => (fst ic + 1, name (snd ic))%Z)
                    (enumerate (c :: cs))).
  { rewrite Hrun. unfold written. cbn [snd].
    rewrite !uppers_app, uppers_upper_lines, uppers_arrow_lines.
    rewrite uppers_opening, uppers_between, uppers_closing.
    cbn [app]. now rewrite app_nil_r. }
  split; [|split; [exact Hy | split]].
  - rewrite Hrun. unfold written. cbn [snd].
    rewrite !pick_app, box_tops_upper_lines, box_tops_arrow_lines.
    destruct pre; reflexivity.
  - rewrite Hup, map_map. cbn [fst]. unfold enumerate. fold m.
    rewrite <- (map_map fst (fun i => (i + 1)%Z)).
    rewrite fst_combine by (rewrite range_length; unfold m, len; lia).
    apply map_ext. intro i. lia.
  - intros j nm Hj. rewrite Hup in Hj. apply in_map_iff in Hj.
    destruct Hj as [[i x] [E Hi]]. cbn [fst snd] in E. injection E as <- _.
    apply enumerate_in in Hi. fold m in Hi.
    split; [lia|].
    apply Qle_lt_trans with (inject_Z m); [rewrite <- Zle_Qle; lia|].
    rewrite Hy. rewrite <- (Qplus_0_r (inject_Z m)) at 1.
    apply Qplus_lt_r. reflexivity.
Qed.

(** D, E, F over C: the box reaches up to 3.5 over the nodes 1, 2, 3. *)
Lemma schema_box_encloses_witness :
  Sorted Z.le [2; 3; 4]%Z
  /\ exists y,
       pick box_top_of
         (written (schema_example "C"
                     [{| name := "D"; tag := 2 |};
                      {| name := "E"; tag := 3 |};
                      {| name := "F"; tag := 4 |}] false)) = [y]
       /\ y == 7 # 2.
Proof.
  assert (Hs : Sorted Z.le [2; 3; 4]%Z) by (repeat constructor; lia).
  split; [exact Hs|].
  destruct (@schema_box_encloses "C"
              [{| name := "D"; tag := 2 |};
               {| name := "E"; tag := 3 |};
               {| name := "F"; tag := 4 |}] false Hs ltac:(discriminate))
    as (y & H1 & H2 & _).
  exists y. split; [exact H1|]. rewrite H2. reflexivity.
Defined.


(** ** Segments in every mode, and the angles of the nodes *)

(** X5: the segments of a single cycle, by mode.  Without lines none is
    drawn; the adjacent mode joins each highlighted index to the next one
    in the list and then the last one to node 0 (nothing on the empty
    list, where the call fails); the all-pairs mode joins the pairs of
    positions of the list.  Their number is 0, the length m of the list,
    and m (m - 1) / 2. *)
Theorem segments_by_mode (ks : option (list Z)) (n : Z) (radius : Q)
    (lines adj ton pre : bool) :
  highlights_valid ks n -> (1 <= n)%Z -> (ton = true -> n = 12%Z) ->
  let l := highlights ks n in
  let segs :=
    segments (written (single_cycle_example ks n radius lines adj ton pre)) in
  segs = (if lines then
            if adj then
              match l with
              | [] => []
              | _ => adjacent_pairs l ++ [(last l 0%Z, 0%Z)]
              end
            else combinations2 l
          else [])
  /\ (lines = false -> length segs = 0%nat)
  /\ (lines = true -> adj = true -> length segs = length l)
  /\ (lines = true -> adj = false ->
      (2 * length segs = length l * (length l - 1))%nat).
Proof.
  intros Hv Hn Hton l segs.
  assert (Hsegs : segs = (if lines then
            if adj then
              match l with
              | [] => []
              | _ => adjacent_pairs l ++ [(last l 0%Z, 0%Z)]
              end
            else combinations2 l
          else [])).
  { subst segs l. rewrite single_cycle_example_run by exact Hv.
    unfold written. rewrite with_open_snd.
    rewrite single_cycle_body_run by (assumption || lia). cbv zeta.
    destruct lines; [destruct adj; [destruct (highlights ks n) as [|k r]|]|];
      cbn [snd];
      rewrite ?segments_app, ?segments_up_to_nodes, ?segments_segment_lines,
        ?segments_closing, ?app_nil_r; reflexivity. }
  rewrite Hsegs. split; [reflexivity | split; [|split]].
  - now intros ->.
  - intros -> ->. destruct l as [|k r]; [reflexivity|].
    rewrite length_app. unfold adjacent_pairs. rewrite length_combine.
    cbn [tl length]. lia.
  - intros -> ->. apply combinations2_length.
Qed.

(** The double tresillo without its lines, and joined in a ring. *)
Lemma segments_by_mode_witness :
  highlights_valid (Some [0; 3; 6; 8; 11; 14]%Z) 16 /\ (1 <= 16)%Z
  /\ segments (written (single_cycle_example (Some [0; 3; 6; 8; 11; 14]%Z)
                          16 1 false true false false)) = []
  /\ segments (written (single_cycle_example (Some [0; 3; 6; 8; 11; 14]%Z)
                          16 1 true true false false))
     = [(0, 3); (3, 6); (6, 8); (8, 11); (11, 14); (14, 0)]%Z.
Proof.
  assert (Hv : highlights_valid (Some [0; 3; 6; 8; 11; 14]%Z) 16).
  { simpl. intros k Hk. repeat (destruct Hk as [<-|Hk]; [lia|]). contradiction. }
  split; [exact Hv | split; [lia | split]].
  - exact (proj1 (@segments_by_mode (Some [0; 3; 6; 8; 11; 14]%Z) 16 1
                    false true false false Hv ltac:(lia) ltac:(discriminate))).
  - exact (proj1 (@segments_by_mode (Some [0; 3; 6; 8; 11; 14]%Z) 16 1
                    true true false false Hv ltac:(lia) ltac:(discriminate))).
Defined.

Lemma combinations2_repeat (l : list Z) (a : Z) :
  (2 <= count_occ Z.eq_dec l a)%nat -> In (a, a) (combinations2 l).
Proof.
  induction l as [|x l IH]; simpl; [lia|].
  destruct (Z.eq_dec x a) as [->|Hx]; intro H.
  - apply in_or_app. left. apply in_map.
    apply (count_occ_In Z.eq_dec). lia.
  - apply in_or_app. right. now apply IH.
Qed.

(** X19: the check of the highlighted indices lets repeated indices
    through.  In all-pairs mode the call then still draws one segment per
    pair of positions, m (m - 1) / 2 of them, and an index given twice
    gets a segment from its node to itself. *)
Theorem all_pairs_with_repeats (ks : list Z) (n : Z) (radius : Q)
    (ton pre : bool) (a : Z) :
  (forall k, In k ks -> (0 <= k < n)%Z) -> (1 <= n)%Z ->
  (ton = true -> n = 12%Z) ->
  (2 <= count_occ Z.eq_dec ks a)%nat ->
  let call := single_cycle_example (Some ks) n radius true false ton pre in
  fst call = Ok tt
  /\ (2 * length (segments (written call)) = length ks * (length ks - 1))%nat
  /\ In (a, a) (segments (written call)).
Proof.
  intros Hks Hn Hton Ha call.
  assert (Hcall : call = (Ok tt, Some (up_to_nodes ks n radius ton pre
                    ++ map segment_line (combinations2 ks)
                    ++ closing_lines pre))).
  { subst call. rewrite single_cycle_example_checked by exact Hks.
    unfold with_open. now rewrite single_cycle_body_run by (assumption || lia). }
  assert (Hseg : segments (written call) = combinations2 ks).
  { rewrite Hcall. unfold written. cbn [fst snd].
    now rewrite !segments_app, segments_up_to_nodes, segments_segment_lines,
      segments_closing, app_nil_r. }
  rewrite Hseg. split; [now rewrite Hcall | split].
  - apply combinations2_length.
  - now apply combinations2_repeat.
Qed.

(** Node 3 given twice: the segments 3-3, 3-5 and 3-5. *)
Lemma all_pairs_with_repeats_witness :
  (forall k, In k [3; 3; 5]%Z -> (0 <= k < 8)%Z) /\ (1 <= 8)%Z
  /\ (2 <= count_occ Z.eq_dec [3; 3; 5]%Z 3%Z)%nat
  /\ In (3, 3)%Z
       (segments (written (single_cycle_example (Some [3; 3; 5]%Z) 8 1
                             true false false false))).
Proof.
  assert (Hks : forall k, In k [3; 3; 5]%Z -> (0 <= k < 8)%Z).
  { simpl. intros k Hk. repeat (destruct Hk as [<-|Hk]; [lia|]). contradiction. }
  assert (Hc : (2 <= count_occ Z.eq_dec [3; 3; 5]%Z 3%Z)%nat) by (simpl; lia).
  split; [exact Hks | split; [lia | split; [exact Hc|]]].
  exact (proj2 (proj2 (@all_pairs_with_repeats [3; 3; 5]%Z 8 1 false false 3
                         Hks ltac:(lia) ltac:(discriminate) Hc))).
Defined.

(** X20: on a circle of at most 2^48 elements no two nodes are written
    at the same angle: rounding moves an angle by at most 2^-42 degrees,
    and the exact angles of two nodes are at least 360 / n degrees
    apart. *)
Theorem nodes_at_distinct_angles (ks : list Z) (n : Z) (radius : Q)
    (lines adj ton pre : bool) (i j : Z) (a b : Q) :
  (1 <= n <= 2 ^ 48)%Z ->
  (forall k, In k ks -> (0 <= k < n)%Z) ->
  (ton = true -> n = 12%Z) ->
  let written_nodes :=
    nodes (written (single_cycle_example (Some ks) n radius lines adj ton pre)) in
  In (i, a) written_nodes -> In (j, b) written_nodes -> a == b -> i = j.
Proof.
  intros Hn Hks Hton written_nodes Hi Hj Hab. subst written_nodes.
  rewrite nodes_of_single_cycle in Hi, Hj by (assumption || lia).
  apply in_map_iff in Hi. destruct Hi as [i' [Ei Hi]].
  apply in_map_iff in Hj. destruct Hj as [j' [Ej Hj]].
  injection Ei as -> <-. injection Ej as -> <-.
  apply in_range_iff in Hi. apply in_range_iff in Hj.
  destruct (angle_in_range Hi) as (_ & _ & ki & Hki & Di).
  destruct (angle_in_range Hj) as (_ & _ & kj & Hkj & Dj).
  rewrite Hab in Di. clear Hab.
  apply Qabs_Qle_condition in Di. apply Qabs_Qle_condition in Dj.
  change (pow2 (-42)) with (1 # 4398046511104) in Di, Dj.
  assert (PN : 0 < inject_Z n) by (change 0 with (inject_Z 0); rewrite <- Zlt_Qlt; lia).
  assert (BN : inject_Z n <= 281474976710656).
  { change 281474976710656 with (inject_Z (2 ^ 48)). rewrite <- Zle_Qle. lia. }
  assert (Exi : inject_Z i / inject_Z n * inject_Z n == inject_Z i).
  { field. intro E. rewrite E in PN. discriminate. }
  assert (Exj : inject_Z j / inject_Z n * inject_Z n == inject_Z j).
  { field. intro E. rewrite E in PN. discriminate. }
  set (xi := inject_Z i / inject_Z n) in *.
  set (xj := inject_Z j / inject_Z n) in *.
  set (t := (i - j + n * (ki - kj))%Z).
  assert (Et : (xi - xj + (inject_Z ki - inject_Z kj)) * inject_Z n == inject_Z t).
  { unfold t. unfold Z.sub.
    rewrite !inject_Z_plus, inject_Z_mult, inject_Z_plus, !inject_Z_opp.
    rewrite <- Exi, <- Exj. ring. }
  set (T := xi - xj + (inject_Z ki - inject_Z kj)) in *.
  assert (HT : - (1 # 791648371998720) <= T /\ T <= 1 # 791648371998720).
  { unfold T. clearbody xi xj. clear - Di Dj.
    set (a := angle j n) in *. clearbody a.
    set (Ki := inject_Z ki) in *. set (Kj := inject_Z kj) in *.
    clearbody Ki Kj. split; lra. }
  assert (H1 : T * inject_Z n <= (1 # 791648371998720) * inject_Z n).
  { apply Qmult_le_compat_r; [apply HT | now apply Qlt_le_weak]. }
  assert (H2 : - (1 # 791648371998720) * inject_Z n <= T * inject_Z n).
  { apply Qmult_le_compat_r; [apply HT | now apply Qlt_le_weak]. }
  rewrite Et in H1, H2.
  destruct (Z.eq_dec t 0) as [E0|E0].
  - unfold t in E0. destruct Hki as [-> | ->], Hkj as [-> | ->]; lia.
  - exfalso.
    destruct (Z.lt_trichotomy t 0) as [Hlt|[Heq|Hgt]]; [|contradiction|].
    + assert (inject_Z t <= -1).
      { change (-1) with (inject_Z (-1)). rewrite <- Zle_Qle. lia. }
      lra.
    + assert (1 <= inject_Z t).
      { change 1 with (inject_Z 1). rewrite <- Zle_Qle. lia. }
      lra.
Qed.

(** On the tresillo circle the angles 90 and 45 belong to the nodes 0 and
    1 only. *)
Lemma nodes_at_distinct_angles_witness :
  (1 <= 8 <= 2 ^ 48)%Z
  /\ In (0%Z, 90) (nodes (written (single_cycle_example (Some [0; 3; 6]%Z) 8 1
                                      true true false false)))
  /\ forall j b,
       In (j, b) (nodes (written (single_cycle_example (Some [0; 3; 6]%Z) 8 1
                                    true true false false))) ->
       90 == b -> 0%Z = j.
Proof.
  assert (Hn : (1 <= 8 <= 2 ^ 48)%Z) by (split; [lia | apply Z.leb_le; reflexivity]).
  assert (Hks : forall k, In k [0; 3; 6]%Z -> (0 <= k < 8)%Z).
  { simpl. intros k [<-|[<-|[<-|[]]]]; lia. }
  assert (H0 : In (0%Z, 90)
                 (nodes (written (single_cycle_example (Some [0; 3; 6]%Z) 8 1
                                    true true false false)))).
  { rewrite nodes_of_single_cycle by (assumption || lia || discriminate).
    left. reflexivity. }
  split; [exact Hn | split; [exact H0|]].
  intros j b Hj.
  exact (@nodes_at_distinct_angles [0; 3; 6]%Z 8 1 true true false false
           0 j 90 b Hn Hks ltac:(discriminate) H0 Hj).
Defined.
